(** * VRPoker log parser: a shallow embedding of [internal/parser]

    The development follows the Go package [parser] of vrc-vrpoker-stats:
    the card decoder, the hand state machine driven by tokenized log
    lines, blind inference, position assignment and the pre-flop
    aggression pass.  Go [int] is a 64-bit two's-complement integer and
    is modelled as [Z] with the wrap-around written out where a sum of
    log-supplied amounts is formed; Go maps are stdpp [gmap]s, the
    [map[int]bool] used as a set is a [gset]; Go strings are byte
    strings, that is Rocq [string]s. *)

From Stdlib Require Import ZArith Ascii String List Bool Lia Sorted.
From stdpp Require Import base option list gmap strings.
Import ListNotations.

Set Primitive Projections.
Open Scope Z_scope.

(** ** Go integers *)

Definition maxInt : Z := 9223372036854775807.
Definition minInt : Z := -9223372036854775808.

(** Two's-complement wrap-around of a 64-bit [int]. *)
Definition wrap64 (z : Z) : Z := (z + 2 ^ 63) mod 2 ^ 64 - 2 ^ 63.

Definition add64 (a b : Z) : Z := wrap64 (a + b).

(** [strconv.Atoi] on a capture of [\d+]: [n] is the number the digits
    denote; out of range the closest representable value is returned
    (the error is discarded by every caller). *)
Definition Atoi (n : N) : Z := Z.min (Z.of_N n) maxInt.

(** Go's [%] truncates towards zero. *)
Definition gomod (a b : Z) : Z := Z.rem a b.

(** ** Strings ([strings.TrimSpace], [strings.Split]) *)

Definition byte_of (n : N) : ascii := ascii_of_N n.
Definition code (c : ascii) : N := N_of_ascii c.

Definition asciiSpace (c : ascii) : bool :=
  match code c with
  | 9%N | 10%N | 11%N | 12%N | 13%N | 32%N => true
  | _ => false
  end.

(** UTF-8 encodings of the non-ASCII code points for which
    [unicode.IsSpace] holds: U+0085, U+00A0, U+1680, U+2000..U+200A,
    U+2028, U+2029, U+202F, U+205F, U+3000. *)
Definition space2 (a b : ascii) : bool :=
  (code a =? 194)%N && ((code b =? 133)%N || (code b =? 160)%N).

Definition space3 (a b c : ascii) : bool :=
  ((code a =? 225)%N && (code b =? 154)%N && (code c =? 128)%N)
  || ((code a =? 226)%N && (code b =? 128)%N &&
      (((128 <=? code c)%N && (code c <=? 138)%N)
       || (code c =? 168)%N || (code c =? 169)%N || (code c =? 175)%N))
  || ((code a =? 226)%N && (code b =? 129)%N && (code c =? 159)%N)
  || ((code a =? 227)%N && (code b =? 128)%N && (code c =? 128)%N).

Fixpoint trimLeft (l : list ascii) : list ascii :=
  match l with
  | a :: t =>
      if asciiSpace a then trimLeft t
      else match t with
           | b :: u =>
               if space2 a b then trimLeft u
               else match u with
                    | c :: v => if space3 a b c then trimLeft v else l
                    | [] => l
                    end
           | [] => l
           end
  | [] => []
  end.

(** The same scan from the end of the string, on the reversed bytes. *)
Fixpoint trimLeftRev (l : list ascii) : list ascii :=
  match l with
  | a :: t =>
      if asciiSpace a then trimLeftRev t
      else match t with
           | b :: u =>
               if space2 b a then trimLeftRev u
               else match u with
                    | c :: v => if space3 c b a then trimLeftRev v else l
                    | [] => l
                    end
           | [] => l
           end
  | [] => []
  end.

Definition TrimSpace (s : string) : string :=
  string_of_list_ascii
    (rev (trimLeftRev (rev (trimLeft (list_ascii_of_string s))))).

(** [strings.Split s ","]: at least one part, one more than commas. *)
Fixpoint splitComma (s : string) : list string :=
  match s with
  | EmptyString => [EmptyString]
  | String c t =>
      if (code c =? 44)%N then EmptyString :: splitComma t
      else match splitComma t with
           | p :: ps => String c p :: ps
           | [] => [String c EmptyString]
           end
  end.

(** [string(b)] for a byte [b]: the UTF-8 encoding of the code point
    with that value (two bytes from 0x80 on). *)
Definition stringOfByte (c : ascii) : string :=
  if (code c <? 128)%N then String c EmptyString
  else String (byte_of (192 + code c / 64))
         (String (byte_of (128 + code c mod 64)) EmptyString).

Fixpoint lastByte (s : string) : option ascii :=
  match s with
  | EmptyString => None
  | String c EmptyString => Some c
  | String _ t => lastByte t
  end.

(** [s[:len(s)-1]] *)
Fixpoint dropLast (s : string) : string :=
  match s with
  | EmptyString => EmptyString
  | String _ EmptyString => EmptyString
  | String c t => String c (dropLast t)
  end.

(** ** Cards (component C2) *)

(** Modelled from the spec: the declaration of [Card] is not among the
    sources; section 3 gives it as a pair of a rank and a suit, and the
    decoder builds it from two strings. *)
Record Card := mkCard { Rank : string; Suit : string }.

(** The zero value [Card{}]. *)
Definition emptyCard : Card := mkCard EmptyString EmptyString.

Definition Card_eqb (a b : Card) : bool :=
  String.eqb (Rank a) (Rank b) && String.eqb (Suit a) (Suit b).

(** Go's [error]; [ErrNil] is [nil]. *)
Inductive goerror := ErrNil | ErrMsg (msg : string).

Definition validSuits (s : string) : bool :=
  existsb (String.eqb s) ["h"; "d"; "c"; "s"]%string.

Definition validRanks (s : string) : bool :=
  existsb (String.eqb s)
    ["2"; "3"; "4"; "5"; "6"; "7"; "8"; "9"; "10"; "J"; "Q"; "K"; "A"]%string.

(** [parseCard]: a single card like 7d, 10h, Ah. *)
Definition parseCard (s0 : string) : Card * goerror :=
  let s := TrimSpace s0 in
  if (String.length s <? 2)%nat then (emptyCard, ErrNil)
  else
    match lastByte s with
    | None => (emptyCard, ErrNil)
    | Some b =>
        let suit := stringOfByte b in
        let rank := dropLast s in
        if negb (validSuits suit) || negb (validRanks rank)
        then (emptyCard, ErrNil)
        else (mkCard rank suit, ErrNil)
    end.

(** The loop of [parseCards] over the parts, with its early return. *)
Fixpoint parseCardsLoop (parts : list string) (cards : list Card)
  : list Card * goerror :=
  match parts with
  | [] => (cards, ErrNil)
  | part :: rest =>
      match parseCard (TrimSpace part) with
      | (card, ErrNil) => parseCardsLoop rest (cards ++ [card])
      | (_, err) => ([], err)
      end
  end.

(** [parseCards]: a comma-separated card string. *)
Definition parseCards (s : string) : list Card * goerror :=
  parseCardsLoop (splitComma s) [].

(** ** Data model *)

(** Modelled from the spec: the enumerations of streets, action kinds
    and positions are declared in a file that is not among the sources.
    Section 3 lists the streets in the order the parser compares them
    in, and the action kinds; the position constants are the ones the
    functions below name.  [ActionUnknown] and [PosUnknown] stand for
    the zero values. *)
Inductive Street :=
  StreetPreFlop | StreetFlop | StreetTurn | StreetRiver | StreetShowdown.

Definition Street_index (s : Street) : Z :=
  match s with
  | StreetPreFlop => 0 | StreetFlop => 1 | StreetTurn => 2
  | StreetRiver => 3 | StreetShowdown => 4
  end.

Inductive ActionType :=
  | ActionUnknown | ActionBlindSB | ActionBlindBB | ActionCheck
  | ActionCall | ActionBet | ActionRaise | ActionAllIn | ActionFold.

Inductive Position :=
  | PosUnknown | PosSB | PosBB | PosUTG | PosUTG1 | PosMP | PosMP1
  | PosHJ | PosCO | PosBTN.

#[global] Instance Street_eq_dec : EqDecision Street.
Proof. solve_decision. Defined.
#[global] Instance ActionType_eq_dec : EqDecision ActionType.
Proof. solve_decision. Defined.
#[global] Instance Position_eq_dec : EqDecision Position.
Proof. solve_decision. Defined.

(** Modelled from the spec: [PlayerAction], the record of one observed
    action (its street field is [OnStreet] here, the type taking the
    name [Street]). *)
Record PlayerAction := mkPlayerAction {
  Timestamp : Z;
  PlayerID : Z;
  OnStreet : Street;
  Action : ActionType;
  Amount : Z
}.

Definition set_Timestamp (x : PlayerAction) (v : Z) : PlayerAction :=
  mkPlayerAction v (PlayerID x) (OnStreet x) (Action x) (Amount x).
Definition set_PlayerID (x : PlayerAction) (v : Z) : PlayerAction :=
  mkPlayerAction (Timestamp x) v (OnStreet x) (Action x) (Amount x).
Definition set_OnStreet (x : PlayerAction) (v : Street) : PlayerAction :=
  mkPlayerAction (Timestamp x) (PlayerID x) v (Action x) (Amount x).
Definition set_Action (x : PlayerAction) (v : ActionType) : PlayerAction :=
  mkPlayerAction (Timestamp x) (PlayerID x) (OnStreet x) v (Amount x).
Definition set_Amount (x : PlayerAction) (v : Z) : PlayerAction :=
  mkPlayerAction (Timestamp x) (PlayerID x) (OnStreet x) (Action x) v.

(** Modelled from the spec: [PlayerHandInfo], the per-seat record of
    one hand, with the fields the parser reads and writes (its position
    field is [PPosition] here). *)
Record PlayerHandInfo := mkPlayerHandInfo {
  SeatID : Z;
  Actions : list PlayerAction;
  HoleCards : list Card;
  PPosition : Position;
  VPIP : bool;
  PFR : bool;
  ThreeBet : bool;
  FoldedPF : bool;
  FoldTo3Bet : bool;
  ShowedDown : bool;
  Won : bool;
  PotWon : Z
}.

Definition set_SeatID (x : PlayerHandInfo) (v : Z) : PlayerHandInfo :=
  mkPlayerHandInfo v (Actions x) (HoleCards x) (PPosition x) (VPIP x) (PFR x) (ThreeBet x) (FoldedPF x) (FoldTo3Bet x) (ShowedDown x) (Won x) (PotWon x).
Definition set_Actions (x : PlayerHandInfo) (v : list PlayerAction) : PlayerHandInfo :=
  mkPlayerHandInfo (SeatID x) v (HoleCards x) (PPosition x) (VPIP x) (PFR x) (ThreeBet x) (FoldedPF x) (FoldTo3Bet x) (ShowedDown x) (Won x) (PotWon x).
Definition set_HoleCards (x : PlayerHandInfo) (v : list Card) : PlayerHandInfo :=
  mkPlayerHandInfo (SeatID x) (Actions x) v (PPosition x) (VPIP x) (PFR x) (ThreeBet x) (FoldedPF x) (FoldTo3Bet x) (ShowedDown x) (Won x) (PotWon x).
Definition set_PPosition (x : PlayerHandInfo) (v : Position) : PlayerHandInfo :=
  mkPlayerHandInfo (SeatID x) (Actions x) (HoleCards x) v (VPIP x) (PFR x) (ThreeBet x) (FoldedPF x) (FoldTo3Bet x) (ShowedDown x) (Won x) (PotWon x).
Definition set_VPIP (x : PlayerHandInfo) (v : bool) : PlayerHandInfo :=
  mkPlayerHandInfo (SeatID x) (Actions x) (HoleCards x) (PPosition x) v (PFR x) (ThreeBet x) (FoldedPF x) (FoldTo3Bet x) (ShowedDown x) (Won x) (PotWon x).
Definition set_PFR (x : PlayerHandInfo) (v : bool) : PlayerHandInfo :=
  mkPlayerHandInfo (SeatID x) (Actions x) (HoleCards x) (PPosition x) (VPIP x) v (ThreeBet x) (FoldedPF x) (FoldTo3Bet x) (ShowedDown x) (Won x) (PotWon x).
Definition set_ThreeBet (x : PlayerHandInfo) (v : bool) : PlayerHandInfo :=
  mkPlayerHandInfo (SeatID x) (Actions x) (HoleCards x) (PPosition x) (VPIP x) (PFR x) v (FoldedPF x) (FoldTo3Bet x) (ShowedDown x) (Won x) (PotWon x).
Definition set_FoldedPF (x : PlayerHandInfo) (v : bool) : PlayerHandInfo :=
  mkPlayerHandInfo (SeatID x) (Actions x) (HoleCards x) (PPosition x) (VPIP x) (PFR x) (ThreeBet x) v (FoldTo3Bet x) (ShowedDown x) (Won x) (PotWon x).
Definition set_FoldTo3Bet (x : PlayerHandInfo) (v : bool) : PlayerHandInfo :=
  mkPlayerHandInfo (SeatID x) (Actions x) (HoleCards x) (PPosition x) (VPIP x) (PFR x) (ThreeBet x) (FoldedPF x) v (ShowedDown x) (Won x) (PotWon x).
Definition set_ShowedDown (x : PlayerHandInfo) (v : bool) : PlayerHandInfo :=
  mkPlayerHandInfo (SeatID x) (Actions x) (HoleCards x) (PPosition x) (VPIP x) (PFR x) (ThreeBet x) (FoldedPF x) (FoldTo3Bet x) v (Won x) (PotWon x).
Definition set_Won (x : PlayerHandInfo) (v : bool) : PlayerHandInfo :=
  mkPlayerHandInfo (SeatID x) (Actions x) (HoleCards x) (PPosition x) (VPIP x) (PFR x) (ThreeBet x) (FoldedPF x) (FoldTo3Bet x) (ShowedDown x) v (PotWon x).
Definition set_PotWon (x : PlayerHandInfo) (v : Z) : PlayerHandInfo :=
  mkPlayerHandInfo (SeatID x) (Actions x) (HoleCards x) (PPosition x) (VPIP x) (PFR x) (ThreeBet x) (FoldedPF x) (FoldTo3Bet x) (ShowedDown x) (Won x) v.

(** Modelled from the spec: [Hand], with the fields the parser reads
    and writes.  [Players] maps a seat to the record the Go map points
    to; a write through the pointer is an update of the map entry. *)
Record Hand := mkHand {
  ID : Z;
  StartTime : Z;
  EndTime : Z;
  LocalPlayerSeat : Z;
  SBSeat : Z;
  BBSeat : Z;
  WinnerSeat : Z;
  WinType : string;
  TotalPot : Z;
  CommunityCards : list Card;
  ActiveSeats : list Z;
  Players : gmap Z PlayerHandInfo;
  NumPlayers : Z;
  IsComplete : bool
}.

Definition set_ID (x : Hand) (v : Z) : Hand :=
  mkHand v (StartTime x) (EndTime x) (LocalPlayerSeat x) (SBSeat x) (BBSeat x) (WinnerSeat x) (WinType x) (TotalPot x) (CommunityCards x) (ActiveSeats x) (Players x) (NumPlayers x) (IsComplete x).
Definition set_StartTime (x : Hand) (v : Z) : Hand :=
  mkHand (ID x) v (EndTime x) (LocalPlayerSeat x) (SBSeat x) (BBSeat x) (WinnerSeat x) (WinType x) (TotalPot x) (CommunityCards x) (ActiveSeats x) (Players x) (NumPlayers x) (IsComplete x).
Definition set_EndTime (x : Hand) (v : Z) : Hand :=
  mkHand (ID x) (StartTime x) v (LocalPlayerSeat x) (SBSeat x) (BBSeat x) (WinnerSeat x) (WinType x) (TotalPot x) (CommunityCards x) (ActiveSeats x) (Players x) (NumPlayers x) (IsComplete x).
Definition set_LocalPlayerSeat (x : Hand) (v : Z) : Hand :=
  mkHand (ID x) (StartTime x) (EndTime x) v (SBSeat x) (BBSeat x) (WinnerSeat x) (WinType x) (TotalPot x) (CommunityCards x) (ActiveSeats x) (Players x) (NumPlayers x) (IsComplete x).
Definition set_SBSeat (x : Hand) (v : Z) : Hand :=
  mkHand (ID x) (StartTime x) (EndTime x) (LocalPlayerSeat x) v (BBSeat x) (WinnerSeat x) (WinType x) (TotalPot x) (CommunityCards x) (ActiveSeats x) (Players x) (NumPlayers x) (IsComplete x).
Definition set_BBSeat (x : Hand) (v : Z) : Hand :=
  mkHand (ID x) (StartTime x) (EndTime x) (LocalPlayerSeat x) (SBSeat x) v (WinnerSeat x) (WinType x) (TotalPot x) (CommunityCards x) (ActiveSeats x) (Players x) (NumPlayers x) (IsComplete x).
Definition set_WinnerSeat (x : Hand) (v : Z) : Hand :=
  mkHand (ID x) (StartTime x) (EndTime x) (LocalPlayerSeat x) (SBSeat x) (BBSeat x) v (WinType x) (TotalPot x) (CommunityCards x) (ActiveSeats x) (Players x) (NumPlayers x) (IsComplete x).
Definition set_WinType (x : Hand) (v : string) : Hand :=
  mkHand (ID x) (StartTime x) (EndTime x) (LocalPlayerSeat x) (SBSeat x) (BBSeat x) (WinnerSeat x) v (TotalPot x) (CommunityCards x) (ActiveSeats x) (Players x) (NumPlayers x) (IsComplete x).
Definition set_TotalPot (x : Hand) (v : Z) : Hand :=
  mkHand (ID x) (StartTime x) (EndTime x) (LocalPlayerSeat x) (SBSeat x) (BBSeat x) (WinnerSeat x) (WinType x) v (CommunityCards x) (ActiveSeats x) (Players x) (NumPlayers x) (IsComplete x).
Definition set_CommunityCards (x : Hand) (v : list Card) : Hand :=
  mkHand (ID x) (StartTime x) (EndTime x) (LocalPlayerSeat x) (SBSeat x) (BBSeat x) (WinnerSeat x) (WinType x) (TotalPot x) v (ActiveSeats x) (Players x) (NumPlayers x) (IsComplete x).
Definition set_ActiveSeats (x : Hand) (v : list Z) : Hand :=
  mkHand (ID x) (StartTime x) (EndTime x) (LocalPlayerSeat x) (SBSeat x) (BBSeat x) (WinnerSeat x) (WinType x) (TotalPot x) (CommunityCards x) v (Players x) (NumPlayers x) (IsComplete x).
Definition set_Players (x : Hand) (v : gmap Z PlayerHandInfo) : Hand :=
  mkHand (ID x) (StartTime x) (EndTime x) (LocalPlayerSeat x) (SBSeat x) (BBSeat x) (WinnerSeat x) (WinType x) (TotalPot x) (CommunityCards x) (ActiveSeats x) v (NumPlayers x) (IsComplete x).
Definition set_NumPlayers (x : Hand) (v : Z) : Hand :=
  mkHand (ID x) (StartTime x) (EndTime x) (LocalPlayerSeat x) (SBSeat x) (BBSeat x) (WinnerSeat x) (WinType x) (TotalPot x) (CommunityCards x) (ActiveSeats x) (Players x) v (IsComplete x).
Definition set_IsComplete (x : Hand) (v : bool) : Hand :=
  mkHand (ID x) (StartTime x) (EndTime x) (LocalPlayerSeat x) (SBSeat x) (BBSeat x) (WinnerSeat x) (WinType x) (TotalPot x) (CommunityCards x) (ActiveSeats x) (Players x) (NumPlayers x) v.

(** Modelled from the spec: [ParseResult] (its seat field is
    [ResLocalPlayerSeat] here). *)
Record ParseResult := mkParseResult {
  ResLocalPlayerSeat : Z;
  Hands : list Hand;
  InPokerWorld : bool
}.

Definition set_ResLocalPlayerSeat (x : ParseResult) (v : Z) : ParseResult :=
  mkParseResult v (Hands x) (InPokerWorld x).
Definition set_Hands (x : ParseResult) (v : list Hand) : ParseResult :=
  mkParseResult (ResLocalPlayerSeat x) v (InPokerWorld x).
Definition set_InPokerWorld (x : ParseResult) (v : bool) : ParseResult :=
  mkParseResult (ResLocalPlayerSeat x) (Hands x) v.

(** [pendingWin] *)
Record pendingWin := mkPendingWin {
  winSeatID : Z;
  winAmount : Z
}.

Definition set_winSeatID (x : pendingWin) (v : Z) : pendingWin :=
  mkPendingWin v (winAmount x).
Definition set_winAmount (x : pendingWin) (v : Z) : pendingWin :=
  mkPendingWin (winSeatID x) v.

(** [pfAction] *)
Record pfAction := mkPfAction {
  seatID : Z;
  action : ActionType;
  amount : Z
}.

Definition set_seatID (x : pfAction) (v : Z) : pfAction :=
  mkPfAction v (action x) (amount x).
Definition set_action (x : pfAction) (v : ActionType) : pfAction :=
  mkPfAction (seatID x) v (amount x).
Definition set_amount (x : pfAction) (v : Z) : pfAction :=
  mkPfAction (seatID x) (action x) v.

(** [Parser]: the state of incremental log parsing.  A [time.Time] is
    an integer instant; [pendingLocalCards] is [None] for the nil
    slice. *)
Record Parser := mkParser {
  result : ParseResult;
  currentHand : option Hand;
  handIDCounter : Z;
  inPokerWorld : bool;
  currentStreet : Street;
  streetBetAmount : Z;
  foldedThisHand : gset Z;
  pendingWinners : list pendingWin;
  lastTimestamp : Z;
  streetBets : gmap Z Z;
  pfActions : list pfAction;
  pendingLocalCards : option (list Card);
  lastBlindSeat : Z
}.

Definition set_result (x : Parser) (v : ParseResult) : Parser :=
  mkParser v (currentHand x) (handIDCounter x) (inPokerWorld x) (currentStreet x) (streetBetAmount x) (foldedThisHand x) (pendingWinners x) (lastTimestamp x) (streetBets x) (pfActions x) (pendingLocalCards x) (lastBlindSeat x).
Definition set_currentHand (x : Parser) (v : option Hand) : Parser :=
  mkParser (result x) v (handIDCounter x) (inPokerWorld x) (currentStreet x) (streetBetAmount x) (foldedThisHand x) (pendingWinners x) (lastTimestamp x) (streetBets x) (pfActions x) (pendingLocalCards x) (lastBlindSeat x).
Definition set_handIDCounter (x : Parser) (v : Z) : Parser :=
  mkParser (result x) (currentHand x) v (inPokerWorld x) (currentStreet x) (streetBetAmount x) (foldedThisHand x) (pendingWinners x) (lastTimestamp x) (streetBets x) (pfActions x) (pendingLocalCards x) (lastBlindSeat x).
Definition set_inPokerWorld (x : Parser) (v : bool) : Parser :=
  mkParser (result x) (currentHand x) (handIDCounter x) v (currentStreet x) (streetBetAmount x) (foldedThisHand x) (pendingWinners x) (lastTimestamp x) (streetBets x) (pfActions x) (pendingLocalCards x) (lastBlindSeat x).
Definition set_currentStreet (x : Parser) (v : Street) : Parser :=
  mkParser (result x) (currentHand x) (handIDCounter x) (inPokerWorld x) v (streetBetAmount x) (foldedThisHand x) (pendingWinners x) (lastTimestamp x) (streetBets x) (pfActions x) (pendingLocalCards x) (lastBlindSeat x).
Definition set_streetBetAmount (x : Parser) (v : Z) : Parser :=
  mkParser (result x) (currentHand x) (handIDCounter x) (inPokerWorld x) (currentStreet x) v (foldedThisHand x) (pendingWinners x) (lastTimestamp x) (streetBets x) (pfActions x) (pendingLocalCards x) (lastBlindSeat x).
Definition set_foldedThisHand (x : Parser) (v : gset Z) : Parser :=
  mkParser (result x) (currentHand x) (handIDCounter x) (inPokerWorld x) (currentStreet x) (streetBetAmount x) v (pendingWinners x) (lastTimestamp x) (streetBets x) (pfActions x) (pendingLocalCards x) (lastBlindSeat x).
Definition set_pendingWinners (x : Parser) (v : list pendingWin) : Parser :=
  mkParser (result x) (currentHand x) (handIDCounter x) (inPokerWorld x) (currentStreet x) (streetBetAmount x) (foldedThisHand x) v (lastTimestamp x) (streetBets x) (pfActions x) (pendingLocalCards x) (lastBlindSeat x).
Definition set_lastTimestamp (x : Parser) (v : Z) : Parser :=
  mkParser (result x) (currentHand x) (handIDCounter x) (inPokerWorld x) (currentStreet x) (streetBetAmount x) (foldedThisHand x) (pendingWinners x) v (streetBets x) (pfActions x) (pendingLocalCards x) (lastBlindSeat x).
Definition set_streetBets (x : Parser) (v : gmap Z Z) : Parser :=
  mkParser (result x) (currentHand x) (handIDCounter x) (inPokerWorld x) (currentStreet x) (streetBetAmount x) (foldedThisHand x) (pendingWinners x) (lastTimestamp x) v (pfActions x) (pendingLocalCards x) (lastBlindSeat x).
Definition set_pfActions (x : Parser) (v : list pfAction) : Parser :=
  mkParser (result x) (currentHand x) (handIDCounter x) (inPokerWorld x) (currentStreet x) (streetBetAmount x) (foldedThisHand x) (pendingWinners x) (lastTimestamp x) (streetBets x) v (pendingLocalCards x) (lastBlindSeat x).
Definition set_pendingLocalCards (x : Parser) (v : option (list Card)) : Parser :=
  mkParser (result x) (currentHand x) (handIDCounter x) (inPokerWorld x) (currentStreet x) (streetBetAmount x) (foldedThisHand x) (pendingWinners x) (lastTimestamp x) (streetBets x) (pfActions x) v (lastBlindSeat x).
Definition set_lastBlindSeat (x : Parser) (v : Z) : Parser :=
  mkParser (result x) (currentHand x) (handIDCounter x) (inPokerWorld x) (currentStreet x) (streetBetAmount x) (foldedThisHand x) (pendingWinners x) (lastTimestamp x) (streetBets x) (pfActions x) (pendingLocalCards x) v.

(** ** Tokenized log lines (component C1)

    The regular expressions of the package are matched by Go's [regexp]
    library.  A line is represented by what the matching yields: the
    timestamp, and the first pattern of the parser's own order that the
    body matches, together with its captures.  A capture of [\d+] is
    the natural number its digits denote; a capture of [(.+)] is the
    captured text. *)
Inductive Msg :=
  | WorldJoining (worldID : string)
  | WorldLeaving
  | NewGame
  | DrawLocalHole (cards : string)
  | SBBet (seat amount : N)
  | BBBet (seat amount : N)
  | NewCommunity (card : string)
  | NextPhase
  | CollectingBets
  | PlayerFolded (seat : N)
  | PlayerEndTurn (seat amount : N)
  | ShowHoleCards (seat : N) (cards : string)
  | FoldToOne
  | PotWinner (seat amount : N)
  | PotManager (seat amount : N)
  | OtherMsg.

(** [NoStamp]: the timestamp prefix does not match or does not parse. *)
Inductive Line :=
  | NoStamp
  | Stamped (ts : Z) (msg : Msg).

(** ** The hand state machine (component C3) *)

(** [NewParser] *)
Definition NewParser : Parser :=
  {| result := {| ResLocalPlayerSeat := -1; Hands := []; InPokerWorld := false |};
     currentHand := None;
     handIDCounter := 0;
     inPokerWorld := false;
     currentStreet := StreetPreFlop;
     streetBetAmount := 0;
     foldedThisHand := ∅;
     pendingWinners := [];
     lastTimestamp := 0;
     streetBets := ∅;
     pfActions := [];
     pendingLocalCards := None;
     lastBlindSeat := 0 |}.

(** [&PlayerHandInfo{SeatID: seat}] *)
Definition newPlayer (seat : Z) : PlayerHandInfo :=
  {| SeatID := seat; Actions := []; HoleCards := []; PPosition := PosUnknown;
     VPIP := false; PFR := false; ThreeBet := false; FoldedPF := false;
     FoldTo3Bet := false; ShowedDown := false; Won := false; PotWon := 0 |}.

(** A write through [pi := h.Players[seat]]; the callers below have
    run [ensurePlayer] first, so the entry exists. *)
Definition updPlayer (seat : Z) (f : PlayerHandInfo -> PlayerHandInfo)
  (h : Hand) : Hand :=
  set_Players h (alter f seat (Players h)).

(** [ensurePlayer], on the current hand. *)
Definition ensurePlayer (seat : Z) (h : Hand) : Hand :=
  match Players h !! seat with
  | Some _ => h
  | None =>
      let h1 := set_Players h (<[seat := newPlayer seat]> (Players h)) in
      if existsb (Z.eqb seat) (ActiveSeats h1) then h1
      else set_ActiveSeats h1 (ActiveSeats h1 ++ [seat])
  end.

Definition appendAction (seat : Z) (a : PlayerAction) (h : Hand) : Hand :=
  updPlayer seat (fun pi => set_Actions pi (Actions pi ++ [a])) h.

(** [assignLocalCards]: the hand and the parser fields it writes. *)
Definition assignLocalCards (seat : Z) (cards : list Card)
  (p : Parser) (h : Hand) : Parser * Hand :=
  let h := ensurePlayer seat h in
  let h := updPlayer seat (fun pi => set_HoleCards pi cards) h in
  let h := set_LocalPlayerSeat h seat in
  let p := set_result p (set_ResLocalPlayerSeat (result p) seat) in
  let p := set_pendingLocalCards p None in
  (p, h).

(** [cardsMatch] *)
Fixpoint cardsMatchLoop (a b : list Card) : bool :=
  match a, b with
  | x :: a', y :: b' =>
      if negb (String.eqb (Rank x) (Rank y)) || negb (String.eqb (Suit x) (Suit y))
      then false
      else cardsMatchLoop a' b'
  | _, _ => true
  end.

Definition cardsMatch (a b : list Card) : bool :=
  if negb (length a =? length b)%nat then false else cardsMatchLoop a b.

(** [classifyAction] *)
Definition classifyAction (p : Parser) (seat amount : Z) : ActionType :=
  let prevCommitted := default 0 (streetBets p !! seat) in
  if amount =? 0 then
    if (streetBetAmount p =? 0) || (prevCommitted =? streetBetAmount p)
    then ActionCheck
    else ActionCheck
  else if streetBetAmount p =? 0 then ActionBet
  else if amount >? streetBetAmount p then ActionRaise
  else if amount =? streetBetAmount p then ActionCall
  else ActionCall.

(** [startNewHand] *)
Definition startNewHand (ts : Z) (p : Parser) : Parser :=
  let p := set_handIDCounter p (add64 (handIDCounter p) 1) in
  let localSeat := ResLocalPlayerSeat (result p) in
  let h :=
    {| ID := handIDCounter p; StartTime := ts; EndTime := 0;
       LocalPlayerSeat := localSeat; SBSeat := -1; BBSeat := -1;
       WinnerSeat := -1; WinType := EmptyString; TotalPot := 0;
       CommunityCards := []; ActiveSeats := []; Players := ∅;
       NumPlayers := 0; IsComplete := false |} in
  {| result := result p;
     currentHand := Some h;
     handIDCounter := handIDCounter p;
     inPokerWorld := inPokerWorld p;
     currentStreet := StreetPreFlop;
     streetBetAmount := 0;
     foldedThisHand := ∅;
     pendingWinners := [];
     lastTimestamp := lastTimestamp p;
     streetBets := ∅;
     pfActions := [];
     pendingLocalCards := None;
     lastBlindSeat := -1 |}.

(** ** Positions ([position.go]) *)

(** [sortInts]: insertion sort.  Each element moves left past the
    greater elements of the sorted prefix before it. *)
Fixpoint insertInt (x : Z) (l : list Z) : list Z :=
  match l with
  | [] => [x]
  | y :: t => if x <? y then x :: y :: t else y :: insertInt x t
  end.

Definition sortInts (s : list Z) : list Z :=
  fold_left (fun acc x => insertInt x acc) s [].

(** The search loops [for i, s := range seats { if s == x { idx = i; break } }],
    with [-1] when nothing is found. *)
Fixpoint indexFrom (i : Z) (x : Z) (l : list Z) : Z :=
  match l with
  | [] => -1
  | s :: t => if s =? x then i else indexFrom (i + 1) x t
  end.

Definition indexOf (x : Z) (l : list Z) : Z := indexFrom 0 x l.

(** [seats[i]] for an index in range. *)
Definition at_index (l : list Z) (i : Z) : Z := nth (Z.to_nat i) l 0.

Definition len {A} (l : list A) : Z := Z.of_nat (length l).

(** [positionOrder].  The default branch fills a slice of [n] zero
    values; its first write, [result[0]], needs [n >= 1], which holds
    at the only call (the rotated seats contain SB). *)
Definition positionOrder (n : Z) : list Position :=
  match n with
  | 2 => [PosSB; PosBTN]
  | 3 => [PosSB; PosBB; PosBTN]
  | 4 => [PosSB; PosBB; PosUTG; PosBTN]
  | 5 => [PosSB; PosBB; PosUTG; PosMP; PosBTN]
  | 6 => [PosSB; PosBB; PosUTG; PosHJ; PosCO; PosBTN]
  | 7 => [PosSB; PosBB; PosUTG; PosUTG1; PosHJ; PosCO; PosBTN]
  | 8 => [PosSB; PosBB; PosUTG; PosUTG1; PosMP; PosHJ; PosCO; PosBTN]
  | _ =>
      let r := replicate (Z.to_nat n) PosUnknown in
      let r := <[0%nat := PosSB]> r in
      let r := if n >? 1 then <[1%nat := PosBB]> r else r in
      let r := if n >? 2 then <[Z.to_nat (n - 1) := PosBTN]> r else r in
      let r := if n >? 3 then <[Z.to_nat (n - 2) := PosCO]> r else r in
      let r := if n >? 4 then <[Z.to_nat (n - 3) := PosMP]> r else r in
      r
  end.

(** The loop [for i, seat := range rotated] of [assignPositions]. *)
Fixpoint assignLoop (i : nat) (rotated : list Z) (positions : list Position)
  (h : Hand) : Hand :=
  match rotated with
  | [] => h
  | seat :: rest =>
      let h :=
        match Players h !! seat, positions !! i with
        | Some _, Some pos => updPlayer seat (fun pi => set_PPosition pi pos) h
        | _, _ => h
        end in
      assignLoop (S i) rest positions h
  end.

(** [assignPositions] *)
Definition assignPositions (h : Hand) : Hand :=
  if (SBSeat h <? 0) || (BBSeat h <? 0) then h
  else
    let allSeats := sortInts (ActiveSeats h) in
    let sbIdx := indexOf (SBSeat h) allSeats in
    if sbIdx <? 0 then h
    else
      let rotated := drop (Z.to_nat sbIdx) allSeats ++ take (Z.to_nat sbIdx) allSeats in
      let positions := positionOrder (len rotated) in
      assignLoop 0 rotated positions h.

(** ** Blind inference ([inferBlindsFromPreflop]) *)

(** The loop over [p.pfActions] that looks for the first acting seat. *)
Fixpoint firstActor (acts : list pfAction) (firstSeat : Z) : Z :=
  match acts with
  | [] => firstSeat
  | act :: rest =>
      match action act with
      | ActionBlindSB | ActionBlindBB => firstActor rest firstSeat
      | ActionFold | ActionCheck | ActionCall | ActionBet | ActionRaise
      | ActionAllIn =>
          let firstSeat := seatID act in
          if firstSeat >=? 0 then firstSeat else firstActor rest firstSeat
      | ActionUnknown =>
          if firstSeat >=? 0 then firstSeat else firstActor rest firstSeat
      end
  end.

(** [inferBlindsFromPreflop]: the hand after the call and the result. *)
Definition inferBlindsFromPreflop (p : Parser) (oh : option Hand)
  : option Hand * bool :=
  match oh with
  | None => (None, false)
  | Some h =>
    if (SBSeat h >=? 0) && (BBSeat h >=? 0) then (Some h, false)
    else
      let seats := sortInts (ActiveSeats h) in
      let n := len seats in
      if n <? 2 then (Some h, false)
      else
        let sbIdx := indexOf (SBSeat h) seats in
        if (SBSeat h >=? 0) && (BBSeat h <? 0) && (sbIdx >=? 0) then
          (Some (set_BBSeat h (at_index seats (gomod (sbIdx + 1) n))), true)
        else
          let bbIdx := indexOf (BBSeat h) seats in
          if (BBSeat h >=? 0) && (SBSeat h <? 0) && (bbIdx >=? 0) then
            (Some (set_SBSeat h (at_index seats (gomod (bbIdx - 1 + n) n))), true)
          else
            let firstSeat := firstActor (pfActions p) (-1) in
            if firstSeat <? 0 then (Some h, false)
            else
              let idx := indexOf firstSeat seats in
              if (idx <? 0) || (n <? 2) then (Some h, false)
              else
                let bbIdx := gomod (idx - 1 + n) n in
                let sbIdx := gomod (idx - 2 + n) n in
                let h := set_BBSeat h (at_index seats bbIdx) in
                let h := set_SBSeat h (at_index seats sbIdx) in
                (Some h, true)
  end.

(** ** The pre-flop aggression pass ([calculatePreflopStats]) *)

(** [bbAmount]: the amount of the first big-blind action of the
    big-blind seat, or 0. *)
Fixpoint firstBlindBB (acts : list PlayerAction) : option Z :=
  match acts with
  | [] => None
  | a :: rest =>
      if decide (Action a = ActionBlindBB) then Some (Amount a)
      else firstBlindBB rest
  end.

Definition bbAmount (h : Hand) : Z :=
  if BBSeat h >=? 0 then
    match Players h !! BBSeat h with
    | Some pi => default 0 (firstBlindBB (Actions pi))
    | None => 0
    end
  else 0.

(** The variables of the loop: [betLevel], [raiserAtLevel], and the
    hand whose players are being flagged.  [betLevel] grows by one per
    action of the buffer at most and is kept exact. *)
Record pfState := mkPfState {
  betLevel : Z;
  raiserAtLevel : gmap Z Z;
  pfHand : Hand
}.

(** One iteration of [for _, act := range p.pfActions]. *)
Definition pfStep (st : pfState) (act : pfAction) : pfState :=
  let h := pfHand st in
  match Players h !! seatID act with
  | None => st
  | Some _ =>
      let isSB := seatID act =? SBSeat h in
      let isBB := seatID act =? BBSeat h in
      let flag f := updPlayer (seatID act) f h in
      match action act with
      | ActionBlindSB => mkPfState 1 (raiserAtLevel st) h
      | ActionBlindBB =>
          if betLevel st <? 2 then mkPfState 2 (raiserAtLevel st) h else st
      | ActionRaise | ActionBet =>
          let l := betLevel st + 1 in
          let r := <[l := seatID act]> (raiserAtLevel st) in
          match l with
          | 2 => mkPfState l r (flag (fun pi => set_VPIP (set_PFR pi true) true))
          | 3 => mkPfState l r (flag (fun pi => set_VPIP (set_ThreeBet pi true) true))
          | _ => mkPfState l r (flag (fun pi => set_VPIP pi true))
          end
      | ActionCall =>
          if isSB && (amount act <=? bbAmount h) then
            if betLevel st >? 2
            then mkPfState (betLevel st) (raiserAtLevel st)
                   (flag (fun pi => set_VPIP pi true))
            else st
          else if isBB && (betLevel st <=? 2) then st
          else mkPfState (betLevel st) (raiserAtLevel st)
                 (flag (fun pi => set_VPIP pi true))
      | ActionCheck => st
      | ActionFold =>
          if betLevel st >=? 3 then
            match raiserAtLevel st !! (betLevel st - 1) with
            | Some raiserSeat =>
                if raiserSeat =? seatID act
                then mkPfState (betLevel st) (raiserAtLevel st)
                       (flag (fun pi => set_FoldTo3Bet pi true))
                else st
            | None => st
            end
          else st
      | _ => st
      end
  end.

(** [calculatePreflopStats]: both branches on [hasBlinds] start the
    level at 1. *)
Definition calculatePreflopStats (p : Parser) (h : Hand) : Hand :=
  if (len (pfActions p) =? 0) then h
  else
    let hasBlinds := (SBSeat h >=? 0) || (BBSeat h >=? 0) in
    let betLevel0 := if hasBlinds then 1 else 1 in
    pfHand (fold_left pfStep (pfActions p) (mkPfState betLevel0 ∅ h)).

(** ** The earlier pre-flop pass of the parser file

    The parser file carries bodies of its own for [assignPositions],
    [positionOrder], [sortInts] and [calculatePreflopStats].  The
    package defines each of these once more in a file of its own
    ([position.go] and the pre-flop statistics file), and those are the
    definitions above, which finalization calls.  The earlier pass is
    kept here for comparison. *)
Module ParserFile.

Record passState := mkPassState {
  level : Z;
  firstRaiserSeat : Z;
  passHand : Hand
}.

(** One iteration of the loop of the earlier [calculatePreflopStats]. *)
Definition passStep (st : passState) (act : pfAction) : passState :=
  let h := passHand st in
  match Players h !! seatID act with
  | None => st
  | Some _ =>
      let isBB := seatID act =? BBSeat h in
      let isSB := seatID act =? SBSeat h in
      let flag f := updPlayer (seatID act) f h in
      match action act with
      | ActionBlindSB | ActionBlindBB => st
      | ActionBet | ActionRaise | ActionAllIn =>
          let l := level st + 1 in
          match l with
          | 2 => mkPassState l (seatID act)
                   (flag (fun pi => set_VPIP (set_PFR pi true) true))
          | 3 => mkPassState l (firstRaiserSeat st)
                   (flag (fun pi => set_VPIP (set_ThreeBet pi true) true))
          | _ => mkPassState l (firstRaiserSeat st)
                   (flag (fun pi => set_VPIP pi true))
          end
      | ActionCall =>
          if isSB || negb isBB
          then mkPassState (level st) (firstRaiserSeat st)
                 (flag (fun pi => set_VPIP pi true))
          else if isBB && (amount act >? 0)
          then mkPassState (level st) (firstRaiserSeat st)
                 (flag (fun pi => set_VPIP pi true))
          else st
      | ActionCheck => st
      | ActionFold =>
          if (level st >=? 3) && (seatID act =? firstRaiserSeat st)
          then mkPassState (level st) (firstRaiserSeat st)
                 (flag (fun pi => set_FoldTo3Bet pi true))
          else st
      | ActionUnknown => st
      end
  end.

(** The earlier [calculatePreflopStats]. *)
Definition calculatePreflopStats (p : Parser) (h : Hand) : Hand :=
  if len (pfActions p) =? 0 then h
  else passHand (fold_left passStep (pfActions p) (mkPassState 1 (-1) h)).

End ParserFile.

(** ** Finalization *)

(** The loop [for _, pw := range p.pendingWinners]: the running
    [totalPot] and the hand. *)
Definition applyWinner (st : Z * Hand) (pw : pendingWin) : Z * Hand :=
  let '(totalPot, h) := st in
  let h := ensurePlayer (winSeatID pw) h in
  let h := updPlayer (winSeatID pw) (fun pi => set_Won pi true) h in
  let h := updPlayer (winSeatID pw)
             (fun pi => set_PotWon pi (add64 (PotWon pi) (winAmount pw))) h in
  let totalPot := add64 totalPot (winAmount pw) in
  let h := set_WinnerSeat h (winSeatID pw) in
  (totalPot, h).

(** The body of [finalizeCurrentHand] for a hand in progress, up to the
    decision whether the hand is kept.  The calls [p.assignPositions]
    and [p.calculatePreflopStats] are to [assignPositions] of
    [position.go] and to [calculatePreflopStats] of the pre-flop
    statistics file.  [inferBlindsFromPreflop] is not called here. *)
Definition finalizeHand (p : Parser) (h : Hand) : Parser * Hand :=
  let '(p, h) :=
    match pendingLocalCards p with
    | Some cards =>
        if ResLocalPlayerSeat (result p) >=? 0
        then assignLocalCards (ResLocalPlayerSeat (result p)) cards p h
        else (p, h)
    | None => (p, h)
    end in
  let '(totalPot, h) := fold_left applyWinner (pendingWinners p) (0, h) in
  let h := set_TotalPot h totalPot in
  let h :=
    if String.eqb (WinType h) EmptyString then
      if len (CommunityCards h) >=? 3 then set_WinType h "showdown"%string
      else set_WinType h "fold"%string
    else h in
  let h := set_NumPlayers h (len (ActiveSeats h)) in
  let h := assignPositions h in
  let h := calculatePreflopStats p h in
  let h := set_EndTime h (lastTimestamp p) in
  let h := set_IsComplete h
             ((len (pendingWinners p) >? 0) || (len (CommunityCards h) >? 0)) in
  (p, h).

(** [finalizeCurrentHand] *)
Definition finalizeCurrentHand (p : Parser) : Parser :=
  match currentHand p with
  | None => p
  | Some h =>
      let '(p, h) := finalizeHand p h in
      let localSeat := LocalPlayerSeat h in
      let p :=
        if localSeat >=? 0 then
          match Players h !! localSeat with
          | Some _ => set_result p (set_Hands (result p) (Hands (result p) ++ [h]))
          | None => p
          end
        else p in
      let p := set_currentHand p None in
      set_pendingLocalCards p None
  end.

(** ** Events *)

Definition raiseStreetBet (amount : Z) (p : Parser) : Parser :=
  if streetBetAmount p <? amount then set_streetBetAmount p amount else p.

(** The handlers of [processPokerEvent] that run on a hand in progress;
    [h] is [p.currentHand]. *)
Definition handleEvent (ts : Z) (msg : Msg) (p : Parser) (h : Hand) : Parser :=
  match msg with
  | DrawLocalHole m1 =>
      match parseCards m1 with
      | (cards, ErrNil) =>
          let p := set_pendingLocalCards p (Some cards) in
          let localSeat := ResLocalPlayerSeat (result p) in
          if localSeat >=? 0 then
            let '(p, h) := assignLocalCards localSeat cards p h in
            set_currentHand p (Some h)
          else if lastBlindSeat p >=? 0 then
            let '(p, h) := assignLocalCards (lastBlindSeat p) cards p h in
            set_currentHand p (Some h)
          else p
      | (_, _) => p
      end
  | SBBet m1 m2 =>
      let seat := Atoi m1 in
      let amount := Atoi m2 in
      let h := set_SBSeat h seat in
      let h := ensurePlayer seat h in
      let h := appendAction seat
                 (mkPlayerAction ts seat StreetPreFlop ActionBlindSB amount) h in
      let p := set_currentHand p (Some h) in
      let p := set_streetBets p (<[seat := amount]> (streetBets p)) in
      let p := raiseStreetBet amount p in
      let p := set_pfActions p (pfActions p ++ [mkPfAction seat ActionBlindSB amount]) in
      set_lastBlindSeat p seat
  | BBBet m1 m2 =>
      let seat := Atoi m1 in
      let amount := Atoi m2 in
      let h := set_BBSeat h seat in
      let h := ensurePlayer seat h in
      let h := appendAction seat
                 (mkPlayerAction ts seat StreetPreFlop ActionBlindBB amount) h in
      let p := set_currentHand p (Some h) in
      let p := set_streetBets p (<[seat := amount]> (streetBets p)) in
      let p := raiseStreetBet amount p in
      let p := set_pfActions p (pfActions p ++ [mkPfAction seat ActionBlindBB amount]) in
      set_lastBlindSeat p seat
  | NewCommunity m1 =>
      match parseCard (TrimSpace m1) with
      | (card, ErrNil) =>
          let h := set_CommunityCards h (CommunityCards h ++ [card]) in
          let p := set_currentHand p (Some h) in
          match len (CommunityCards h) with
          | 1 | 2 | 3 =>
              if Street_index (currentStreet p) <? Street_index StreetFlop
              then set_currentStreet p StreetFlop else p
          | 4 => set_currentStreet p StreetTurn
          | 5 => set_currentStreet p StreetRiver
          | _ => p
          end
      | (_, _) => p
      end
  | NextPhase | CollectingBets =>
      let p := set_streetBets p ∅ in
      set_streetBetAmount p 0
  | PlayerFolded m1 =>
      let seat := Atoi m1 in
      let p := set_foldedThisHand p ({[seat]} ∪ foldedThisHand p) in
      let h := ensurePlayer seat h in
      let h := appendAction seat
                 (mkPlayerAction ts seat (currentStreet p) ActionFold 0) h in
      if decide (currentStreet p = StreetPreFlop) then
        let h := updPlayer seat (fun pi => set_FoldedPF pi true) h in
        let p := set_currentHand p (Some h) in
        set_pfActions p (pfActions p ++ [mkPfAction seat ActionFold 0])
      else set_currentHand p (Some h)
  | PlayerEndTurn m1 m2 =>
      let seat := Atoi m1 in
      let amount := Atoi m2 in
      if decide (seat ∈ foldedThisHand p) then p
      else
        let h := ensurePlayer seat h in
        let action := classifyAction p seat amount in
        let h := appendAction seat
                   (mkPlayerAction ts seat (currentStreet p) action amount) h in
        let p := set_currentHand p (Some h) in
        let p := if amount >? streetBetAmount p
                 then set_streetBetAmount p amount else p in
        let p := set_streetBets p (<[seat := amount]> (streetBets p)) in
        if decide (currentStreet p = StreetPreFlop)
        then set_pfActions p (pfActions p ++ [mkPfAction seat action amount])
        else p
  | ShowHoleCards m1 m2 =>
      let seat := Atoi m1 in
      match parseCards m2 with
      | (cards, ErrNil) =>
          let h := ensurePlayer seat h in
          let h := updPlayer seat (fun pi => set_ShowedDown pi true) h in
          let p := set_currentStreet p StreetShowdown in
          match pendingLocalCards p with
          | Some pending =>
              if cardsMatch pending cards then
                let p :=
                  if ResLocalPlayerSeat (result p) <? 0
                  then set_result p (set_ResLocalPlayerSeat (result p) seat)
                  else p in
                let '(p, h) := assignLocalCards seat cards p h in
                set_currentHand p (Some h)
              else
                let h := updPlayer seat
                           (fun pi => if (len (HoleCards pi) =? 0)
                                      then set_HoleCards pi cards else pi) h in
                set_currentHand p (Some h)
          | None =>
              let h := updPlayer seat
                         (fun pi => if (len (HoleCards pi) =? 0)
                                    then set_HoleCards pi cards else pi) h in
              set_currentHand p (Some h)
          end
      | (_, _) => p
      end
  | FoldToOne => set_currentStreet p StreetShowdown
  | PotWinner m1 m2 =>
      let seat := Atoi m1 in
      let amount := Atoi m2 in
      let p := set_pendingWinners p (pendingWinners p ++ [mkPendingWin seat amount]) in
      if String.eqb (WinType h) EmptyString
      then set_currentHand p (Some (set_WinType h "showdown"%string))
      else p
  | PotManager m1 m2 =>
      let seat := Atoi m1 in
      let amount := Atoi m2 in
      let p := set_pendingWinners p (pendingWinners p ++ [mkPendingWin seat amount]) in
      set_currentHand p (Some (set_WinType h "fold"%string))
  | _ => p
  end.

(** [processPokerEvent] *)
Definition processPokerEvent (ts : Z) (msg : Msg) (p : Parser) : Parser :=
  match msg with
  | NewGame => startNewHand ts (finalizeCurrentHand p)
  | _ =>
      match currentHand p with
      | None => p
      | Some h => handleEvent ts msg p h
      end
  end.

(** [ParseLine]; [world] is the constant [VRPokerWorldID], whose
    declaration is not among the sources. *)
Definition ParseLine (world : string) (p : Parser) (line : Line) : Parser :=
  match line with
  | NoStamp => p
  | Stamped ts msg =>
      let p := set_lastTimestamp p ts in
      match msg with
      | WorldJoining worldID =>
          let p := set_inPokerWorld p (String.eqb worldID world) in
          set_result p (set_InPokerWorld (result p) (inPokerWorld p))
      | WorldLeaving =>
          let p := if inPokerWorld p then finalizeCurrentHand p else p in
          let p := set_inPokerWorld p false in
          set_result p (set_InPokerWorld (result p) false)
      | _ => processPokerEvent ts msg p
      end
  end.

(** The scanner loop of [ParseReader]. *)
Definition parseLines (world : string) (p : Parser) (lines : list Line) : Parser :=
  fold_left (ParseLine world) lines p.

(** [ParseReader], on the lines the scanner yields. *)
Definition ParseReader (world : string) (lines : list Line) : ParseResult :=
  result (finalizeCurrentHand (parseLines world NewParser lines)).

(** [GetHands], [GetLocalSeat] *)
Definition GetHands (p : Parser) : list Hand := Hands (result p).
Definition GetLocalSeat (p : Parser) : Z := ResLocalPlayerSeat (result p).

(** [isAggressivePreflop] of the opportunity analyzer. *)
Definition isAggressivePreflop (a : ActionType) : bool :=
  bool_decide (a = ActionBet) || bool_decide (a = ActionRaise)
  || bool_decide (a = ActionAllIn).

(** ** The opportunity analyzer and the calculator ([internal/stats])

    The functions of [opportunities.go] that depend on the parser's
    types only, and [investedAmount] and [bbAmountFromHand] of
    [calculator.go].  A pointer argument is represented by the record
    it points to, so the guards on nil pointers are not taken.  The
    counters of the loops grow by one per element of the sequence at
    most and are kept exact.  [isAggressivePreflop] is defined above. *)
Module Stats.

(** [seqAction] *)
Record seqAction := mkSeqAction { seat : Z; act : PlayerAction }.

(** The loop [for _, a := range p.Actions] of [preflopActionSequence],
    appending to [out]. *)
Fixpoint collectActions (s : Z) (acts : list PlayerAction)
  (out : list seqAction) : list seqAction :=
  match acts with
  | [] => out
  | a :: rest =>
      if negb (bool_decide (OnStreet a = StreetPreFlop))
      then collectActions s rest out
      else if bool_decide (Action a = ActionBlindSB)
              || bool_decide (Action a = ActionBlindBB)
      then collectActions s rest out
      else collectActions s rest (out ++ [mkSeqAction s a])
  end.

(** The loop [for seat, p := range h.Players].  Go visits the entries
    of a map in an unspecified order; [order] is the order of one
    visit. *)
Fixpoint collectPlayers (order : list (Z * PlayerHandInfo))
  (out : list seqAction) : list seqAction :=
  match order with
  | [] => out
  | (s, p) :: rest => collectPlayers rest (collectActions s (Actions p) out)
  end.

(** The comparison of the sort: [out[j]] is earlier than [out[j-1]], or
    as early and of a lower seat. *)
Definition seqLess (x y : seqAction) : bool :=
  (Timestamp (act x) <? Timestamp (act y))
  || ((Timestamp (act x) =? Timestamp (act y)) && (seat x <? seat y)).

(** The inner loop of the insertion sort: [x] is [out[i]] and [revPre]
    is [out[:i]] from right to left; [x] is swapped with its left
    neighbour as long as it is less. *)
Fixpoint sinkLeft (x : seqAction) (revPre : list seqAction) : list seqAction :=
  match revPre with
  | [] => [x]
  | y :: t => if seqLess x y then y :: sinkLeft x t else x :: y :: t
  end.

Definition sortSeq (out : list seqAction) : list seqAction :=
  rev (fold_left (fun revPre x => sinkLeft x revPre) out []).

(** [preflopActionSequence] when the map is visited in [order]. *)
Definition preflopActionSequenceIn (order : list (Z * PlayerHandInfo))
  : list seqAction :=
  sortSeq (collectPlayers order []).

(** [preflopActionSequence], the map being visited in the order of
    [map_to_list]. *)
Definition preflopActionSequence (h : Hand) : list seqAction :=
  preflopActionSequenceIn (map_to_list (Players h)).

(** [hasRFIOpportunityApprox] *)
Fixpoint rfiLoop (seatID : Z) (seq : list seqAction) : bool :=
  match seq with
  | [] => false
  | sa :: rest =>
      if seat sa =? seatID then true
      else if bool_decide (Action (act sa) = ActionCall)
              || isAggressivePreflop (Action (act sa))
      then false
      else rfiLoop seatID rest
  end.

Definition hasRFIOpportunityApprox (pi : PlayerHandInfo) (h : Hand) : bool :=
  rfiLoop (SeatID pi) (preflopActionSequence h).

(** [didRFIApprox] *)
Fixpoint didRFILoop (acts : list PlayerAction) : bool :=
  match acts with
  | [] => false
  | a :: rest =>
      if negb (bool_decide (OnStreet a = StreetPreFlop)) then didRFILoop rest
      else if isAggressivePreflop (Action a) then true
      else if bool_decide (Action a = ActionCall)
              || bool_decide (Action a = ActionFold)
              || bool_decide (Action a = ActionCheck)
      then false
      else didRFILoop rest
  end.

Definition didRFIApprox (pi : PlayerHandInfo) (h : Hand) : bool :=
  if negb (hasRFIOpportunityApprox pi h) then false
  else didRFILoop (Actions pi).

(** [hasFoldToThreeBetOpportunityApprox]; the loop over the other
    players, the map being visited in [order]. *)
Fixpoint otherThreeBet (seatID : Z) (order : list (Z * PlayerHandInfo)) : bool :=
  match order with
  | [] => false
  | (s, p) :: rest =>
      if s =? seatID then otherThreeBet seatID rest
      else if ThreeBet p then true
      else otherThreeBet seatID rest
  end.

Definition hasFoldToThreeBetOpportunityApprox (pi : PlayerHandInfo) (h : Hand)
  : bool :=
  if FoldTo3Bet pi then true
  else if negb (PFR pi) then false
  else otherThreeBet (SeatID pi) (map_to_list (Players h)).

(** [hasFourBetOpportunityApprox] *)
Definition hasFourBetOpportunityApprox (pi : PlayerHandInfo) (h : Hand) : bool :=
  hasFoldToThreeBetOpportunityApprox pi h.

(** [firstPreflopAggressionLevel] *)
Fixpoint aggressionLoop (seatID : Z) (seq : list seqAction) (level : Z)
  : Z * bool :=
  match seq with
  | [] => (0, false)
  | sa :: rest =>
      if negb (isAggressivePreflop (Action (act sa)))
      then aggressionLoop seatID rest level
      else if seat sa =? seatID then (level + 1, true)
      else aggressionLoop seatID rest (level + 1)
  end.

Definition firstPreflopAggressionLevel (h : Hand) (seatID : Z) : Z * bool :=
  aggressionLoop seatID (preflopActionSequence h) 0.

(** [didFourBetApprox] *)
Definition didFourBetApprox (pi : PlayerHandInfo) (h : Hand) : bool :=
  if negb (hasFourBetOpportunityApprox pi h) then false
  else
    let '(level, ok) := firstPreflopAggressionLevel h (SeatID pi) in
    ok && (level >=? 3).

(** [hasSqueezeOpportunityApprox] *)
Fixpoint squeezeLoop (seatID : Z) (seq : list seqAction)
  (openSeen : bool) (openCalls raiseCount : Z) : bool :=
  match seq with
  | [] => false
  | sa :: rest =>
      if seat sa =? seatID
      then openSeen && (openCalls >? 0) && (raiseCount =? 1)
      else if isAggressivePreflop (Action (act sa)) then
        let raiseCount := raiseCount + 1 in
        if raiseCount =? 1 then squeezeLoop seatID rest true openCalls raiseCount
        else false
      else if openSeen && bool_decide (Action (act sa) = ActionCall)
      then squeezeLoop seatID rest openSeen (openCalls + 1) raiseCount
      else squeezeLoop seatID rest openSeen openCalls raiseCount
  end.

Definition hasSqueezeOpportunityApprox (pi : PlayerHandInfo) (h : Hand) : bool :=
  squeezeLoop (SeatID pi) (preflopActionSequence h) false 0 0.

(** [didSqueezeApprox] *)
Fixpoint didSqueezeLoop (acts : list PlayerAction) : bool :=
  match acts with
  | [] => false
  | a :: rest =>
      if negb (bool_decide (OnStreet a = StreetPreFlop)) then didSqueezeLoop rest
      else if bool_decide (Action a = ActionBlindSB)
              || bool_decide (Action a = ActionBlindBB)
      then didSqueezeLoop rest
      else isAggressivePreflop (Action a)
  end.

Definition didSqueezeApprox (pi : PlayerHandInfo) (h : Hand) : bool :=
  if negb (hasSqueezeOpportunityApprox pi h) then false
  else didSqueezeLoop (Actions pi).

(** [isStealOpportunity] *)
Definition isStealOpportunity (pi : PlayerHandInfo) (h : Hand) : bool :=
  if negb (bool_decide (PPosition pi = PosCO))
     && negb (bool_decide (PPosition pi = PosBTN))
     && negb (bool_decide (PPosition pi = PosSB))
  then false
  else hasRFIOpportunityApprox pi h.

(** [isStealAttempt] *)
Fixpoint isStealAttemptLoop (acts : list PlayerAction) : bool :=
  match acts with
  | [] => false
  | a :: rest =>
      if negb (bool_decide (OnStreet a = StreetPreFlop)) then isStealAttemptLoop rest
      else if bool_decide (Action a = ActionBet)
              || bool_decide (Action a = ActionRaise)
              || bool_decide (Action a = ActionAllIn)
      then true
      else if bool_decide (Action a = ActionCall)
              || bool_decide (Action a = ActionFold)
              || bool_decide (Action a = ActionCheck)
      then false
      else isStealAttemptLoop rest
  end.

Definition isStealAttempt (pi : PlayerHandInfo) : bool :=
  isStealAttemptLoop (Actions pi).

(** [detectStealOpenSeat]; a seat without a record yields a nil
    pointer. *)
Fixpoint stealOpenLoop (h : Hand) (seq : list seqAction) : Z * bool :=
  match seq with
  | [] => (-1, false)
  | sa :: rest =>
      if bool_decide (Action (act sa) = ActionCall) then (-1, false)
      else if isAggressivePreflop (Action (act sa)) then
        match Players h !! seat sa with
        | None => (-1, false)
        | Some pi =>
            if bool_decide (PPosition pi = PosCO)
               || bool_decide (PPosition pi = PosBTN)
               || bool_decide (PPosition pi = PosSB)
            then (seat sa, true)
            else (-1, false)
        end
      else stealOpenLoop h rest
  end.

Definition detectStealOpenSeat (h : Hand) : Z * bool :=
  stealOpenLoop h (preflopActionSequence h).

(** [isFoldToStealOpportunityByPosition] *)
Fixpoint afterOpenLoop (openSeat seatID : Z) (seq : list seqAction)
  (seenOpen : bool) : bool :=
  match seq with
  | [] => false
  | sa :: rest =>
      if (seat sa =? openSeat) && isAggressivePreflop (Action (act sa))
      then afterOpenLoop openSeat seatID rest true
      else if negb seenOpen then afterOpenLoop openSeat seatID rest seenOpen
      else if seat sa =? seatID then true
      else afterOpenLoop openSeat seatID rest seenOpen
  end.

Definition isFoldToStealOpportunityByPosition (pi : PlayerHandInfo) (h : Hand)
  (pos : Position) : bool :=
  if negb (bool_decide (PPosition pi = pos)) then false
  else
    let '(openSeat, ok) := detectStealOpenSeat h in
    if negb ok || (openSeat =? SeatID pi) then false
    else afterOpenLoop openSeat (SeatID pi) (preflopActionSequence h) false.

(** [isFoldToStealOpportunity] *)
Definition isFoldToStealOpportunity (pi : PlayerHandInfo) (h : Hand) : bool :=
  if negb (bool_decide (PPosition pi = PosSB))
     && negb (bool_decide (PPosition pi = PosBB))
  then false
  else isFoldToStealOpportunityByPosition pi h (PPosition pi).

(** [isThreeBetVsStealOpportunity] *)
Fixpoint threeBetOppLoop (openSeat seatID : Z) (seq : list seqAction)
  (seenOpen : bool) : bool :=
  match seq with
  | [] => false
  | sa :: rest =>
      if (seat sa =? openSeat) && isAggressivePreflop (Action (act sa))
      then threeBetOppLoop openSeat seatID rest true
      else if negb seenOpen then threeBetOppLoop openSeat seatID rest seenOpen
      else if seat sa =? seatID then true
      else if isAggressivePreflop (Action (act sa)) then false
      else threeBetOppLoop openSeat seatID rest seenOpen
  end.

Definition isThreeBetVsStealOpportunity (pi : PlayerHandInfo) (h : Hand) : bool :=
  if negb (bool_decide (PPosition pi = PosSB))
     && negb (bool_decide (PPosition pi = PosBB))
  then false
  else
    let '(openSeat, ok) := detectStealOpenSeat h in
    if negb ok || (openSeat =? SeatID pi) then false
    else threeBetOppLoop openSeat (SeatID pi) (preflopActionSequence h) false.

(** [didThreeBetVsSteal] *)
Fixpoint didThreeBetLoop (openSeat seatID : Z) (seq : list seqAction)
  (seenOpen : bool) : bool :=
  match seq with
  | [] => false
  | sa :: rest =>
      if (seat sa =? openSeat) && isAggressivePreflop (Action (act sa))
      then didThreeBetLoop openSeat seatID rest true
      else if negb seenOpen then didThreeBetLoop openSeat seatID rest seenOpen
      else if seat sa =? seatID then isAggressivePreflop (Action (act sa))
      else if isAggressivePreflop (Action (act sa)) then false
      else didThreeBetLoop openSeat seatID rest seenOpen
  end.

Definition didThreeBetVsSteal (pi : PlayerHandInfo) (h : Hand) : bool :=
  if negb (isThreeBetVsStealOpportunity pi h) then false
  else
    let seq := preflopActionSequence h in
    let '(openSeat, ok) := detectStealOpenSeat h in
    if negb ok then false
    else didThreeBetLoop openSeat (SeatID pi) seq false.

(** [investedAmount]: the sum, formed one [+=] at a time, of the
    amounts on the record of [seat]. *)
Definition investedAmount (h : Hand) (seatID : Z) : Z :=
  match Players h !! seatID with
  | None => 0
  | Some pi => fold_left (fun total a => add64 total (Amount a)) (Actions pi) 0
  end.

(** [bbAmountFromHand] *)
Fixpoint firstPositiveBB (acts : list PlayerAction) : Z :=
  match acts with
  | [] => 0
  | a :: rest =>
      if bool_decide (Action a = ActionBlindBB) && (Amount a >? 0) then Amount a
      else firstPositiveBB rest
  end.

Definition bbAmountFromHand (h : Hand) : Z :=
  if BBSeat h <? 0 then 0
  else
    match Players h !! BBSeat h with
    | None => 0
    | Some bb => firstPositiveBB (Actions bb)
    end.

End Stats.

(** * Definitions for the statements *)

(** ** Card tokens *)

(** A token is valid when, trimmed, it has at least two bytes, its last
    byte is a suit and what precedes it is a rank. *)
Definition tokenValid (s : string) : bool :=
  let t := TrimSpace s in
  (2 <=? String.length t)%nat
  && match lastByte t with
     | Some b => validSuits (stringOfByte b) && validRanks (dropLast t)
     | None => false
     end.

Definition tokenCard (s : string) : Card :=
  let t := TrimSpace s in
  match lastByte t with
  | Some b => mkCard (dropLast t) (stringOfByte b)
  | None => emptyCard
  end.

(** ** The call rule of the pre-flop pass *)

Definition vpipOf (h : Hand) (seat : Z) : bool :=
  default false (VPIP <$> Players h !! seat).

(** The two exclusions of the call rule, for an action of the buffer
    met at bet level [betLevel st]. *)
Definition sbCompletes (st : pfState) (act : pfAction) : Prop :=
  action act = ActionCall /\ seatID act = SBSeat (pfHand st)
  /\ amount act <= bbAmount (pfHand st) /\ betLevel st <= 2.

Definition bbCloses (st : pfState) (act : pfAction) : Prop :=
  (action act = ActionCall \/ action act = ActionCheck)
  /\ seatID act = BBSeat (pfHand st) /\ betLevel st <= 2.

(** Scenario S6: SB=2 posts 10, BB=3 posts 20, the local cards are
    drawn, and seat 2 ends its turn with 20. *)
Definition scenarioS6 : list Line :=
  [ Stamped 1 NewGame; Stamped 2 (SBBet 2 10); Stamped 3 (BBBet 3 20);
    Stamped 4 (DrawLocalHole "Ah, Kd"); Stamped 5 (PlayerEndTurn 2 20) ].

(** A state of the pass at level 2 with SB=2, BB=3 and no big-blind
    action on record. *)
Definition witnessState : pfState :=
  mkPfState 2 ∅
    (set_Players
       (mkHand 1 0 0 3 2 3 (-1) EmptyString 0 [] [2; 3] ∅ 0 false)
       (<[2 := newPlayer 2]> (<[3 := newPlayer 3]> ∅))).

(** ** Streams for local-seat identification and fold-to-3-bet *)

Definition card7d : Card := mkCard "7" "d".
Definition card9c : Card := mkCard "9" "c".

(** Local cards 7d, 9c drawn before any blind is posted, then seat 8
    shows the same two cards in the other order. *)
Definition revealSwapped : list Line :=
  [ Stamped 1 NewGame; Stamped 2 (DrawLocalHole "7d, 9c");
    Stamped 3 (ShowHoleCards 8 "9c, 7d") ].

(** Scenario S4: the local cards are drawn after SB=2 is posted, then
    seat 8 shows them. *)
Definition scenarioS4 : list Line :=
  [ Stamped 1 NewGame; Stamped 2 (SBBet 2 10);
    Stamped 3 (DrawLocalHole "7d, 9c"); Stamped 4 (ShowHoleCards 8 "7d, 9c") ].

Definition holeCardsOf (h : Hand) (seat : Z) : list Card :=
  default [] (HoleCards <$> Players h !! seat).

(** Scenario S2: SB=2 posts 10, BB=3 posts 20, seat 4 raises to 60,
    seat 5 re-raises to 180, seat 4 folds. *)
Definition scenarioS2 : list Line :=
  [ Stamped 1 NewGame; Stamped 2 (SBBet 2 10); Stamped 3 (BBBet 3 20);
    Stamped 4 (DrawLocalHole "Ah, Kd"); Stamped 5 (PlayerEndTurn 4 60);
    Stamped 6 (PlayerEndTurn 5 180); Stamped 7 (PlayerFolded 4) ].

(** No blind lines: seat 4 opens to 60, seat 5 re-raises to 180, seat 4
    raises again to 500, seat 5 folds; seat 5 shows the local cards so
    that the hand is kept. *)
Definition foldToFourBet : list Line :=
  [ Stamped 1 NewGame; Stamped 2 (DrawLocalHole "Ah, Kd");
    Stamped 3 (PlayerEndTurn 4 60); Stamped 4 (PlayerEndTurn 5 180);
    Stamped 5 (PlayerEndTurn 4 500); Stamped 6 (PlayerFolded 5);
    Stamped 7 (ShowHoleCards 5 "Ah, Kd") ].

Definition flagsOf (h : Hand) (seat : Z) : option (bool * bool * bool) :=
  (fun pi => (PFR pi, ThreeBet pi, FoldTo3Bet pi)) <$> Players h !! seat.

(** ** Invariants of the state machine *)

(** The kinds the handlers record. *)
Definition recordedKind (a : ActionType) : bool :=
  match a with
  | ActionUnknown | ActionAllIn => false
  | _ => true
  end.

Definition okPlayer (pi : PlayerHandInfo) : Prop :=
  Forall (fun a => recordedKind (Action a) = true) (Actions pi).

(** Nothing has been credited to the seat yet. *)
Definition unpaid (pi : PlayerHandInfo) : Prop :=
  Won pi = false /\ PotWon pi = 0.

Definition HandOK (Q : PlayerHandInfo -> Prop) (h : Hand) : Prop :=
  map_Forall (fun _ pi => Q pi) (Players h).

(** What holds of a hand once it is finalized. *)
Definition FinalOK (h : Hand) : Prop :=
  HandOK okPlayer h
  /\ (WinType h = "showdown"%string ->
      0 <= WinnerSeat h \/ 3 <= len (CommunityCards h))
  /\ (WinnerSeat h < 0 ->
      (WinType h = "showdown"%string <-> 3 <= len (CommunityCards h))).

(** What holds of the buffers and of a hand in progress. *)
Definition CurrentOK (p : Parser) (h : Hand) : Prop :=
  HandOK (fun pi => okPlayer pi /\ unpaid pi) h
  /\ WinnerSeat h = -1
  /\ (WinType h = EmptyString <-> pendingWinners p = []).

Definition Inv (p : Parser) : Prop :=
  Forall FinalOK (Hands (result p))
  /\ Forall (fun a => recordedKind (action a) = true) (pfActions p)
  /\ Forall (fun pw => 0 <= winSeatID pw) (pendingWinners p)
  /\ match currentHand p with
     | Some h => CurrentOK p h
     | None => True
     end.

(** ** Updates that change flags and positions only *)

Definition coreEq (pi pi' : PlayerHandInfo) : Prop :=
  SeatID pi = SeatID pi' /\ Actions pi = Actions pi'
  /\ HoleCards pi = HoleCards pi' /\ FoldedPF pi = FoldedPF pi'
  /\ ShowedDown pi = ShowedDown pi' /\ Won pi = Won pi'
  /\ PotWon pi = PotWon pi'.

(** [h'] is [h] up to the position and the four pre-flop flags of its
    players. *)
Definition sameCore (h h' : Hand) : Prop :=
  exists m, h' = set_Players h m
            /\ forall s, option_Forall2 coreEq (Players h !! s) (m !! s).

(** ** Finalization, step by step *)

(** The attribution of still-pending local cards that opens
    [finalizeCurrentHand]. *)
Definition preAssign (p : Parser) (h : Hand) : Parser * Hand :=
  match pendingLocalCards p with
  | Some cards =>
      if ResLocalPlayerSeat (result p) >=? 0
      then assignLocalCards (ResLocalPlayerSeat (result p)) cards p h
      else (p, h)
  | None => (p, h)
  end.

(** The win-type inference of [finalizeCurrentHand]. *)
Definition inferWinType (h : Hand) : Hand :=
  if String.eqb (WinType h) EmptyString then
    if len (CommunityCards h) >=? 3 then set_WinType h "showdown"%string
    else set_WinType h "fold"%string
  else h.

(** What follows the winners loop, given its [totalPot] and hand. *)
Definition afterWinners (p : Parser) (totalPot : Z) (h : Hand) : Hand :=
  let h := inferWinType (set_TotalPot h totalPot) in
  let h := set_NumPlayers h (len (ActiveSeats h)) in
  let h := calculatePreflopStats p (assignPositions h) in
  let h := set_EndTime h (lastTimestamp p) in
  set_IsComplete h
    ((len (pendingWinners p) >? 0) || (len (CommunityCards h) >? 0)).

Definition potOf (h : Hand) (seat : Z) : Z :=
  default 0 (PotWon <$> Players h !! seat).

Definition wonOf (h : Hand) (seat : Z) : bool :=
  default false (Won <$> Players h !! seat).

(** The amounts of the pending winners that name [seat], in order. *)
Definition amountsFor (seat : Z) (pws : list pendingWin) : list Z :=
  map winAmount (filter (fun pw => winSeatID pw = seat) pws).

(** A sum formed the way the loops form it, one [+=] at a time. *)
Definition sum64 (l : list Z) : Z := fold_left add64 l 0.

Definition zsum (l : list Z) : Z := foldr Z.add 0 l.

(** ** Recorded action kinds *)

(** The kinds a parser-produced hand can hold. *)
Definition noAllIn (h : Hand) : Prop :=
  forall seat pi a,
    Players h !! seat = Some pi -> a ∈ Actions pi ->
    Action a <> ActionAllIn
    /\ isAggressivePreflop (Action a)
       = bool_decide (Action a = ActionBet \/ Action a = ActionRaise).

(** ** Streams for win type and winner resolution *)

(** A showdown winner is declared with no community card dealt. *)
Definition showdownNoBoard : list Line :=
  [ Stamped 1 NewGame; Stamped 2 (SBBet 2 10);
    Stamped 3 (DrawLocalHole "Ah, Kd"); Stamped 4 (PotWinner 2 30) ].

(** Six community cards are dealt and no winner is declared. *)
Definition sixCardBoard : list Line :=
  [ Stamped 1 NewGame; Stamped 2 (SBBet 2 10);
    Stamped 3 (DrawLocalHole "Ah, Kd");
    Stamped 4 (NewCommunity "2h"); Stamped 5 (NewCommunity "3h");
    Stamped 6 (NewCommunity "4h"); Stamped 7 (NewCommunity "5h");
    Stamped 8 (NewCommunity "6h"); Stamped 9 (NewCommunity "7h") ].

(** A split pot: seats 2 and 3 are declared showdown winners, seat 2
    twice. *)
Definition splitPot : list Line :=
  [ Stamped 1 NewGame; Stamped 2 (SBBet 2 10);
    Stamped 3 (DrawLocalHole "Ah, Kd"); Stamped 4 (PotWinner 2 30);
    Stamped 5 (PotWinner 3 30); Stamped 6 (PotWinner 2 5) ].

(** ** Cyclic order of the active seats *)



(** The kinds the first-actor search stops at. *)
Definition isVoluntary (a : ActionType) : bool :=
  match a with
  | ActionFold | ActionCheck | ActionCall | ActionBet | ActionRaise
  | ActionAllIn => true
  | _ => false
  end.


(** Scenario S5: no blind lines; seat 3 bets 40, seats 4 and 2 fold. *)
Definition scenarioS5 : list Line :=
  [ Stamped 1 NewGame; Stamped 2 (DrawLocalHole "Ah, Kd");
    Stamped 3 (PlayerEndTurn 3 40); Stamped 4 (PlayerFolded 4);
    Stamped 5 (PlayerFolded 2) ].

(** ** Seats of a hand in progress *)

(** What blind inference relies on: the active seats are pairwise
    distinct and hold every seat with a player record, every buffered
    pre-flop action is by an active seat, a recorded blind seat is
    active, and while no blind is recorded the buffer holds voluntary
    actions only. *)
Definition SeatsOK (p : Parser) (h : Hand) : Prop :=
  NoDup (ActiveSeats h)
  /\ (forall s, is_Some (Players h !! s) -> s ∈ ActiveSeats h)
  /\ Forall (fun a => 0 <= seatID a /\ seatID a ∈ ActiveSeats h) (pfActions p)
  /\ (SBSeat h = -1 \/ (0 <= SBSeat h /\ SBSeat h ∈ ActiveSeats h))
  /\ (BBSeat h = -1 \/ (0 <= BBSeat h /\ BBSeat h ∈ ActiveSeats h))
  /\ (SBSeat h < 0 -> BBSeat h < 0 ->
      Forall (fun a => isVoluntary (action a) = true) (pfActions p)).

Definition seatsWF (h : Hand) : Prop :=
  NoDup (ActiveSeats h)
  /\ forall s, is_Some (Players h !! s) -> s ∈ ActiveSeats h.

Definition SeatsInv (p : Parser) : Prop :=
  match currentHand p with
  | Some h => SeatsOK p h
  | None => True
  end.

(** ** The earlier pass *)

Definition pfrOf (h : Hand) (seat : Z) : bool :=
  default false (PFR <$> Players h !! seat).

(** Every fold-to-3-bet mark sits on a seat with PFR, and from level 2
    on the first raiser has PFR. *)
Definition openerOK (st : ParserFile.passState) : Prop :=
  (2 <= ParserFile.level st ->
   pfrOf (ParserFile.passHand st) (ParserFile.firstRaiserSeat st) = true)
  /\ (forall s pi, Players (ParserFile.passHand st) !! s = Some pi ->
                   FoldTo3Bet pi = true -> PFR pi = true)
  /\ 1 <= ParserFile.level st.

(** ** Player records of a hand *)

(** A predicate that holds of every seat and its record. *)
Definition PlayersOK (Q : Z -> PlayerHandInfo -> Prop) (h : Hand) : Prop :=
  map_Forall Q (Players h).

(** An action on record for seat [s]: it names the seat and carries an
    amount read from the log. *)
Definition actionOK (s : Z) (a : PlayerAction) : Prop :=
  PlayerID a = s /\ 0 <= Amount a <= maxInt.

Definition foldOnPreflop (a : PlayerAction) : Prop :=
  Action a = ActionFold /\ OnStreet a = StreetPreFlop.

Definition isFold (a : PlayerAction) : Prop := Action a = ActionFold.

(** Folds and blinds. *)
Definition isPassive (a : PlayerAction) : Prop :=
  Action a = ActionFold \/ Action a = ActionBlindSB \/ Action a = ActionBlindBB.

(** Once a fold is on record, only folds and blinds follow it. *)
Definition quietAfterFold (l : list PlayerAction) : Prop :=
  forall l1 a l2, l = l1 ++ a :: l2 -> isFold a -> Forall isPassive l2.

Definition noFlags (pi : PlayerHandInfo) : Prop :=
  VPIP pi = false /\ PFR pi = false /\ ThreeBet pi = false
  /\ FoldTo3Bet pi = false.

(** The record of seat [s] in a hand in progress; [folded] is the set
    of seats that folded in this hand. *)
Definition seatRecord (folded : gset Z) (s : Z) (pi : PlayerHandInfo) : Prop :=
  0 <= s /\ SeatID pi = s
  /\ Forall (actionOK s) (Actions pi)
  /\ noFlags pi
  /\ (FoldedPF pi = true <-> Exists foldOnPreflop (Actions pi))
  /\ quietAfterFold (Actions pi)
  /\ (Exists isFold (Actions pi) -> s ∈ folded).

(** The buffered pre-flop action [a] is on record with its seat, on the
    pre-flop street. *)
Definition recordedIn (h : Hand) (a : pfAction) : Prop :=
  exists pi pa,
    Players h !! seatID a = Some pi /\ pa ∈ Actions pi
    /\ Action pa = action a /\ OnStreet pa = StreetPreFlop
    /\ Amount pa = amount a.

(** The records of a hand in progress, with the pre-flop buffer [acts]
    and the folded seats [folded]. *)
Definition RecordsOK (acts : list pfAction) (folded : gset Z) (h : Hand) : Prop :=
  PlayersOK (seatRecord folded) h
  /\ (forall s, s ∈ ActiveSeats h -> is_Some (Players h !! s))
  /\ Forall (recordedIn h) acts.

(** ** Induction over a run of the parser *)

(** What a run maintains, for a property [C] of the hand in progress
    and a property [F] of the hands handed over. *)
Definition ReachInv (C : Parser -> Hand -> Prop) (F : Hand -> Prop)
  (p : Parser) : Prop :=
  Inv p /\ SeatsInv p
  /\ Forall (fun H => F H /\ 0 <= LocalPlayerSeat H
                      /\ is_Some (Players H !! LocalPlayerSeat H))
       (Hands (result p))
  /\ (forall h, currentHand p = Some h -> C p h).

(** ** Record edits and the flags of the pre-flop pass *)

(** An update of one record that leaves its seat, its actions and its
    flags as they are. *)
Definition quietEdit (f : PlayerHandInfo -> PlayerHandInfo) : Prop :=
  forall pi,
    SeatID (f pi) = SeatID pi /\ Actions (f pi) = Actions pi
    /\ VPIP (f pi) = VPIP pi /\ PFR (f pi) = PFR pi
    /\ ThreeBet (f pi) = ThreeBet pi /\ FoldTo3Bet (f pi) = FoldTo3Bet pi
    /\ FoldedPF (f pi) = FoldedPF pi.

(** Buffered actions by seat [s]: a call, bet or raise; a bet or raise;
    a fold. *)
Definition paidBy (s : Z) (a : pfAction) : Prop :=
  seatID a = s
  /\ (action a = ActionCall \/ action a = ActionBet \/ action a = ActionRaise).

Definition raisedBy (s : Z) (a : pfAction) : Prop :=
  seatID a = s /\ (action a = ActionBet \/ action a = ActionRaise).

Definition foldedBy (s : Z) (a : pfAction) : Prop :=
  seatID a = s /\ action a = ActionFold.

(** Each flag of the record of seat [s] is backed by an action of the
    buffer [acts]. *)
Definition flagsFrom (acts : list pfAction) (s : Z) (pi : PlayerHandInfo) : Prop :=
  (PFR pi = true -> VPIP pi = true /\ Exists (raisedBy s) acts)
  /\ (ThreeBet pi = true -> VPIP pi = true /\ Exists (raisedBy s) acts)
  /\ (FoldTo3Bet pi = true ->
      VPIP pi = true /\ Exists (raisedBy s) acts /\ Exists (foldedBy s) acts)
  /\ (VPIP pi = true -> Exists (paidBy s) acts).

(** The loop invariant of the pass: the flags are backed by the buffer,
    and every seat noted as the raiser of a level has raised and is
    marked VPIP. *)
Definition passInv (acts : list pfAction) (st : pfState) : Prop :=
  PlayersOK (flagsFrom acts) (pfHand st)
  /\ forall l s, raiserAtLevel st !! l = Some s ->
                 vpipOf (pfHand st) s = true /\ Exists (raisedBy s) acts.

(** ** Records and winners of a finalized hand *)

(** Recorded pre-flop actions: a call, bet or raise; a bet or raise. *)
Definition paidAction (a : PlayerAction) : Prop :=
  OnStreet a = StreetPreFlop
  /\ (Action a = ActionCall \/ Action a = ActionBet \/ Action a = ActionRaise).

Definition raiseAction (a : PlayerAction) : Prop :=
  OnStreet a = StreetPreFlop /\ (Action a = ActionBet \/ Action a = ActionRaise).

(** The record of seat [s] in a finalized hand. *)
Definition finalRecord (s : Z) (pi : PlayerHandInfo) : Prop :=
  0 <= s /\ SeatID pi = s
  /\ Forall (actionOK s) (Actions pi)
  /\ (FoldedPF pi = true <-> Exists foldOnPreflop (Actions pi))
  /\ quietAfterFold (Actions pi)
  /\ (PFR pi = true -> VPIP pi = true /\ Exists raiseAction (Actions pi))
  /\ (ThreeBet pi = true -> VPIP pi = true /\ Exists raiseAction (Actions pi))
  /\ (FoldTo3Bet pi = true ->
      VPIP pi = true /\ FoldedPF pi = true /\ Exists raiseAction (Actions pi))
  /\ (VPIP pi = true -> Exists paidAction (Actions pi)).

Definition FinalRecords (H : Hand) : Prop :=
  PlayersOK finalRecord H
  /\ NoDup (ActiveSeats H)
  /\ (forall s, s ∈ ActiveSeats H <-> is_Some (Players H !! s))
  /\ NumPlayers H = len (ActiveSeats H)
  /\ (SBSeat H = -1 \/ is_Some (Players H !! SBSeat H))
  /\ (BBSeat H = -1 \/ is_Some (Players H !! BBSeat H)).

(** The win type of a hand in progress is unset or one of the two
    the handlers write. *)
Definition winTypeOK (h : Hand) : Prop :=
  WinType h = EmptyString \/ WinType h = "showdown"%string
  \/ WinType h = "fold"%string.

(** The winner fields of a finalized hand agree with each other. *)
Definition FinalWin (H : Hand) : Prop :=
  (WinType H = "showdown"%string \/ WinType H = "fold"%string)
  /\ (WinnerSeat H = -1 \/ 0 <= WinnerSeat H)
  /\ (IsComplete H = true <-> 0 <= WinnerSeat H \/ CommunityCards H <> [])
  /\ (WinnerSeat H = -1 ->
      TotalPot H = 0 /\ forall s, wonOf H s = false /\ potOf H s = 0)
  /\ (0 <= WinnerSeat H -> wonOf H (WinnerSeat H) = true)
  /\ (forall s, wonOf H s = false -> potOf H s = 0).

(** ** Hand identifiers *)

Definition isNewGame (line : Line) : bool :=
  match line with
  | Stamped _ NewGame => true
  | _ => false
  end.

(** The number of new-game lines. *)
Definition newGames (lines : list Line) : nat :=
  length (List.filter isNewGame lines).

(** The hands handed over, and the hand in progress if there is one. *)
Definition handsInFlight (p : Parser) : nat :=
  (length (Hands (result p)) + match currentHand p with Some _ => 1 | None => 0 end)%nat.

(** After [n] new-game lines: the counter is [n], the hands handed over
    carry increasing identifiers between 1 and [n], and the hand in
    progress carries [n], above all of them. *)
Definition IdInv (n : nat) (p : Parser) : Prop :=
  handIDCounter p = Z.of_nat n
  /\ StronglySorted Z.lt (map ID (Hands (result p)))
  /\ Forall (fun H => 1 <= ID H <= Z.of_nat n) (Hands (result p))
  /\ forall h, currentHand p = Some h ->
               ID h = Z.of_nat n /\ 1 <= Z.of_nat n
               /\ Forall (fun H => ID H < Z.of_nat n) (Hands (result p)).

(** ** Times *)

Definition stampOf (line : Line) : option Z :=
  match line with
  | Stamped ts _ => Some ts
  | NoStamp => None
  end.

(** The timestamps of the lines that carry one, in order. *)
Definition stamps (lines : list Line) : list Z := omap stampOf lines.

(** Every recorded action of the hand is stamped between [lo] and [hi]. *)
Definition within (lo hi : Z) (h : Hand) : Prop :=
  HandOK (fun pi => Forall (fun a => lo <= Timestamp a <= hi) (Actions pi)) h.

(** A finalized hand ends no earlier than it starts, and its actions
    fall in between. *)
Definition handTimes (H : Hand) : Prop :=
  StartTime H <= EndTime H /\ within (StartTime H) (EndTime H) H.

(** The times of a parser whose later lines are stamped [lo] or later. *)
Definition Chron (lo : Z) (p : Parser) : Prop :=
  Forall (fun H => handTimes H /\ EndTime H <= lo) (Hands (result p))
  /\ StronglySorted (fun H1 H2 => EndTime H1 <= StartTime H2) (Hands (result p))
  /\ forall h, currentHand p = Some h ->
               StartTime h <= lastTimestamp p /\ lastTimestamp p <= lo
               /\ within (StartTime h) (lastTimestamp p) h
               /\ Forall (fun H => EndTime H <= StartTime h) (Hands (result p)).

(** ** The pre-flop action sequence of the analyzer *)

(** The sort key: the timestamp, then the seat. *)
Definition seqKey (x : Stats.seqAction) : Z * Z :=
  (Timestamp (Stats.act x), Stats.seat x).

(** The actions [preflopActionSequence] keeps: pre-flop, not a blind. *)
Definition keptAction (a : PlayerAction) : Prop :=
  OnStreet a = StreetPreFlop
  /\ Action a <> ActionBlindSB /\ Action a <> ActionBlindBB.

#[global] Instance keptAction_dec a : Decision (keptAction a).
Proof. unfold keptAction. apply _. Defined.

(** No element is less than one before it. *)
Definition seqSorted (l : list Stats.seqAction) : Prop :=
  StronglySorted (fun x y => Stats.seqLess y x = false) l.

(** The actions kept from the record of one seat. *)
Definition seatBlock (sp : Z * PlayerHandInfo) : list Stats.seqAction :=
  map (Stats.mkSeqAction sp.1) (filter keptAction (Actions sp.2)).

(** ** Opportunities of the analyzer *)

(** The shape of the sequence when [detectStealOpenSeat] finds an
    opener: actions that are neither calls nor aggressive, then the
    first aggressive action. *)
Definition opensAt (seq : list Stats.seqAction) (sa : Stats.seqAction) : Prop :=
  exists pre post,
    seq = pre ++ sa :: post
    /\ Forall (fun x => Action (Stats.act x) <> ActionCall
                        /\ isAggressivePreflop (Action (Stats.act x)) = false) pre
    /\ Action (Stats.act sa) <> ActionCall
    /\ isAggressivePreflop (Action (Stats.act sa)) = true.

Definition inStealPosition (pi : PlayerHandInfo) : Prop :=
  PPosition pi = PosCO \/ PPosition pi = PosBTN \/ PPosition pi = PosSB.

(** [sa] is the first action of seat [s] in [seq], and no action before
    it is a call or aggressive. *)
Definition firstInAt (s : Z) (seq : list Stats.seqAction) : Prop :=
  exists pre sa post,
    seq = pre ++ sa :: post /\ Stats.seat sa = s
    /\ Forall (fun x => Stats.seat x <> s
                        /\ Action (Stats.act x) <> ActionCall
                        /\ isAggressivePreflop (Action (Stats.act x)) = false) pre.

(** The aggressive actions of [seq]. *)
Definition aggressiveOnes (seq : list Stats.seqAction) : list Stats.seqAction :=
  filter (fun x => isAggressivePreflop (Action (Stats.act x)) = true) seq.

(** ** Logs without local hole cards, and the world flag *)

Definition isDrawLocal (line : Line) : bool :=
  match line with
  | Stamped _ (DrawLocalHole _) => true
  | _ => false
  end.

(** No local cards are pending, no local seat is known, no hand has
    been handed over, and the hand in progress has no local seat. *)
Definition NoLocal (p : Parser) : Prop :=
  pendingLocalCards p = None
  /\ ResLocalPlayerSeat (result p) = -1
  /\ Hands (result p) = []
  /\ forall h, currentHand p = Some h -> LocalPlayerSeat h = -1.

(** What a world line sets the world flag to. *)
Definition worldLine (world : string) (line : Line) : option bool :=
  match line with
  | Stamped _ (WorldJoining worldID) => Some (String.eqb worldID world)
  | Stamped _ WorldLeaving => Some false
  | _ => None
  end.

(** The parser flag and the flag of the result are both [b]. *)
Definition WorldIs (b : bool) (p : Parser) : Prop :=
  inPokerWorld p = b /\ InPokerWorld (result p) = b.

(** ** Finalization, end to end *)

(** The decision of [finalizeCurrentHand] to keep the hand: the local
    seat is known and has a record. *)
Definition keepsHand (H : Hand) : bool :=
  if LocalPlayerSeat H >=? 0 then
    match Players H !! LocalPlayerSeat H with
    | Some _ => true
    | None => false
    end
  else false.

(** The seats of [H] whose record is marked as a winner. *)
Definition winnersOf (H : Hand) : list Z :=
  filter (fun s => wonOf H s = true) (ActiveSeats H).

(** The hand [finalizeCurrentHand] has built when it comes to the
    positions: pending local cards attributed, winners applied, win
    type and number of players set. *)
Definition beforePositions (p : Parser) (h : Hand) : Hand :=
  let ph := preAssign p h in
  let th := fold_left applyWinner (pendingWinners ph.1) (0, ph.2) in
  let h := inferWinType (set_TotalPot th.2 th.1) in
  set_NumPlayers h (len (ActiveSeats h)).

(** The hand [finalizeCurrentHand] passes to [calculatePreflopStats]. *)
Definition passInput (p : Parser) (h : Hand) : Hand :=
  assignPositions (beforePositions p h).

(** The state in which the pass, run on [h], meets the action of the
    buffer that follows [pre]. *)
Definition passAt (h : Hand) (pre : list pfAction) : pfState :=
  fold_left pfStep pre (mkPfState 1 ∅ h).

(** An action the pass counts as voluntary when it meets it in state
    [st]: a bet, a raise, or a call that neither exclusion covers. *)
Definition countsVPIP (st : pfState) (act : pfAction) : Prop :=
  action act = ActionBet \/ action act = ActionRaise
  \/ (action act = ActionCall /\ ~ sbCompletes st act /\ ~ bbCloses st act).

(** Scenario S6 with a raise first: SB=2 posts 10, BB=3 posts 20, seat
    4 raises to 60 and seat 2 ends its turn with 60. *)
Definition scenarioS6raise : list Line :=
  [ Stamped 1 NewGame; Stamped 2 (SBBet 2 10); Stamped 3 (BBBet 3 20);
    Stamped 4 (DrawLocalHole "Ah, Kd"); Stamped 5 (PlayerEndTurn 4 60);
    Stamped 6 (PlayerEndTurn 2 60) ].



(** * Properties *)

(** ** The card decoder *)

Lemma parseCard_spec (s : string) :
  parseCard s = (if tokenValid s then tokenCard s else emptyCard, ErrNil).
Proof.
  unfold parseCard, tokenValid, tokenCard.
  destruct (Nat.ltb_spec (String.length (TrimSpace s)) 2) as [Hlt | Hge].
  - replace (2 <=? String.length (TrimSpace s))%nat with false; [done |].
    symmetry. apply Nat.leb_gt. lia.
  - replace (2 <=? String.length (TrimSpace s))%nat with true
      by (symmetry; apply Nat.leb_le; lia).
    destruct (lastByte (TrimSpace s)) as [b |]; [| done].
    destruct (validSuits (stringOfByte b)), (validRanks (dropLast (TrimSpace s)));
      reflexivity.
Qed.

Lemma parseCard_no_error (s : string) : (parseCard s).2 = ErrNil.
Proof. by rewrite parseCard_spec. Qed.

Lemma parseCardsLoop_spec (parts : list string) (acc : list Card) :
  parseCardsLoop parts acc =
  (acc ++ map (fun part => (parseCard (TrimSpace part)).1) parts, ErrNil).
Proof.
  revert acc. induction parts as [| part rest IH]; intros acc; simpl.
  - by rewrite app_nil_r.
  - pose proof (parseCard_no_error (TrimSpace part)) as He.
    destruct (parseCard (TrimSpace part)) as [card err]. simpl in *. subst err.
    rewrite IH. by rewrite <- app_assoc.
Qed.

Lemma parseCards_spec (s : string) :
  parseCards s = (map (fun part => (parseCard (TrimSpace part)).1) (splitComma s), ErrNil).
Proof. unfold parseCards. by rewrite parseCardsLoop_spec. Qed.

Lemma splitComma_nonempty (s : string) : splitComma s <> [].
Proof.
  induction s as [| c t IH]; simpl; [done |].
  destruct (code c =? 44)%N; [done |].
  destruct (splitComma t); done.
Qed.

Lemma assignLocalCards_pending seat cards p h :
  pendingLocalCards (assignLocalCards seat cards p h).1 = None.
Proof. reflexivity. Qed.

(** C4 (as amended): decoding a comma-separated card list never yields a
    decoding failure.  Every comma-separated part contributes one card,
    the decoded card for a valid token and the empty card for an invalid
    one, and decoding a single invalid token yields the empty card with
    no failure; the callers therefore never drop a line on account of a
    bad token: a reveal line always moves the street to showdown, and a
    local-hole line always stores the decoded list as pending unless it
    is attributed to a seat at once. *)
Theorem C4_decoding_never_fails :
  (forall s,
      parseCards s =
      (map (fun part => let t := TrimSpace part in
                        if tokenValid t then tokenCard t else emptyCard)
           (splitComma s), ErrNil))
  /\ (forall tok,
      parseCard tok = (if tokenValid tok then tokenCard tok else emptyCard, ErrNil))
  /\ (forall ts n s p h,
      currentStreet (handleEvent ts (ShowHoleCards n s) p h) = StreetShowdown)
  /\ (forall ts s p h,
      pendingLocalCards (handleEvent ts (DrawLocalHole s) p h) =
      if (ResLocalPlayerSeat (result p) >=? 0) || (lastBlindSeat p >=? 0)
      then None else Some (parseCards s).1).
Proof.
  repeat split.
  - intros s. rewrite parseCards_spec. f_equal. apply map_ext. intros part.
    by rewrite parseCard_spec.
  - apply parseCard_spec.
  - intros ts n s p h. unfold handleEvent. rewrite parseCards_spec.
    cbv beta iota zeta.
    destruct (pendingLocalCards (set_currentStreet p StreetShowdown)) as [pend |];
      [destruct (cardsMatch pend _) |]; try reflexivity.
    destruct (ResLocalPlayerSeat _ <? 0); reflexivity.
  - intros ts s p h. unfold handleEvent. rewrite parseCards_spec.
    cbv beta iota zeta. simpl.
    destruct (ResLocalPlayerSeat (result p) >=? 0); [reflexivity |].
    destruct (lastBlindSeat p >=? 0); reflexivity.
Qed.

(** C4 (as stated) fails: the list 7d, Zz holds the invalid token Zz,
    yet decoding it yields two cards and no failure, and the local-hole
    line carrying it is not ignored: its cards become the pending local
    cards. *)
Lemma C4_counterexample :
  Exists (fun part => tokenValid part = false) (splitComma "7d, Zz")
  /\ parseCards "7d, Zz" = ([mkCard "7" "d"; emptyCard], ErrNil)
  /\ pendingLocalCards
       (processPokerEvent 2 (DrawLocalHole "7d, Zz")
          (processPokerEvent 1 NewGame NewParser))
     = Some [mkCard "7" "d"; emptyCard].
Proof.
  split; [| split].
  - apply Exists_cons_tl, Exists_cons_hd. reflexivity.
  - reflexivity.
  - reflexivity.
Qed.

(** ** Lookups after the player updates *)

Lemma updPlayer_lookup seat f h s :
  Players (updPlayer seat f h) !! s =
  if decide (seat = s) then f <$> Players h !! s else Players h !! s.
Proof.
  unfold updPlayer. simpl. destruct (decide (seat = s)) as [-> | Hne].
  - by rewrite lookup_alter_eq.
  - by rewrite lookup_alter_ne.
Qed.

Lemma ensurePlayer_lookup seat h s :
  Players (ensurePlayer seat h) !! s =
  if decide (seat = s) then Some (default (newPlayer seat) (Players h !! seat))
  else Players h !! s.
Proof.
  unfold ensurePlayer.
  destruct (Players h !! seat) as [pi |] eqn:Hl.
  - destruct (decide (seat = s)) as [<- | Hne]; [by rewrite Hl | done].
  - assert (Hlk : (<[seat := newPlayer seat]> (Players h)) !! s =
              if decide (seat = s) then Some (newPlayer seat) else Players h !! s).
    { destruct (decide (seat = s)) as [<- | Hne].
      - by rewrite lookup_insert_eq.
      - by rewrite lookup_insert_ne. }
    destruct (existsb _ _); simpl; exact Hlk.
Qed.

Lemma ensurePlayer_lookup_self seat h :
  Players (ensurePlayer seat h) !! seat =
  Some (default (newPlayer seat) (Players h !! seat)).
Proof. rewrite ensurePlayer_lookup. by destruct (decide (seat = seat)). Qed.

Lemma classifyAction_spec p seat a :
  classifyAction p seat a =
  if a =? 0 then ActionCheck
  else if streetBetAmount p =? 0 then ActionBet
  else if a >? streetBetAmount p then ActionRaise
  else ActionCall.
Proof.
  unfold classifyAction.
  destruct (a =? 0).
  - by destruct (_ || _).
  - destruct (streetBetAmount p =? 0); [done |].
    destruct (a >? streetBetAmount p); [done |].
    by destruct (a =? streetBetAmount p).
Qed.

(** C7: a voluntary-action event with committed amount [a] by a seat
    that has not folded records check when [a = 0], else bet when the
    street's highest bet is 0, else raise when [a] exceeds it, else
    call; an event by a folded seat leaves the parser as it was; after
    recording, the street's highest bet is [a] when [a] exceeds it and
    the seat's street commitment is [a]. *)
Theorem C7_voluntary_action (ts : Z) (m1 m2 : N) (p : Parser) (h : Hand) :
  currentHand p = Some h ->
  let seat := Atoi m1 in
  let a := Atoi m2 in
  let p' := processPokerEvent ts (PlayerEndTurn m1 m2) p in
  let kind :=
    if a =? 0 then ActionCheck
    else if streetBetAmount p =? 0 then ActionBet
    else if a >? streetBetAmount p then ActionRaise
    else ActionCall in
  (seat ∈ foldedThisHand p -> p' = p)
  /\ (seat ∉ foldedThisHand p ->
      classifyAction p seat a = kind
      /\ (exists h' pi',
             currentHand p' = Some h'
             /\ Players h' !! seat = Some pi'
             /\ Actions pi' =
                default [] (Actions <$> Players h !! seat)
                ++ [mkPlayerAction ts seat (currentStreet p) kind a])
      /\ streetBetAmount p' =
         (if a >? streetBetAmount p then a else streetBetAmount p)
      /\ streetBets p' !! seat = Some a
      /\ (forall s, s <> seat -> streetBets p' !! s = streetBets p !! s)
      /\ foldedThisHand p' = foldedThisHand p).
Proof.
  intros Hh seat a p' kind. subst p'.
  unfold processPokerEvent, handleEvent. rewrite Hh. fold seat. fold a.
  split.
  - intros Hf. by destruct (decide (seat ∈ foldedThisHand p)).
  - intros Hnf. destruct (decide (seat ∈ foldedThisHand p)); [done |].
    assert (Hk : classifyAction p seat a = kind) by apply classifyAction_spec.
    rewrite Hk. split; [done |]. cbv zeta.
    change (streetBetAmount (set_currentHand p _)) with (streetBetAmount p).
    destruct (a >? streetBetAmount p) eqn:Hgt;
      (destruct (decide (currentStreet _ = StreetPreFlop)); simpl;
       (split; [eexists _, _; split; [reflexivity |]; split;
                  [unfold appendAction; rewrite updPlayer_lookup;
                   destruct (decide (seat = seat)); [| done];
                   rewrite ensurePlayer_lookup_self; reflexivity
                  | simpl; by destruct (Players h !! seat)] |]);
       (split; [reflexivity |]);
       (split; [by rewrite lookup_insert_eq |]);
       (split; [intros s Hs; by rewrite lookup_insert_ne | reflexivity])).
Qed.

(** C7 at a fresh hand: the first bet of the street, 60 by seat 3. *)
Lemma C7_witness :
  exists h,
    currentHand (processPokerEvent 1 NewGame NewParser) = Some h
    /\ classifyAction (processPokerEvent 1 NewGame NewParser) (Atoi 3) (Atoi 60)
       = ActionBet
    /\ streetBets
         (processPokerEvent 2 (PlayerEndTurn 3 60)
            (processPokerEvent 1 NewGame NewParser)) !! Atoi 3 = Some (Atoi 60).
Proof.
  eexists. split; [reflexivity |].
  destruct (C7_voluntary_action 2 3 60 (processPokerEvent 1 NewGame NewParser) _ eq_refl)
    as [_ Hrec].
  destruct (Hrec (not_elem_of_empty (Atoi 3))) as (Hk & _ & _ & Hsb & _).
  split; [exact Hk | exact Hsb].
Defined.

(** ** Local-seat identification on concrete streams *)

(** C5 (the code at the failing inputs): [cardsMatch] compares the two
    slices position by position, so the pair 9c, 7d does not match the
    pending pair 7d, 9c: after the reveal the cards are still pending
    and no local seat is known.  In scenario S4 the tentative
    assignment to seat 2 has already cleared the pending cards, so the
    reveal by seat 8 changes neither the local seat nor the cards held
    by seat 2. *)
Theorem C5_reveal_at_failing_inputs (world : string) :
  cardsMatch [card7d; card9c] [card9c; card7d] = false
  /\ (let p := parseLines world NewParser revealSwapped in
      pendingLocalCards p = Some [card7d; card9c]
      /\ GetLocalSeat p = -1
      /\ (LocalPlayerSeat <$> currentHand p) = Some (-1))
  /\ (let q := parseLines world NewParser scenarioS4 in
      pendingLocalCards (parseLines world NewParser (take 3 scenarioS4)) = None
      /\ GetLocalSeat q = 2
      /\ (LocalPlayerSeat <$> currentHand q) = Some 2
      /\ ((fun h => holeCardsOf h 2) <$> currentHand q) = Some [card7d; card9c]
      /\ ((fun h => holeCardsOf h 8) <$> currentHand q) = Some [card7d; card9c]).
Proof. vm_compute. repeat split. Qed.

(** ** Fold-to-3-bet on concrete streams *)

(** C6 (the code at the failing inputs): in scenario S2 the pass meets
    seat 4's raise at level 2 (the big blind has raised the level to 2),
    takes it to level 3 and marks it as a three-bet, not as PFR; seat
    4's fold is then marked fold-to-3-bet.  Without blind lines the
    three-bettor seat 5, folding to the four-bet, is marked
    fold-to-3-bet although its PFR flag is not set. *)
Theorem C6_fold_to_3bet_at_failing_inputs (world : string) :
  (exists H, Hands (ParseReader world scenarioS2) = [H]
             /\ flagsOf H 4 = Some (false, true, true))
  /\ (exists H, Hands (ParseReader world foldToFourBet) = [H]
                /\ flagsOf H 4 = Some (true, false, false)
                /\ flagsOf H 5 = Some (false, true, true)).
Proof. split; eexists; vm_compute; repeat split. Qed.

(** ** The hand fields the player updates leave alone *)

Create Rewrite HintDb hand.

Lemma updPlayer_ID seat f h : ID (updPlayer seat f h) = ID h.
Proof. reflexivity. Qed.
Lemma updPlayer_StartTime seat f h : StartTime (updPlayer seat f h) = StartTime h.
Proof. reflexivity. Qed.
Lemma updPlayer_EndTime seat f h : EndTime (updPlayer seat f h) = EndTime h.
Proof. reflexivity. Qed.
Lemma updPlayer_LocalPlayerSeat seat f h : LocalPlayerSeat (updPlayer seat f h) = LocalPlayerSeat h.
Proof. reflexivity. Qed.
Lemma updPlayer_SBSeat seat f h : SBSeat (updPlayer seat f h) = SBSeat h.
Proof. reflexivity. Qed.
Lemma updPlayer_BBSeat seat f h : BBSeat (updPlayer seat f h) = BBSeat h.
Proof. reflexivity. Qed.
Lemma updPlayer_WinnerSeat seat f h : WinnerSeat (updPlayer seat f h) = WinnerSeat h.
Proof. reflexivity. Qed.
Lemma updPlayer_WinType seat f h : WinType (updPlayer seat f h) = WinType h.
Proof. reflexivity. Qed.
Lemma updPlayer_TotalPot seat f h : TotalPot (updPlayer seat f h) = TotalPot h.
Proof. reflexivity. Qed.
Lemma updPlayer_CommunityCards seat f h : CommunityCards (updPlayer seat f h) = CommunityCards h.
Proof. reflexivity. Qed.
Lemma updPlayer_NumPlayers seat f h : NumPlayers (updPlayer seat f h) = NumPlayers h.
Proof. reflexivity. Qed.
Lemma updPlayer_IsComplete seat f h : IsComplete (updPlayer seat f h) = IsComplete h.
Proof. reflexivity. Qed.
Lemma updPlayer_ActiveSeats seat f h : ActiveSeats (updPlayer seat f h) = ActiveSeats h.
Proof. reflexivity. Qed.
Lemma ensurePlayer_ID seat h : ID (ensurePlayer seat h) = ID h.
Proof. unfold ensurePlayer. destruct (Players h !! seat); [done |]. by destruct (existsb _ _). Qed.
Lemma ensurePlayer_StartTime seat h : StartTime (ensurePlayer seat h) = StartTime h.
Proof. unfold ensurePlayer. destruct (Players h !! seat); [done |]. by destruct (existsb _ _). Qed.
Lemma ensurePlayer_EndTime seat h : EndTime (ensurePlayer seat h) = EndTime h.
Proof. unfold ensurePlayer. destruct (Players h !! seat); [done |]. by destruct (existsb _ _). Qed.
Lemma ensurePlayer_LocalPlayerSeat seat h : LocalPlayerSeat (ensurePlayer seat h) = LocalPlayerSeat h.
Proof. unfold ensurePlayer. destruct (Players h !! seat); [done |]. by destruct (existsb _ _). Qed.
Lemma ensurePlayer_SBSeat seat h : SBSeat (ensurePlayer seat h) = SBSeat h.
Proof. unfold ensurePlayer. destruct (Players h !! seat); [done |]. by destruct (existsb _ _). Qed.
Lemma ensurePlayer_BBSeat seat h : BBSeat (ensurePlayer seat h) = BBSeat h.
Proof. unfold ensurePlayer. destruct (Players h !! seat); [done |]. by destruct (existsb _ _). Qed.
Lemma ensurePlayer_WinnerSeat seat h : WinnerSeat (ensurePlayer seat h) = WinnerSeat h.
Proof. unfold ensurePlayer. destruct (Players h !! seat); [done |]. by destruct (existsb _ _). Qed.
Lemma ensurePlayer_WinType seat h : WinType (ensurePlayer seat h) = WinType h.
Proof. unfold ensurePlayer. destruct (Players h !! seat); [done |]. by destruct (existsb _ _). Qed.
Lemma ensurePlayer_TotalPot seat h : TotalPot (ensurePlayer seat h) = TotalPot h.
Proof. unfold ensurePlayer. destruct (Players h !! seat); [done |]. by destruct (existsb _ _). Qed.
Lemma ensurePlayer_CommunityCards seat h : CommunityCards (ensurePlayer seat h) = CommunityCards h.
Proof. unfold ensurePlayer. destruct (Players h !! seat); [done |]. by destruct (existsb _ _). Qed.
Lemma ensurePlayer_NumPlayers seat h : NumPlayers (ensurePlayer seat h) = NumPlayers h.
Proof. unfold ensurePlayer. destruct (Players h !! seat); [done |]. by destruct (existsb _ _). Qed.
Lemma ensurePlayer_IsComplete seat h : IsComplete (ensurePlayer seat h) = IsComplete h.
Proof. unfold ensurePlayer. destruct (Players h !! seat); [done |]. by destruct (existsb _ _). Qed.

#[global] Hint Rewrite updPlayer_ID updPlayer_StartTime updPlayer_EndTime updPlayer_LocalPlayerSeat updPlayer_SBSeat updPlayer_BBSeat updPlayer_WinnerSeat updPlayer_WinType updPlayer_TotalPot updPlayer_CommunityCards updPlayer_NumPlayers updPlayer_IsComplete updPlayer_ActiveSeats : hand.
#[global] Hint Rewrite ensurePlayer_ID ensurePlayer_StartTime ensurePlayer_EndTime ensurePlayer_LocalPlayerSeat ensurePlayer_SBSeat ensurePlayer_BBSeat ensurePlayer_WinnerSeat ensurePlayer_WinType ensurePlayer_TotalPot ensurePlayer_CommunityCards ensurePlayer_NumPlayers ensurePlayer_IsComplete : hand.

#[global] Arguments ensurePlayer : simpl never.
#[global] Arguments updPlayer : simpl never.

(** ** Invariants of the state machine *)

Lemma Atoi_nonneg (n : N) : 0 <= Atoi n.
Proof. unfold Atoi, maxInt. lia. Qed.

Lemma Atoi_le_maxInt (n : N) : Atoi n <= maxInt.
Proof. unfold Atoi. lia. Qed.

Lemma HandOK_updPlayer Q seat f h :
  HandOK Q h -> (forall pi, Q pi -> Q (f pi)) -> HandOK Q (updPlayer seat f h).
Proof.
  intros Hh Hf s pi. rewrite updPlayer_lookup.
  destruct (decide (seat = s)) as [<- | Hne].
  - destruct (Players h !! seat) as [pi0 |] eqn:Hl; simpl; [| done].
    intros [= <-]. apply Hf. by apply (Hh seat).
  - apply Hh.
Qed.

Lemma HandOK_ensurePlayer Q seat h :
  HandOK Q h -> Q (newPlayer seat) -> HandOK Q (ensurePlayer seat h).
Proof.
  intros Hh Hn s pi. rewrite ensurePlayer_lookup.
  destruct (decide (seat = s)) as [<- | Hne].
  - intros [= <-]. destruct (Players h !! seat) as [pi0 |] eqn:Hl; simpl.
    + by apply (Hh seat).
    + exact Hn.
  - apply Hh.
Qed.

Lemma HandOK_weaken (Q Q' : PlayerHandInfo -> Prop) h :
  (forall pi, Q pi -> Q' pi) -> HandOK Q h -> HandOK Q' h.
Proof. intros HQ Hh s pi Hl. apply HQ. by apply (Hh s). Qed.

Lemma okPlayer_new seat : okPlayer (newPlayer seat).
Proof. constructor. Qed.

Lemma unpaid_new seat : unpaid (newPlayer seat).
Proof. by split. Qed.

Lemma okPlayer_append pi a :
  okPlayer pi -> recordedKind (Action a) = true ->
  okPlayer (set_Actions pi (Actions pi ++ [a])).
Proof.
  intros Hok Ha. unfold okPlayer. simpl. apply Forall_app. split; [exact Hok |].
  by constructor.
Qed.

Lemma classifyAction_recorded p seat a :
  recordedKind (classifyAction p seat a) = true.
Proof.
  rewrite classifyAction_spec.
  destruct (a =? 0); [done |]. destruct (streetBetAmount p =? 0); [done |].
  by destruct (a >? streetBetAmount p).
Qed.

Ltac ok_players :=
  repeat first
    [ assumption
    | apply HandOK_updPlayer;
        [| let pi := fresh "pi" in
           intros pi [? ?]; try case_match; (split; [try assumption | try assumption]) ]
    | apply HandOK_ensurePlayer; [| split; [apply okPlayer_new | apply unpaid_new] ] ].

(** Every handler keeps the invariant of a hand in progress. *)
Lemma handleEvent_Inv ts msg p h :
  Inv p -> currentHand p = Some h -> Inv (handleEvent ts msg p h).
Proof.
  intros (Hres & Hpf & Hpw & Hcur) Hh. rewrite Hh in Hcur.
  destruct Hcur as (Hok & Hws & Hwt).
  unfold handleEvent.
  destruct msg; try rewrite parseCards_spec; try rewrite parseCard_spec;
    cbv beta iota zeta; unfold raiseStreetBet, appendAction, assignLocalCards;
    repeat case_match; unfold Inv, CurrentOK; simpl; rewrite ?Hh;
    autorewrite with hand; simpl.
  all: try (split; [assumption |]).
  all: (split; [first [assumption
                      | apply Forall_app; split;
                        [assumption
                        | repeat constructor; try apply classifyAction_recorded]] |]).
  all: (split; [first [assumption
                      | apply Forall_app; split;
                        [assumption | repeat constructor; apply Atoi_nonneg]] |]).
  all: try done.
  all: try (split; [ok_players |]).
  all: try (apply okPlayer_append;
            [assumption | first [done | apply classifyAction_recorded]]).
  all: try (split; assumption).
  all: try (split; [assumption |]).
  all: try match goal with
       | H : String.eqb _ _ = true |- _ => apply String.eqb_eq in H
       | H : String.eqb _ _ = false |- _ => apply String.eqb_neq in H
       end.
  all: split; intros E; exfalso;
       first [discriminate E | by destruct (pendingWinners p) | done].
Qed.

(** ** Updates that change flags and positions only *)

Lemma coreEq_refl pi : coreEq pi pi.
Proof. by repeat split. Qed.

Lemma coreEq_trans a b c : coreEq a b -> coreEq b c -> coreEq a c.
Proof.
  intros (?&?&?&?&?&?&?) (?&?&?&?&?&?&?). repeat split; congruence.
Qed.

Lemma sameCore_refl h : sameCore h h.
Proof.
  exists (Players h). split; [done |]. intros s.
  destruct (Players h !! s); constructor. apply coreEq_refl.
Qed.

Lemma sameCore_trans a b c : sameCore a b -> sameCore b c -> sameCore a c.
Proof.
  intros (m1 & -> & H1) (m2 & -> & H2). exists m2. split; [done |].
  intros s. specialize (H1 s). specialize (H2 s). simpl in H2.
  destruct H1 as [x y Hxy |]; inversion H2 as [y' z Hyz |]; subst; constructor.
  eapply coreEq_trans; eauto.
Qed.

Lemma sameCore_updPlayer seat f h :
  (forall pi, coreEq pi (f pi)) -> sameCore h (updPlayer seat f h).
Proof.
  intros Hf. exists (alter f seat (Players h)). split; [done |].
  intros s. destruct (decide (seat = s)) as [<- | Hne].
  - rewrite lookup_alter_eq. destruct (Players h !! seat); constructor. apply Hf.
  - rewrite lookup_alter_ne by done.
    destruct (Players h !! s); constructor. apply coreEq_refl.
Qed.

Lemma sameCore_HandOK (Q : PlayerHandInfo -> Prop) h h' :
  sameCore h h' -> (forall a b, coreEq a b -> Q a -> Q b) ->
  HandOK Q h -> HandOK Q h'.
Proof.
  intros (m & -> & Hm) HQ Hh s pi Hl. simpl in Hl.
  specialize (Hm s). rewrite Hl in Hm. inversion Hm as [x y Hxy Hx |]; subst.
  eapply HQ; [exact Hxy |]. apply (Hh s). done.
Qed.

Lemma assignLoop_sameCore i rotated positions h :
  sameCore h (assignLoop i rotated positions h).
Proof.
  revert i h. induction rotated as [| seat rest IH]; intros i h; simpl.
  - apply sameCore_refl.
  - eapply sameCore_trans; [| apply IH].
    destruct (Players h !! seat); [| apply sameCore_refl].
    destruct (positions !! i); [| apply sameCore_refl].
    apply sameCore_updPlayer. intros pi. by repeat split.
Qed.

Lemma assignPositions_sameCore h : sameCore h (assignPositions h).
Proof.
  unfold assignPositions.
  destruct (_ || _); [apply sameCore_refl |].
  destruct (_ <? 0); [apply sameCore_refl |].
  apply assignLoop_sameCore.
Qed.

Lemma pfStep_sameCore st act : sameCore (pfHand st) (pfHand (pfStep st act)).
Proof.
  unfold pfStep.
  destruct (Players (pfHand st) !! seatID act); [| apply sameCore_refl].
  destruct (action act); repeat case_match; simpl;
    first [apply sameCore_refl
          | apply sameCore_updPlayer; intros pi; by repeat split].
Qed.

Lemma fold_pfStep_sameCore acts st :
  sameCore (pfHand st) (pfHand (fold_left pfStep acts st)).
Proof.
  revert st. induction acts as [| act rest IH]; intros st; simpl.
  - apply sameCore_refl.
  - eapply sameCore_trans; [apply pfStep_sameCore | apply IH].
Qed.

Lemma calculatePreflopStats_sameCore p h :
  sameCore h (calculatePreflopStats p h).
Proof.
  unfold calculatePreflopStats. destruct (_ =? 0); [apply sameCore_refl |].
  apply (fold_pfStep_sameCore (pfActions p) (mkPfState _ ∅ h)).
Qed.

(** ** Finalization, step by step *)

Lemma finalizeHand_unfold p h :
  finalizeHand p h =
  let ph := preAssign p h in
  let th := fold_left applyWinner (pendingWinners ph.1) (0, ph.2) in
  (ph.1, afterWinners ph.1 th.1 th.2).
Proof.
  unfold finalizeHand. fold (preAssign p h).
  destruct (preAssign p h) as [p1 h1]. simpl.
  destruct (fold_left applyWinner (pendingWinners p1) (0, h1)) as [t hw]. simpl.
  reflexivity.
Qed.

Lemma preAssign_parser p h :
  pendingWinners (preAssign p h).1 = pendingWinners p
  /\ pfActions (preAssign p h).1 = pfActions p
  /\ Hands (result (preAssign p h).1) = Hands (result p)
  /\ lastTimestamp (preAssign p h).1 = lastTimestamp p.
Proof.
  unfold preAssign. destruct (pendingLocalCards p); [| done].
  by destruct (_ >=? 0).
Qed.

Lemma preAssign_HandOK Q p h :
  HandOK Q h -> (forall s, Q (newPlayer s)) ->
  (forall pi c, Q pi -> Q (set_HoleCards pi c)) ->
  HandOK Q (preAssign p h).2.
Proof.
  intros Hh Hn Hc. unfold preAssign. destruct (pendingLocalCards p); [| done].
  destruct (_ >=? 0); [| done]. unfold assignLocalCards. simpl.
  apply HandOK_updPlayer; [| intros pi; apply Hc].
  by apply HandOK_ensurePlayer.
Qed.

Lemma preAssign_fields p h :
  WinnerSeat (preAssign p h).2 = WinnerSeat h
  /\ WinType (preAssign p h).2 = WinType h
  /\ CommunityCards (preAssign p h).2 = CommunityCards h.
Proof.
  unfold preAssign. destruct (pendingLocalCards p); [| done].
  destruct (_ >=? 0); [| done]. unfold assignLocalCards. simpl.
  by autorewrite with hand.
Qed.

(** ** The winners loop *)

Lemma applyWinner_hand_lookup t h pw s :
  Players (applyWinner (t, h) pw).2 !! s =
  if decide (winSeatID pw = s)
  then Some (let pi := default (newPlayer (winSeatID pw)) (Players h !! s) in
             set_PotWon (set_Won pi true) (add64 (PotWon pi) (winAmount pw)))
  else Players h !! s.
Proof.
  unfold applyWinner. simpl.
  destruct (decide (winSeatID pw = s)) as [<- | Hne].
  - rewrite !lookup_alter_eq, ensurePlayer_lookup_self. reflexivity.
  - rewrite !lookup_alter_ne by done. rewrite ensurePlayer_lookup.
    by destruct (decide (winSeatID pw = s)).
Qed.

Lemma applyWinner_potOf t h pw s :
  potOf (applyWinner (t, h) pw).2 s =
  if decide (winSeatID pw = s) then add64 (potOf h s) (winAmount pw) else potOf h s.
Proof.
  unfold potOf. rewrite applyWinner_hand_lookup.
  destruct (decide (winSeatID pw = s)) as [<- | Hne]; [| done].
  by destruct (Players h !! winSeatID pw).
Qed.

Lemma applyWinner_wonOf t h pw s :
  wonOf (applyWinner (t, h) pw).2 s =
  if decide (winSeatID pw = s) then true else wonOf h s.
Proof.
  unfold wonOf. rewrite applyWinner_hand_lookup.
  by destruct (decide (winSeatID pw = s)).
Qed.

Lemma fold_applyWinner_total pws t h :
  (fold_left applyWinner pws (t, h)).1 = fold_left add64 (map winAmount pws) t.
Proof.
  revert t h. induction pws as [| pw rest IH]; intros t h; [done |].
  simpl. apply IH.
Qed.

Lemma fold_applyWinner_fields pws t h :
  let h' := (fold_left applyWinner pws (t, h)).2 in
  WinType h' = WinType h /\ CommunityCards h' = CommunityCards h.
Proof.
  revert t h. induction pws as [| pw rest IH]; intros t h; [done |].
  simpl. destruct (IH (add64 t (winAmount pw))
    (set_WinnerSeat
       (updPlayer (winSeatID pw)
          (fun pi => set_PotWon pi (add64 (PotWon pi) (winAmount pw)))
          (updPlayer (winSeatID pw) (fun pi => set_Won pi true)
             (ensurePlayer (winSeatID pw) h))) (winSeatID pw))) as [H1 H2].
  simpl in H1, H2. autorewrite with hand in H1, H2. by split.
Qed.

Lemma fold_applyWinner_winner pws t h :
  WinnerSeat (fold_left applyWinner pws (t, h)).2 =
  default (WinnerSeat h) (last (map winSeatID pws)).
Proof.
  revert t h. induction pws as [| pw rest IH]; intros t h; [done |].
  simpl fold_left. rewrite IH. simpl map. rewrite last_cons.
  by destruct (last (map winSeatID rest)).
Qed.

Lemma amountsFor_cons s pw rest :
  amountsFor s (pw :: rest) =
  if decide (winSeatID pw = s) then winAmount pw :: amountsFor s rest
  else amountsFor s rest.
Proof.
  unfold amountsFor. rewrite filter_cons.
  by destruct (decide (winSeatID pw = s)).
Qed.

Lemma fold_applyWinner_potOf pws t h s :
  potOf (fold_left applyWinner pws (t, h)).2 s =
  fold_left add64 (amountsFor s pws) (potOf h s).
Proof.
  revert t h. induction pws as [| pw rest IH]; intros t h; [done |].
  change (fold_left applyWinner (pw :: rest) (t, h))
    with (fold_left applyWinner rest (applyWinner (t, h) pw)).
  destruct (applyWinner (t, h) pw) as [t1 h1] eqn:E.
  rewrite IH. rewrite amountsFor_cons.
  assert (Hp := applyWinner_potOf t h pw s). rewrite E in Hp. simpl in Hp.
  rewrite Hp. by destruct (decide (winSeatID pw = s)).
Qed.

Lemma fold_applyWinner_wonOf pws t h s :
  wonOf (fold_left applyWinner pws (t, h)).2 s =
  wonOf h s || bool_decide (s ∈ map winSeatID pws).
Proof.
  revert t h. induction pws as [| pw rest IH]; intros t h.
  - simpl. by rewrite orb_false_r.
  - change (fold_left applyWinner (pw :: rest) (t, h))
      with (fold_left applyWinner rest (applyWinner (t, h) pw)).
    destruct (applyWinner (t, h) pw) as [t1 h1] eqn:E.
    rewrite IH.
    assert (Hw := applyWinner_wonOf t h pw s). rewrite E in Hw. simpl in Hw.
    rewrite Hw. simpl map.
    destruct (decide (winSeatID pw = s)) as [<- | Hne].
    + simpl. rewrite bool_decide_eq_true_2 by apply list_elem_of_here.
      by rewrite orb_true_r.
    + f_equal. apply bool_decide_ext. rewrite elem_of_cons.
      split; [by right | intros [Heq | Hin]; [congruence | exact Hin]].
Qed.

Lemma fold_applyWinner_HandOK Q pws t h :
  HandOK Q h -> (forall s, Q (newPlayer s)) ->
  (forall pi, Q pi -> Q (set_Won pi true)) ->
  (forall pi x, Q pi -> Q (set_PotWon pi x)) ->
  HandOK Q (fold_left applyWinner pws (t, h)).2.
Proof.
  intros Hh Hn Hw Hp. revert t h Hh.
  induction pws as [| pw rest IH]; intros t h Hh; [done |].
  simpl. apply IH. simpl.
  apply HandOK_updPlayer; [| intros pi; apply Hp].
  apply HandOK_updPlayer; [| exact Hw].
  by apply HandOK_ensurePlayer.
Qed.

Lemma inferWinType_Players h : inferWinType h = set_WinType h (WinType (inferWinType h)).
Proof.
  unfold inferWinType. destruct (String.eqb _ _); [| done].
  by destruct (_ >=? 3).
Qed.

Lemma afterWinners_fields p t h :
  let h' := afterWinners p t h in
  TotalPot h' = t
  /\ WinnerSeat h' = WinnerSeat h
  /\ CommunityCards h' = CommunityCards h
  /\ WinType h' = WinType (inferWinType h)
  /\ forall s, option_Forall2 coreEq (Players h !! s) (Players h' !! s).
Proof.
  unfold afterWinners.
  set (h1 := set_NumPlayers (inferWinType (set_TotalPot h t)) _).
  assert (Hs : sameCore h1 (calculatePreflopStats p (assignPositions h1))).
  { eapply sameCore_trans;
      [apply assignPositions_sameCore | apply calculatePreflopStats_sameCore]. }
  destruct Hs as (m & -> & Hm). subst h1. simpl.
  rewrite (inferWinType_Players (set_TotalPot h t)) in Hm |- *. simpl in Hm |- *.
  repeat split; try reflexivity.
  - unfold inferWinType. simpl. destruct (String.eqb _ _); [| done].
    by destruct (_ >=? 3).
  - exact Hm.
Qed.

Lemma coreEq_potOf h h' s :
  option_Forall2 coreEq (Players h !! s) (Players h' !! s) ->
  potOf h' s = potOf h s /\ wonOf h' s = wonOf h s.
Proof.
  unfold potOf, wonOf. intros H.
  inversion H as [x y (?&?&?&?&?&?&?) |]; simpl; [| done]. by split.
Qed.

Lemma okPlayer_coreEq a b : coreEq a b -> okPlayer a -> okPlayer b.
Proof. intros (_ & Ha & _). unfold okPlayer. by rewrite Ha. Qed.

Lemma HandOK_lookups (Q : PlayerHandInfo -> Prop) h h' :
  (forall s, option_Forall2 coreEq (Players h !! s) (Players h' !! s)) ->
  (forall a b, coreEq a b -> Q a -> Q b) ->
  HandOK Q h -> HandOK Q h'.
Proof.
  intros Hm HQ Hh s pi Hl. specialize (Hm s). rewrite Hl in Hm.
  inversion Hm as [x y Hxy Hx |]; subst. eapply HQ; [exact Hxy |].
  apply (Hh s). done.
Qed.

(** A finalized hand satisfies [FinalOK]. *)
Lemma finalizeHand_FinalOK p h :
  Forall (fun pw => 0 <= winSeatID pw) (pendingWinners p) ->
  CurrentOK p h -> FinalOK (finalizeHand p h).2.
Proof.
  intros Hpw (Hok & Hws & Hwt). rewrite finalizeHand_unfold. simpl.
  destruct (preAssign_parser p h) as (Epw & _).
  destruct (preAssign_fields p h) as (Ews & Ewt & Ecc).
  set (p1 := (preAssign p h).1) in *. set (h1 := (preAssign p h).2) in *.
  set (th := fold_left applyWinner (pendingWinners p1) (0, h1)).
  destruct (afterWinners_fields p1 th.1 th.2) as (_ & Fws & Fcc & Fwt & Fpl).
  destruct (fold_applyWinner_fields (pendingWinners p1) 0 h1) as (Gwt & Gcc).
  fold th in Gwt, Gcc.
  assert (Hw : WinnerSeat th.2 =
               default (-1) (last (map winSeatID (pendingWinners p)))).
  { unfold th. by rewrite fold_applyWinner_winner, Ews, Hws, Epw. }
  split.
  { eapply HandOK_lookups; [exact Fpl | exact okPlayer_coreEq |].
    apply fold_applyWinner_HandOK; [| exact okPlayer_new | done | done].
    apply preAssign_HandOK; [| exact okPlayer_new | done].
    eapply HandOK_weaken; [| exact Hok]. by intros pi [? _]. }
  rewrite Fws, Fcc, Fwt, Gcc, Ecc, Hw. unfold inferWinType. rewrite Gwt, Ewt, Gcc, Ecc.
  destruct (pendingWinners p) as [| pw0 rest _] using rev_ind.
  - assert (E : WinType h = EmptyString) by by apply Hwt.
    rewrite E. simpl.
    destruct (len (CommunityCards h) >=? 3) eqn:E3; simpl.
    + split; [intros _; right; lia |]. intros _. split; [lia | done].
    + split; [done |]. intros _. split; [done | lia].
  - rewrite map_app. change (map winSeatID [pw0]) with [winSeatID pw0].
    rewrite last_snoc. simpl.
    apply Forall_app in Hpw as [_ Hlast]. inversion Hlast as [| ? ? H0 _]; subst.
    split; [intros _; by left | lia].
Qed.

Lemma finalizeCurrentHand_Inv p : Inv p -> Inv (finalizeCurrentHand p).
Proof.
  intros (Hres & Hpf & Hpw & Hcur). unfold finalizeCurrentHand.
  destruct (currentHand p) as [h |] eqn:Hh; [| unfold Inv; by rewrite Hh].
  pose proof (finalizeHand_FinalOK p h Hpw Hcur) as Hfin.
  destruct (preAssign_parser p h) as (Epw & Epf & Eh & _).
  destruct (finalizeHand p h) as [p2 h2] eqn:E.
  rewrite finalizeHand_unfold in E. cbv zeta in E. injection E as Ep E2.
  clear E2. simpl in Hfin. rewrite Ep in Epw, Epf, Eh.
  assert (Hres' : Forall FinalOK (Hands (result p2) ++ [h2])).
  { apply Forall_app. split; [by rewrite Eh | by constructor]. }
  unfold Inv.
  destruct (LocalPlayerSeat h2 >=? 0); [destruct (Players h2 !! LocalPlayerSeat h2) |];
    simpl; rewrite ?Epw, ?Epf, ?Eh; rewrite ?Eh in Hres'; by repeat split.
Qed.

Lemma startNewHand_Inv ts p :
  Forall FinalOK (Hands (result p)) -> Inv (startNewHand ts p).
Proof.
  intros Hres. unfold Inv, startNewHand, CurrentOK. simpl.
  repeat split; try done; try constructor.
Qed.

Lemma processPokerEvent_Inv ts msg p : Inv p -> Inv (processPokerEvent ts msg p).
Proof.
  intros HI. unfold processPokerEvent.
  destruct (currentHand p) as [h |] eqn:Hh.
  - destruct msg; try (by apply handleEvent_Inv).
    apply startNewHand_Inv. by apply finalizeCurrentHand_Inv.
  - destruct msg; try done.
    apply startNewHand_Inv. by apply finalizeCurrentHand_Inv.
Qed.

Lemma Inv_set_lastTimestamp p ts : Inv p -> Inv (set_lastTimestamp p ts).
Proof. intros H. exact H. Qed.

Lemma ParseLine_Inv world p line : Inv p -> Inv (ParseLine world p line).
Proof.
  intros HI. destruct line as [| ts msg]; [done |]. unfold ParseLine.
  apply (Inv_set_lastTimestamp p ts) in HI.
  set (q := set_lastTimestamp p ts) in *.
  destruct msg; try (by apply processPokerEvent_Inv).
  - exact HI.
  - destruct (inPokerWorld q).
    + apply finalizeCurrentHand_Inv in HI. exact HI.
    + exact HI.
Qed.

Lemma NewParser_Inv : Inv NewParser.
Proof. unfold Inv. simpl. repeat split; constructor. Qed.

Lemma parseLines_Inv world p lines : Inv p -> Inv (parseLines world p lines).
Proof.
  revert p. induction lines as [| line rest IH]; intros p HI; [done |].
  simpl. apply IH. by apply ParseLine_Inv.
Qed.

(** The states a fresh parser reaches satisfy the invariant. *)
Lemma reachable_Inv world lines : Inv (parseLines world NewParser lines).
Proof. apply parseLines_Inv, NewParser_Inv. Qed.

Lemma recordedKind_noAllIn a :
  recordedKind a = true ->
  a <> ActionAllIn
  /\ isAggressivePreflop a = bool_decide (a = ActionBet \/ a = ActionRaise).
Proof. by destruct a. Qed.

Lemma HandOK_noAllIn h : HandOK okPlayer h -> noAllIn h.
Proof.
  intros Hok seat pi a Hl Ha. apply recordedKind_noAllIn.
  specialize (Hok seat pi Hl). unfold okPlayer in Hok.
  rewrite Forall_forall in Hok. by apply Hok.
Qed.

(** C10: no recorded action has kind all-in.  The classifier returns
    check, bet, raise or call only; over every line sequence, at every
    point of the parse and after the final finalization, the pre-flop
    buffer, the hand in progress and every finalized hand hold no
    all-in action, so that on their actions [isAggressivePreflop] is
    decided by bet and raise alone and the all-in branches of the
    pre-flop pass and of the opportunity analyzer are never taken. *)
Theorem C10_no_all_in (world : string) (lines : list Line) :
  (forall p seat amount,
      classifyAction p seat amount ∈
        [ActionCheck; ActionBet; ActionRaise; ActionCall])
  /\ (let p := parseLines world NewParser lines in
      Forall noAllIn (GetHands p)
      /\ (forall h, currentHand p = Some h -> noAllIn h)
      /\ Forall (fun act => action act <> ActionAllIn) (pfActions p))
  /\ Forall noAllIn (Hands (ParseReader world lines)).
Proof.
  split; [| split].
  - intros p seat amount. rewrite classifyAction_spec.
    destruct (amount =? 0); [set_solver |].
    destruct (streetBetAmount p =? 0); [set_solver |].
    destruct (amount >? streetBetAmount p); set_solver.
  - pose proof (reachable_Inv world lines) as (Hres & Hpf & _ & Hcur).
    cbv zeta. split; [| split].
    + unfold GetHands. eapply Forall_impl; [exact Hres |].
      intros h [Hok _]. by apply HandOK_noAllIn.
    + intros h Hh. rewrite Hh in Hcur. destruct Hcur as (Hok & _).
      apply HandOK_noAllIn. eapply HandOK_weaken; [| exact Hok]. by intros pi [? _].
    + eapply Forall_impl; [exact Hpf |]. intros act Hr.
      by apply recordedKind_noAllIn in Hr as [? _].
  - pose proof (finalizeCurrentHand_Inv _ (reachable_Inv world lines)) as (Hres & _).
    unfold ParseReader. eapply Forall_impl; [exact Hres |].
    intros h [Hok _]. by apply HandOK_noAllIn.
Qed.

(** ** Win type and community cards *)

(** C3 (as amended): for every finalized hand, if the win type is
    showdown then a winner was recorded for the hand (its winner seat
    is set) or the hand has at least three community cards; and when no
    winner was recorded, the win type is showdown exactly when the hand
    has at least three community cards. *)
Theorem C3_showdown_win_type (world : string) (lines : list Line) :
  Forall
    (fun H =>
       (WinType H = "showdown"%string ->
        0 <= WinnerSeat H \/ 3 <= len (CommunityCards H))
       /\ (WinnerSeat H < 0 ->
           (WinType H = "showdown"%string <-> 3 <= len (CommunityCards H))))
    (Hands (ParseReader world lines)).
Proof.
  pose proof (finalizeCurrentHand_Inv _ (reachable_Inv world lines)) as (Hres & _).
  unfold ParseReader. eapply Forall_impl; [exact Hres |].
  intros H (_ & H1 & H2). by split.
Qed.

(** C3 (as stated) fails: a hand whose showdown winner is declared
    before any community card is finalized with win type showdown and
    no community card, and a hand dealt six community cards with no
    winner declared is finalized with win type showdown and six
    community cards. *)
Lemma C3_counterexample :
  (exists H, Hands (ParseReader "wrld_0" showdownNoBoard) = [H]
             /\ WinType H = "showdown"%string
             /\ length (CommunityCards H) = 0%nat)
  /\ (exists H, Hands (ParseReader "wrld_0" sixCardBoard) = [H]
                /\ WinType H = "showdown"%string
                /\ length (CommunityCards H) = 6%nat).
Proof. split; eexists; vm_compute; repeat split. Qed.

(** ** Sums of amounts *)

Lemma wrap64_add_l a b : wrap64 (wrap64 a + b) = wrap64 (a + b).
Proof.
  unfold wrap64. f_equal.
  replace ((a + 2 ^ 63) mod 2 ^ 64 - 2 ^ 63 + b + 2 ^ 63)
    with ((a + 2 ^ 63) mod 2 ^ 64 + b) by lia.
  rewrite Zplus_mod_idemp_l. f_equal. lia.
Qed.

Lemma wrap64_add_r a b : wrap64 (a + wrap64 b) = wrap64 (a + b).
Proof. rewrite (Z.add_comm a), wrap64_add_l. f_equal. lia. Qed.

Lemma fold_add64 l x : fold_left add64 l (wrap64 x) = wrap64 (x + zsum l).
Proof.
  revert x. induction l as [| a l IH]; intros x; simpl.
  - f_equal. lia.
  - unfold add64 at 2. rewrite wrap64_add_l, IH. f_equal. lia.
Qed.

Lemma sum64_zsum l : sum64 l = wrap64 (zsum l).
Proof. unfold sum64. change 0 with (wrap64 0) at 1. by rewrite fold_add64. Qed.

(** No wrap-around occurs on a sum that fits. *)
Lemma wrap64_small z : minInt <= z <= maxInt -> wrap64 z = z.
Proof.
  unfold wrap64, minInt, maxInt. intros Hz.
  rewrite Z.mod_small; lia.
Qed.

Lemma zsum_map_wrap64 {A} (f : A -> Z) (D : list A) :
  wrap64 (zsum (map (fun s => wrap64 (f s)) D)) = wrap64 (zsum (map f D)).
Proof.
  induction D as [| a D IH]; [done |]. simpl.
  rewrite wrap64_add_l. rewrite <- wrap64_add_r, IH, wrap64_add_r. done.
Qed.

Lemma zsum_map_add {A} (f g : A -> Z) (D : list A) :
  zsum (map (fun s => f s + g s) D) = zsum (map f D) + zsum (map g D).
Proof. induction D as [| a D IH]; simpl; lia. Qed.

Lemma zsum_indicator (x a : Z) (D : list Z) :
  NoDup D -> x ∈ D ->
  zsum (map (fun s => if decide (x = s) then a else 0) D) = a.
Proof.
  induction 1 as [| y D Hy HD IH]; intros Hx; [by apply elem_of_nil in Hx |].
  simpl. apply elem_of_cons in Hx as [-> | Hx].
  - destruct (decide (y = y)); [| done].
    assert (Hz : zsum (map (fun s => if decide (y = s) then a else 0) D) = 0).
    { clear IH HD. induction D as [| z D IHD]; [done |]. simpl.
      apply not_elem_of_cons in Hy as [Hne Hy].
      destruct (decide (y = z)); [done |]. rewrite IHD; [lia | done]. }
    lia.
  - destruct (decide (x = y)) as [-> | Hne]; [done |]. rewrite IH; [lia | done].
Qed.

(** Summing per seat over the distinct seats is summing over the
    pending winners. *)
Lemma zsum_by_seat (pws : list pendingWin) (D : list Z) :
  NoDup D -> (forall pw, pw ∈ pws -> winSeatID pw ∈ D) ->
  zsum (map (fun s => zsum (amountsFor s pws)) D) = zsum (map winAmount pws).
Proof.
  intros HD. induction pws as [| pw rest IH]; intros Hin.
  - simpl. induction D as [| d D IHD]; [done |]. simpl.
    apply NoDup_cons in HD as [_ HD]. rewrite IHD; [done | done |].
    intros pw Hpw. by apply elem_of_nil in Hpw.
  - rewrite (map_ext _ (fun s => (if decide (winSeatID pw = s) then winAmount pw else 0)
                                 + zsum (amountsFor s rest))).
    2: { intros s. rewrite amountsFor_cons.
         destruct (decide (winSeatID pw = s)); simpl; lia. }
    rewrite zsum_map_add, zsum_indicator, IH; [done | | done |].
    + intros pw' Hpw'. apply Hin. by apply list_elem_of_further.
    + apply Hin. apply list_elem_of_here.
Qed.

(** ** Winner resolution *)

Lemma unpaid_potOf h s :
  HandOK unpaid h -> potOf h s = 0 /\ wonOf h s = false.
Proof.
  intros Hh. unfold potOf, wonOf.
  destruct (Players h !! s) as [pi |] eqn:Hl; [| done].
  destruct (Hh s pi Hl) as [Hw Hp]. simpl. by split.
Qed.

Lemma finalizeCurrentHand_hands p h :
  currentHand p = Some h ->
  Hands (result (finalizeCurrentHand p)) = Hands (result p)
  \/ Hands (result (finalizeCurrentHand p)) =
     Hands (result p) ++ [(finalizeHand p h).2].
Proof.
  intros Hh. unfold finalizeCurrentHand. rewrite Hh.
  destruct (preAssign_parser p h) as (_ & _ & Eh & _).
  destruct (finalizeHand p h) as [p2 h2] eqn:E.
  rewrite finalizeHand_unfold in E. cbv zeta in E. injection E as Ep E2.
  rewrite Ep in Eh. simpl.
  destruct (LocalPlayerSeat h2 >=? 0); [destruct (Players h2 !! LocalPlayerSeat h2) |];
    simpl; rewrite ?Eh; auto.
Qed.

(** ** Sorting the active seats *)

Lemma insertInt_perm x l : insertInt x l ≡ₚ x :: l.
Proof.
  induction l as [| y t IH]; simpl; [done |].
  destruct (x <? y); [done |]. rewrite IH. apply Permutation_swap.
Qed.

Lemma insertInt_sorted x l :
  StronglySorted Z.le l -> StronglySorted Z.le (insertInt x l).
Proof.
  induction 1 as [| y t Ht IH Hy]; simpl.
  - constructor; constructor.
  - destruct (x <? y) eqn:E.
    + constructor; [by constructor |].
      constructor; [lia |]. eapply Forall_impl; [exact Hy |]. intros z Hz. lia.
    + constructor; [exact IH |].
      rewrite insertInt_perm. constructor; [lia | exact Hy].
Qed.

Lemma sortInts_fold acc l :
  StronglySorted Z.le acc ->
  StronglySorted Z.le (fold_left (fun a x => insertInt x a) l acc)
  /\ fold_left (fun a x => insertInt x a) l acc ≡ₚ acc ++ l.
Proof.
  revert acc. induction l as [| x l IH]; intros acc Hacc; simpl.
  - by rewrite app_nil_r.
  - destruct (IH (insertInt x acc) (insertInt_sorted x acc Hacc)) as [Hs Hp].
    split; [exact Hs |]. rewrite Hp, insertInt_perm.
    simpl. apply Permutation_middle.
Qed.

Lemma sortInts_sorted l : StronglySorted Z.le (sortInts l).
Proof. apply sortInts_fold. constructor. Qed.

Lemma sortInts_perm l : sortInts l ≡ₚ l.
Proof. apply (sortInts_fold [] l). constructor. Qed.


Lemma sortInts_elem l x : x ∈ sortInts l <-> x ∈ l.
Proof. by rewrite sortInts_perm. Qed.

Lemma sorted_strict l :
  StronglySorted Z.le l -> NoDup l -> StronglySorted Z.lt l.
Proof.
  induction 1 as [| y t Ht IH Hy]; intros Hnd; [constructor |].
  apply NoDup_cons in Hnd as [Hnin Hnd]. constructor; [by apply IH |].
  rewrite Forall_forall in Hy |- *. intros z Hz.
  assert (y <> z) by (intros ->; done). specialize (Hy z Hz). lia.
Qed.

Lemma sortInts_strict l : NoDup l -> StronglySorted Z.lt (sortInts l).
Proof.
  intros Hnd. apply sorted_strict; [apply sortInts_sorted |].
  by rewrite sortInts_perm.
Qed.

(** In a strictly sorted list the entries grow with the index. *)
Lemma strict_nth l i j :
  StronglySorted Z.lt l -> (i < j < length l)%nat -> nth i l 0 < nth j l 0.
Proof.
  intros Hs. revert i j. induction Hs as [| y t Ht IH Hy]; intros i j Hij.
  - simpl in Hij. lia.
  - destruct j as [| j]; [lia |]. destruct i as [| i]; simpl.
    + rewrite Forall_forall in Hy. apply Hy. apply list_elem_of_In, nth_In.
      simpl in Hij. lia.
    + apply IH. simpl in Hij. lia.
Qed.



Lemma indexFrom_spec k x l :
  x ∈ l ->
  k <= indexFrom k x l < k + len l
  /\ nth (Z.to_nat (indexFrom k x l - k)) l 0 = x.
Proof.
  revert k. induction l as [| s t IH]; intros k Hx; [by apply elem_of_nil in Hx |].
  simpl. unfold len. simpl length. destruct (s =? x) eqn:E.
  - split; [lia |]. replace (k - k) with 0 by lia. simpl. lia.
  - apply elem_of_cons in Hx as [-> | Hx]; [lia |].
    destruct (IH (k + 1) Hx) as [Hr Hn]. unfold len in Hr. split; [lia |].
    replace (Z.to_nat (indexFrom (k + 1) x t - k))
      with (S (Z.to_nat (indexFrom (k + 1) x t - (k + 1)))) by lia.
    exact Hn.
Qed.

Lemma indexOf_spec x l :
  x ∈ l -> 0 <= indexOf x l < len l /\ at_index l (indexOf x l) = x.
Proof.
  intros Hx. destruct (indexFrom_spec 0 x l Hx) as [Hr Hn]. unfold indexOf, at_index.
  split; [lia |]. by rewrite Z.sub_0_r in Hn.
Qed.

Lemma gomod_small a n : 0 <= a < n -> gomod a n = a.
Proof. intros H. unfold gomod. apply Z.rem_small. lia. Qed.

Lemma gomod_wrap a n : 0 <= a < n -> gomod (a + n) n = a.
Proof.
  intros H. unfold gomod. rewrite Z.rem_mod_nonneg by lia.
  rewrite <- (Z.mul_1_l n) at 1. rewrite Z.mod_add by lia. apply Z.mod_small. lia.
Qed.

(** ** Neighbours in the cyclic order of the active seats *)

Lemma at_index_elem l i : 0 <= i < len l -> at_index l i ∈ l.
Proof.
  intros Hi. unfold at_index, len in *. apply list_elem_of_In, nth_In. lia.
Qed.






(** ** Blind inference *)




(** Scenario S5 evaluated: with active seats 2, 3, 4 and first actor 3,
    inference sets BB to 2 and SB to 4. *)
Example inferBlinds_S5 :
  let p := parseLines "wrld_0" NewParser scenarioS5 in
  exists h, currentHand p = Some h
            /\ ActiveSeats h = [3; 4; 2]
            /\ inferBlindsFromPreflop p (Some h)
               = (Some (set_SBSeat (set_BBSeat h 2) 4), true).
Proof. eexists. split; [vm_compute; reflexivity |]. split; reflexivity. Qed.

(** ** The active seats of a hand in progress *)

Lemma existsb_eqb_elem x (l : list Z) : existsb (Z.eqb x) l = true <-> x ∈ l.
Proof.
  rewrite existsb_exists. split.
  - intros (y & Hy & E). apply Z.eqb_eq in E as ->. by apply list_elem_of_In.
  - intros Hx. exists x. split; [by apply list_elem_of_In | apply Z.eqb_refl].
Qed.

Lemma ensurePlayer_seats x h :
  seatsWF h ->
  seatsWF (ensurePlayer x h)
  /\ x ∈ ActiveSeats (ensurePlayer x h)
  /\ (forall s, s ∈ ActiveSeats h -> s ∈ ActiveSeats (ensurePlayer x h)).
Proof.
  intros [Hnd Hdom]. unfold ensurePlayer.
  destruct (Players h !! x) as [pi |] eqn:Hl.
  { split; [by split |]. split; [apply Hdom; by rewrite Hl | done]. }
  assert (Hdom' : forall s, is_Some (<[x := newPlayer x]> (Players h) !! s) ->
                            s = x \/ s ∈ ActiveSeats h).
  { intros s. destruct (decide (x = s)) as [-> | Hne]; [by left |].
    rewrite lookup_insert_ne by done. intros Hs. right. by apply Hdom. }
  destruct (existsb _ _) eqn:E; simpl.
  - apply existsb_eqb_elem in E. simpl in E.
    split; [split; [done |] |].
    + simpl. intros s Hs. destruct (Hdom' s Hs) as [-> | Hin]; done.
    + by split.
  - assert (Hnin : x ∉ ActiveSeats h).
    { intros Hin. apply existsb_eqb_elem in Hin. simpl in E. congruence. }
    split; [split |].
    + apply NoDup_app. split; [done |]. split; [| apply NoDup_singleton].
      intros s Hs Hs'. apply list_elem_of_singleton in Hs' as ->. done.
    + intros s Hs. apply elem_of_app.
      destruct (Hdom' s Hs) as [-> | Hin]; [right; apply list_elem_of_here | by left].
    + split; [apply elem_of_app; right; apply list_elem_of_here |].
      intros s Hs. apply elem_of_app. by left.
Qed.

Lemma updPlayer_seats s f h : seatsWF h -> seatsWF (updPlayer s f h).
Proof.
  intros [Hnd Hdom]. split; [done |]. intros s' Hs'. apply Hdom.
  rewrite updPlayer_lookup in Hs'.
  destruct (decide (s = s')) as [<- | Hne]; [| done].
  destruct (Players h !! s); [done |]. simpl in Hs'. by destruct Hs'.
Qed.

Lemma ensurePlayer_WF x h : seatsWF h -> seatsWF (ensurePlayer x h).
Proof. intros H. by apply ensurePlayer_seats. Qed.

Lemma ensurePlayer_mem x h : seatsWF h -> x ∈ ActiveSeats (ensurePlayer x h).
Proof. intros H. by destruct (ensurePlayer_seats x h H) as (_ & Hm & _). Qed.

Lemma ensurePlayer_mono x h s :
  seatsWF h -> s ∈ ActiveSeats h -> s ∈ ActiveSeats (ensurePlayer x h).
Proof.
  intros H Hs. destruct (ensurePlayer_seats x h H) as (_ & _ & Hm). by apply Hm.
Qed.

Lemma SeatsOK_WF p h : SeatsOK p h -> seatsWF h.
Proof. intros (? & ? & _). by split. Qed.

(** The hand grows, the blinds are as before, and voluntary actions by
    active seats are appended to the buffer. *)
Lemma SeatsOK_voluntary p h p' h' extra :
  SeatsOK p h -> seatsWF h' ->
  (forall s, s ∈ ActiveSeats h -> s ∈ ActiveSeats h') ->
  SBSeat h' = SBSeat h -> BBSeat h' = BBSeat h ->
  pfActions p' = pfActions p ++ extra ->
  Forall (fun a => 0 <= seatID a /\ seatID a ∈ ActiveSeats h'
                   /\ isVoluntary (action a) = true) extra ->
  SeatsOK p' h'.
Proof.
  intros (Hnd & Hdom & Hpf & Hsb & Hbb & Hvol) [Hnd' Hdom'] Hmono Esb Ebb Epf Hex.
  unfold SeatsOK. rewrite Esb, Ebb, Epf.
  split; [done |]. split; [done |]. split; [| split; [| split]].
  - apply Forall_app. split.
    + eapply Forall_impl; [exact Hpf |]. intros a [? ?]. split; [done | by apply Hmono].
    + eapply Forall_impl; [exact Hex |]. by intros a (? & ? & _).
  - destruct Hsb as [? | [? ?]]; [by left | right; split; [done | by apply Hmono]].
  - destruct Hbb as [? | [? ?]]; [by left | right; split; [done | by apply Hmono]].
  - intros H1 H2. apply Forall_app. split; [by apply Hvol |].
    eapply Forall_impl; [exact Hex |]. by intros a (_ & _ & ?).
Qed.

(** A blind is posted by seat [x]. *)
Lemma SeatsOK_blind p h p' h' x k a :
  SeatsOK p h -> seatsWF h' ->
  (forall s, s ∈ ActiveSeats h -> s ∈ ActiveSeats h') ->
  0 <= x -> x ∈ ActiveSeats h' ->
  (SBSeat h' = x /\ BBSeat h' = BBSeat h) \/ (BBSeat h' = x /\ SBSeat h' = SBSeat h) ->
  pfActions p' = pfActions p ++ [mkPfAction x k a] ->
  SeatsOK p' h'.
Proof.
  intros (Hnd & Hdom & Hpf & Hsb & Hbb & Hvol) [Hnd' Hdom'] Hmono Hx Hin E Epf.
  unfold SeatsOK. rewrite Epf.
  assert (Hpf' : Forall (fun a => 0 <= seatID a /\ seatID a ∈ ActiveSeats h')
                   (pfActions p ++ [mkPfAction x k a])).
  { apply Forall_app. split.
    - eapply Forall_impl; [exact Hpf |]. intros b [? ?]. split; [done | by apply Hmono].
    - constructor; [by split | constructor]. }
  split; [done |]. split; [done |]. split; [exact Hpf' |].
  destruct E as [[E1 E2] | [E1 E2]]; rewrite E1, E2.
  - split; [right; by split |]. split; [| lia].
    destruct Hbb as [? | [? ?]]; [by left | right; split; [done | by apply Hmono]].
  - split; [| split; [right; by split | lia]].
    destruct Hsb as [? | [? ?]]; [by left | right; split; [done | by apply Hmono]].
Qed.

Lemma isVoluntary_classify p seat a : isVoluntary (classifyAction p seat a) = true.
Proof.
  rewrite classifyAction_spec.
  destruct (a =? 0); [done |]. destruct (streetBetAmount p =? 0); [done |].
  by destruct (a >? streetBetAmount p).
Qed.

Ltac seats_wf :=
  repeat first
    [ assumption
    | apply updPlayer_seats
    | apply ensurePlayer_WF
    | match goal with |- seatsWF (?f ?h ?v) => change (seatsWF h) end ].

Ltac seats_mono :=
  let s := fresh "s" in
  let Hs := fresh "Hs" in
  intros s Hs; simpl; autorewrite with hand; simpl;
  repeat (apply ensurePlayer_mono; [seats_wf |]; autorewrite with hand);
  exact Hs.

Lemma handleEvent_SeatsOK ts msg p h :
  currentHand p = Some h -> SeatsOK p h ->
  exists h', currentHand (handleEvent ts msg p h) = Some h'
             /\ SeatsOK (handleEvent ts msg p h) h'.
Proof.
  intros Hh Hok. pose proof (SeatsOK_WF p h Hok) as Hwf.
  unfold handleEvent.
  destruct msg; try rewrite parseCards_spec; try rewrite parseCard_spec;
    cbv beta iota zeta; unfold raiseStreetBet, appendAction, assignLocalCards;
    repeat case_match; simpl; rewrite ?Hh;
    (eexists; split; [reflexivity |]).
  all: try exact Hok.
  all: try (eapply (SeatsOK_voluntary p h _ _ []);
            [ exact Hok | seats_wf | seats_mono
            | simpl; by autorewrite with hand | simpl; by autorewrite with hand
            | simpl; by rewrite app_nil_r | constructor ]).
  all: try (eapply (SeatsOK_voluntary p h);
            [ exact Hok | seats_wf | seats_mono
            | by autorewrite with hand | by autorewrite with hand
            | reflexivity
            | constructor; [| constructor]; simpl;
              (split; [apply Atoi_nonneg |]);
              (split; [autorewrite with hand; apply ensurePlayer_mem; seats_wf
                      | first [reflexivity | apply isVoluntary_classify]]) ]).
  all: try (eapply (SeatsOK_blind p h);
            [ exact Hok | seats_wf | seats_mono
            | apply Atoi_nonneg
            | autorewrite with hand; apply ensurePlayer_mem; seats_wf
            | autorewrite with hand; simpl; first [by left | by right]
            | reflexivity ]).
Qed.

Lemma finalizeCurrentHand_current p : currentHand (finalizeCurrentHand p) = None.
Proof.
  unfold finalizeCurrentHand. destruct (currentHand p) as [h |] eqn:Hh; [| done].
  destruct (finalizeHand p h) as [p2 h2].
  destruct (LocalPlayerSeat h2 >=? 0); [destruct (Players h2 !! LocalPlayerSeat h2) |];
    reflexivity.
Qed.

Lemma startNewHand_SeatsInv ts p : SeatsInv (startNewHand ts p).
Proof.
  unfold SeatsInv, SeatsOK, startNewHand. simpl.
  split; [constructor |]. split.
  { intros s Hs. rewrite lookup_empty in Hs. by destruct Hs. }
  split; [constructor |]. split; [by left |]. split; [by left |]. constructor.
Qed.

Lemma processPokerEvent_SeatsInv ts msg p :
  SeatsInv p -> SeatsInv (processPokerEvent ts msg p).
Proof.
  intros HI. unfold processPokerEvent.
  assert (Hnew : SeatsInv (startNewHand ts (finalizeCurrentHand p)))
    by apply startNewHand_SeatsInv.
  unfold SeatsInv in HI.
  destruct (currentHand p) as [h |] eqn:Hh.
  - destruct msg; try exact Hnew;
      match goal with
      | |- SeatsInv (handleEvent ?ts ?m p h) =>
          destruct (handleEvent_SeatsOK ts m p h Hh HI) as (h' & E & Hok);
          unfold SeatsInv; by rewrite E
      end.
  - destruct msg; try exact Hnew; unfold SeatsInv; by rewrite Hh.
Qed.



(** The steps of finalization that precede position assignment keep
    [SeatsOK]: they only add player records. *)
Lemma SeatsOK_grow p h p' h' :
  SeatsOK p h -> seatsWF h' ->
  (forall s, s ∈ ActiveSeats h -> s ∈ ActiveSeats h') ->
  SBSeat h' = SBSeat h -> BBSeat h' = BBSeat h -> pfActions p' = pfActions p ->
  SeatsOK p' h'.
Proof.
  intros Hok Hwf Hmono Esb Ebb Epf.
  apply (SeatsOK_voluntary p h p' h' []); try done.
  by rewrite app_nil_r.
Qed.

Lemma preAssign_SeatsOK p h :
  SeatsOK p h -> SeatsOK (preAssign p h).1 (preAssign p h).2.
Proof.
  intros Hok. pose proof (SeatsOK_WF p h Hok) as Hwf. unfold preAssign.
  destruct (pendingLocalCards p); [| done].
  destruct (_ >=? 0); [| done]. unfold assignLocalCards. simpl.
  eapply (SeatsOK_grow p h); [exact Hok | seats_wf | seats_mono | | | ];
    simpl; by autorewrite with hand.
Qed.

Lemma fold_applyWinner_SeatsOK pws p t h :
  SeatsOK p h -> SeatsOK p (fold_left applyWinner pws (t, h)).2.
Proof.
  revert t h. induction pws as [| pw rest IH]; intros t h Hok; [done |].
  simpl. apply IH. pose proof (SeatsOK_WF p h Hok) as Hwf.
  eapply (SeatsOK_grow p h); [exact Hok | seats_wf | seats_mono | | | ];
    simpl; by autorewrite with hand.
Qed.

(** ** The earlier pass of the parser file, for comparison *)

Lemma pfrOf_updPlayer seat f h s :
  (forall pi, PFR pi = true -> PFR (f pi) = true) ->
  pfrOf h s = true -> pfrOf (updPlayer seat f h) s = true.
Proof.
  intros Hf. unfold pfrOf. rewrite updPlayer_lookup.
  destruct (decide (seat = s)) as [<- | Hne]; [| done].
  destruct (Players h !! seat) as [pi |]; simpl; [apply Hf | done].
Qed.

Lemma marks_updPlayer seat f h :
  (forall pi, (FoldTo3Bet pi = true -> PFR pi = true) ->
              FoldTo3Bet (f pi) = true -> PFR (f pi) = true) ->
  (forall s pi, Players h !! s = Some pi -> FoldTo3Bet pi = true -> PFR pi = true) ->
  forall s pi, Players (updPlayer seat f h) !! s = Some pi ->
               FoldTo3Bet pi = true -> PFR pi = true.
Proof.
  intros Hf Hh s pi. rewrite updPlayer_lookup.
  destruct (decide (seat = s)) as [<- | Hne]; [| apply Hh].
  destruct (Players h !! seat) as [pi0 |] eqn:Hl; simpl; [| done].
  intros [= <-]. apply Hf. by apply (Hh seat).
Qed.

Lemma passStep_openerOK st act :
  openerOK st -> openerOK (ParserFile.passStep st act).
Proof.
  intros (Hop & Hmk & Hl). unfold ParserFile.passStep.
  destruct (Players (ParserFile.passHand st) !! seatID act) as [pi0 |] eqn:Hpl;
    [| by repeat split].
  destruct (action act); try (by repeat split).
  - (* call *)
    destruct (_ || _); [| destruct (_ && _); [| by repeat split]];
      (split; [| split]); cbn -[updPlayer pfrOf]; try done;
      try (intros H2; apply pfrOf_updPlayer; [done | by apply Hop]);
      apply marks_updPlayer; try done.
  - (* bet *)
    destruct (decide (ParserFile.level st + 1 = 2)) as [E | E].
    + rewrite E. split; [| split]; cbn -[updPlayer pfrOf]; try lia.
      * intros _. unfold pfrOf. rewrite updPlayer_lookup.
        destruct (decide (seatID act = seatID act)); [| done]. by rewrite Hpl.
      * apply marks_updPlayer; done.
    + assert (Hge : 2 <= ParserFile.level st) by lia.
      destruct (ParserFile.level st + 1) as [| [q | q |] |] eqn:El; try lia;
        try destruct q as [q | q |]; try destruct q;
        (split; [| split]); cbn -[updPlayer pfrOf]; try lia;
        try (intros _; apply pfrOf_updPlayer; [done | by apply Hop]);
        apply marks_updPlayer; done.
  - (* raise *)
    destruct (decide (ParserFile.level st + 1 = 2)) as [E | E].
    + rewrite E. split; [| split]; cbn -[updPlayer pfrOf]; try lia.
      * intros _. unfold pfrOf. rewrite updPlayer_lookup.
        destruct (decide (seatID act = seatID act)); [| done]. by rewrite Hpl.
      * apply marks_updPlayer; done.
    + assert (Hge : 2 <= ParserFile.level st) by lia.
      destruct (ParserFile.level st + 1) as [| [q | q |] |] eqn:El; try lia;
        try destruct q as [q | q |]; try destruct q;
        (split; [| split]); cbn -[updPlayer pfrOf]; try lia;
        try (intros _; apply pfrOf_updPlayer; [done | by apply Hop]);
        apply marks_updPlayer; done.
  - (* all-in *)
    destruct (decide (ParserFile.level st + 1 = 2)) as [E | E].
    + rewrite E. split; [| split]; cbn -[updPlayer pfrOf]; try lia.
      * intros _. unfold pfrOf. rewrite updPlayer_lookup.
        destruct (decide (seatID act = seatID act)); [| done]. by rewrite Hpl.
      * apply marks_updPlayer; done.
    + assert (Hge : 2 <= ParserFile.level st) by lia.
      destruct (ParserFile.level st + 1) as [| [q | q |] |] eqn:El; try lia;
        try destruct q as [q | q |]; try destruct q;
        (split; [| split]); cbn -[updPlayer pfrOf]; try lia;
        try (intros _; apply pfrOf_updPlayer; [done | by apply Hop]);
        apply marks_updPlayer; done.
  - (* fold *)
    destruct (_ && _) eqn:E; [| by repeat split].
    apply andb_prop in E as [E1 E2].
    assert (Hs : seatID act = ParserFile.firstRaiserSeat st) by lia.
    assert (Hp : pfrOf (ParserFile.passHand st) (seatID act) = true)
      by (rewrite Hs; apply Hop; lia).
    split; [| split]; cbn -[updPlayer pfrOf]; try done.
    + intros H2. apply pfrOf_updPlayer; [done | by apply Hop].
    + intros s pi. rewrite updPlayer_lookup.
      destruct (decide (seatID act = s)) as [<- | Hne]; [| apply Hmk].
      unfold pfrOf in Hp. rewrite Hpl in Hp |- *. cbn -[updPlayer pfrOf] in *. by intros [= <-].
Qed.

(** The earlier pass marks fold-to-3-bet on seats with PFR only. *)
Lemma earlier_pass_fold_implies_PFR p h :
  (forall s pi, Players h !! s = Some pi -> FoldTo3Bet pi = true -> PFR pi = true) ->
  forall s pi,
    Players (ParserFile.calculatePreflopStats p h) !! s = Some pi ->
    FoldTo3Bet pi = true -> PFR pi = true.
Proof.
  intros Hh. unfold ParserFile.calculatePreflopStats.
  destruct (len (pfActions p) =? 0); [exact Hh |].
  assert (H0 : openerOK (ParserFile.mkPassState 1 (-1) h)).
  { split; [| split]; cbn; [lia | exact Hh | lia]. }
  revert H0. generalize (ParserFile.mkPassState 1 (-1) h).
  induction (pfActions p) as [| act rest IH]; intros st Hst.
  - by destruct Hst as (_ & Hmk & _).
  - simpl. apply IH. by apply passStep_openerOK.
Qed.

(** The earlier pass at the hands of scenarios S2 and S6 and of the
    fold to a four-bet: in S2 seat 4 is the opener (PFR) and its fold
    is marked; the three-bettor folding to a four-bet is not marked; in
    S6 the SB's completion is counted as VPIP. *)
Example earlier_pass_on_scenarios :
  (let p := parseLines "wrld_0" NewParser scenarioS2 in
   (fun h => flagsOf (ParserFile.calculatePreflopStats p h) 4) <$> currentHand p
   = Some (Some (true, false, true)))
  /\ (let p := parseLines "wrld_0" NewParser foldToFourBet in
      (fun h => flagsOf (ParserFile.calculatePreflopStats p h) 5) <$> currentHand p
      = Some (Some (false, true, false)))
  /\ (let p := parseLines "wrld_0" NewParser scenarioS6 in
      (fun h => vpipOf (ParserFile.calculatePreflopStats p h) 2) <$> currentHand p
      = Some true).
Proof. vm_compute. repeat split. Qed.

(** ** Comparison of card lists *)

Lemma cardsMatchLoop_eq (a b : list Card) :
  length a = length b -> (cardsMatchLoop a b = true <-> a = b).
Proof.
  revert b. induction a as [| x a IH]; intros [| y b] Hlen; try done.
  simpl in Hlen. injection Hlen as Hlen. simpl.
  destruct (String.eqb (Rank x) (Rank y)) eqn:Er; simpl.
  - destruct (String.eqb (Suit x) (Suit y)) eqn:Es; simpl.
    + apply String.eqb_eq in Er, Es. rewrite (IH b Hlen). split.
      * intros ->. destruct x as [rx sx], y as [ry sy]. simpl in *. by subst.
      * by intros [= _ ->].
    + apply String.eqb_neq in Es. split; [done |]. intros [= -> _]. done.
  - apply String.eqb_neq in Er. split; [done |]. intros [= -> _]. done.
Qed.

(** X1: [cardsMatch] holds exactly of equal card lists: the same cards
    in the same order. *)
Theorem cardsMatch_iff_eq (a b : list Card) : cardsMatch a b = true <-> a = b.
Proof.
  unfold cardsMatch.
  destruct (length a =? length b)%nat eqn:E; simpl.
  - apply Nat.eqb_eq in E. by apply cardsMatchLoop_eq.
  - apply Nat.eqb_neq in E. split; [done |]. intros ->. done.
Qed.

(** X2: [sortInts] returns its input in ascending order: the result is
    sorted and holds the same seats with the same multiplicities. *)
Theorem sortInts_sorted_permutation (l : list Z) :
  StronglySorted Z.le (sortInts l) /\ sortInts l ≡ₚ l.
Proof. split; [apply sortInts_sorted | apply sortInts_perm]. Qed.

(** ** The card decoder on well-formed tokens *)

Lemma existsb_eqb_cases (s : string) (l : list string) :
  existsb (String.eqb s) l = true -> In s l.
Proof.
  rewrite existsb_exists. intros (x & Hin & E). apply String.eqb_eq in E. by subst.
Qed.

(** X3: the decoder is sound and complete on the 52 cards: a rank
    followed by a suit decodes to that card, and whatever [parseCard]
    returns is the empty card or a card with a valid rank and a valid
    suit. *)
Theorem parseCard_round_trip :
  (forall r s, validRanks r = true -> validSuits s = true ->
               parseCard (r ++ s) = (mkCard r s, ErrNil))
  /\ (forall t, (parseCard t).1 = emptyCard
                \/ (validRanks (Rank (parseCard t).1) = true
                    /\ validSuits (Suit (parseCard t).1) = true)).
Proof.
  split.
  - intros r s Hr Hs. apply existsb_eqb_cases in Hr, Hs. simpl in Hr, Hs.
    repeat (destruct Hr as [<- | Hr]); try done;
      repeat (destruct Hs as [<- | Hs]); try done; vm_compute; reflexivity.
  - intros t. unfold parseCard.
    destruct (String.length (TrimSpace t) <? 2)%nat; [by left |].
    destruct (lastByte (TrimSpace t)) as [b |]; [| by left].
    destruct (validSuits (stringOfByte b)) eqn:Es; simpl; [| by left].
    destruct (validRanks (dropLast (TrimSpace t))) eqn:Er; simpl; [| by left].
    right. by split.
Qed.

Lemma parseCard_round_trip_witness :
  parseCard ("10" ++ "h") = (mkCard "10" "h", ErrNil).
Proof. apply (proj1 parseCard_round_trip); reflexivity. Defined.

(** ** The position table *)

(** From nine seats on, [positionOrder] is its default branch. *)
Lemma positionOrder_default (n : Z) :
  9 <= n ->
  positionOrder n =
  <[Z.to_nat (n - 3) := PosMP]>
    (<[Z.to_nat (n - 2) := PosCO]>
       (<[Z.to_nat (n - 1) := PosBTN]>
          (<[1%nat := PosBB]> (<[0%nat := PosSB]> (replicate (Z.to_nat n) PosUnknown))))).
Proof.
  intros Hn. unfold positionOrder.
  assert (E1 : (n >? 1) = true) by lia. assert (E2 : (n >? 2) = true) by lia.
  assert (E3 : (n >? 3) = true) by lia. assert (E4 : (n >? 4) = true) by lia.
  rewrite E1, E2, E3, E4.
  destruct n as [| q | q]; try lia.
  destruct q as [[[q | q |] | [q | q |] |] | [[q | q |] | [q | q |] |] |];
    try lia; try reflexivity.
  destruct q; try lia; reflexivity.
Qed.

Lemma positionOrder_default_lookup (n : Z) (i : nat) :
  9 <= n ->
  positionOrder n !! i =
  if decide (i = Z.to_nat (n - 3)) then Some PosMP
  else if decide (i = Z.to_nat (n - 2)) then Some PosCO
  else if decide (i = Z.to_nat (n - 1)) then Some PosBTN
  else if decide (i = 1%nat) then Some PosBB
  else if decide (i = 0%nat) then Some PosSB
  else if decide (i < Z.to_nat n)%nat then Some PosUnknown
  else None.
Proof.
  intros Hn. rewrite positionOrder_default by done.
  set (r0 := replicate (Z.to_nat n) PosUnknown).
  assert (L0 : length r0 = Z.to_nat n) by apply length_replicate.
  repeat match goal with
  | |- context [decide (i = ?k)] =>
      destruct (decide (i = k)) as [-> | ?];
      [ rewrite list_lookup_insert_eq; [reflexivity | rewrite ?length_insert, L0; lia]
      | rewrite list_lookup_insert_ne by done ]
  end.
  destruct (decide (i < Z.to_nat n)%nat) as [Hlt | Hge].
  - unfold r0. by rewrite lookup_replicate_2.
  - apply lookup_ge_None. lia.
Qed.

Lemma positionOrder_small (n : Z) :
  1 <= n <= 8 ->
  n = 1 \/ n = 2 \/ n = 3 \/ n = 4 \/ n = 5 \/ n = 6 \/ n = 7 \/ n = 8.
Proof. lia. Qed.

Ltac small_tables H :=
  destruct (positionOrder_small _ H) as [-> |[-> |[-> |[-> |[-> |[-> |[-> | ->]]]]]]].

(** X4: for [n >= 1] seats the position table has one entry per seat,
    starts with the small blind, names the big blind second from three
    seats on and the button last from two seats on, gives no named
    position to two seats, and leaves no seat unnamed up to eight
    seats. *)
Theorem positionOrder_table (n : Z) :
  1 <= n ->
  len (positionOrder n) = n
  /\ positionOrder n !! 0%nat = Some PosSB
  /\ (3 <= n -> positionOrder n !! 1%nat = Some PosBB)
  /\ (2 <= n -> positionOrder n !! Z.to_nat (n - 1) = Some PosBTN)
  /\ (forall i j pos,
         positionOrder n !! i = Some pos -> positionOrder n !! j = Some pos ->
         pos <> PosUnknown -> i = j)
  /\ (n <= 8 -> PosUnknown ∉ positionOrder n).
Proof.
  intros Hn. destruct (decide (n <= 8)) as [Hs | Hb].
  - assert (H : 1 <= n <= 8) by lia. clear Hn Hs.
    small_tables H; (split; [reflexivity |]); (split; [reflexivity |]);
      (split; [intros; first [reflexivity | lia] |]);
      (split; [intros; first [reflexivity | lia] |]); (split; [| intros _]).
    all: try (intros i j pos Hi Hj Hp;
              do 9 (try destruct i as [| i]); simpl in Hi; try done;
              injection Hi as <-;
              do 9 (try destruct j as [| j]); simpl in Hj; done).
    all: intros Hin; apply list_elem_of_In in Hin; vm_compute in Hin;
         intuition discriminate.
  - assert (H9 : 9 <= n) by lia.
    split; [unfold len; rewrite positionOrder_default by done;
            rewrite !length_insert, length_replicate; lia |].
    split; [rewrite positionOrder_default_lookup by done;
            repeat (destruct (decide _); try lia); reflexivity |].
    split; [intros _; rewrite positionOrder_default_lookup by done;
            repeat (destruct (decide _); try lia); reflexivity |].
    split; [intros _; rewrite positionOrder_default_lookup by done;
            repeat (destruct (decide _); try lia); reflexivity |].
    split; [| lia].
    intros i j pos. rewrite !positionOrder_default_lookup by done.
    repeat (destruct (decide _)); intros Hi Hj Hp; try lia; congruence.
Qed.

Lemma positionOrder_table_witness :
  len (positionOrder 6) = 6 /\ positionOrder 6 !! 0%nat = Some PosSB.
Proof.
  destruct (positionOrder_table 6 ltac:(lia)) as (H1 & H2 & _). by split.
Defined.

(** ** Position assignment *)

(** The loop of [assignPositions] over seats that are pairwise
    distinct: the seat at offset [k] receives the entry [i + k] of the
    table, and no other record is touched. *)
Lemma assignLoop_lookup (rotated : list Z) (positions : list Position) :
  NoDup rotated ->
  forall (i : nat) (h : Hand),
    (forall k s pos,
        rotated !! k = Some s -> positions !! (i + k)%nat = Some pos ->
        Players (assignLoop i rotated positions h) !! s
        = (fun pi => set_PPosition pi pos) <$> Players h !! s)
    /\ (forall s, s ∉ rotated ->
                  Players (assignLoop i rotated positions h) !! s = Players h !! s).
Proof.
  induction 1 as [| seat rest Hnin Hnd IH]; intros i h.
  { split; [intros k s pos Hk; by rewrite lookup_nil in Hk | done]. }
  simpl.
  set (h1 := match Players h !! seat with
             | Some _ => match positions !! i with
                         | Some pos => updPlayer seat (fun pi => set_PPosition pi pos) h
                         | None => h
                         end
             | None => h
             end).
  destruct (IH (S i) h1) as [IHin IHout].
  assert (Hother : forall s, s <> seat -> Players h1 !! s = Players h !! s).
  { intros s Hs. unfold h1. destruct (Players h !! seat); [| done].
    destruct (positions !! i); [| done].
    rewrite updPlayer_lookup. by destruct (decide (seat = s)) as [-> |]. }
  split.
  - intros k s pos Hk Hpos. destruct k as [| k]; simpl in Hk.
    + injection Hk as ->. rewrite IHout by done.
      rewrite Nat.add_0_r in Hpos. unfold h1. rewrite Hpos.
      destruct (Players h !! s) eqn:E; [| by rewrite E].
      rewrite updPlayer_lookup. rewrite decide_True by done. by rewrite E.
    + assert (Hin : s ∈ rest) by (eapply list_elem_of_lookup_2; exact Hk).
      rewrite (IHin k s pos Hk) by (by rewrite <- Nat.add_succ_comm in Hpos).
      rewrite Hother; [done |]. intros ->. done.
  - intros s Hs. apply not_elem_of_cons in Hs as [Hne Hs].
    rewrite IHout by done. by apply Hother.
Qed.

(** The seat at offset [k] of the rotation that starts at index [sb]. *)
Lemma rotation_lookup (seats : list Z) (sb k : nat) :
  (sb < length seats)%nat -> (k < length seats)%nat ->
  (drop sb seats ++ take sb seats) !! k
  = Some (at_index seats (gomod (Z.of_nat sb + Z.of_nat k) (len seats))).
Proof.
  intros Hsb Hk. unfold at_index, gomod, len.
  destruct (decide (sb + k < length seats)%nat) as [Hlt | Hge].
  - rewrite lookup_app_l by (rewrite length_drop; lia).
    rewrite lookup_drop. rewrite Z.rem_small by lia.
    replace (Z.to_nat (Z.of_nat sb + Z.of_nat k)) with (sb + k)%nat by lia.
    destruct (seats !! (sb + k)%nat) as [x |] eqn:E.
    + f_equal. symmetry. by apply nth_lookup_Some.
    + apply lookup_ge_None in E. lia.
  - rewrite lookup_app_r by (rewrite length_drop; lia).
    rewrite length_drop. rewrite lookup_take_lt by lia.
    assert (Er : Z.rem (Z.of_nat sb + Z.of_nat k) (Z.of_nat (length seats))
                 = Z.of_nat sb + Z.of_nat k - Z.of_nat (length seats)).
    { rewrite Z.rem_mod_nonneg by lia.
      symmetry. apply Z.mod_unique_pos with (q := 1); lia. }
    rewrite Er.
    replace (Z.to_nat (Z.of_nat sb + Z.of_nat k - Z.of_nat (length seats)))
      with (k - (length seats - sb))%nat by lia.
    destruct (seats !! (k - (length seats - sb))%nat) as [x |] eqn:E.
    + f_equal. symmetry. by apply nth_lookup_Some.
    + apply lookup_ge_None in E. lia.
Qed.

Lemma indexFrom_found (i x : Z) (l : list Z) :
  0 <= i -> 0 <= indexFrom i x l -> x ∈ l.
Proof.
  revert i. induction l as [| y t IH]; intros i Hi; simpl; [lia |].
  destruct (y =? x) eqn:E.
  - apply Z.eqb_eq in E as ->. intros _. apply list_elem_of_here.
  - intros H. apply list_elem_of_further. apply (IH (i + 1)); [lia | done].
Qed.

Lemma positionOrder_len (n : Z) : 1 <= n -> len (positionOrder n) = n.
Proof.
  intros Hn. destruct (decide (n <= 8)) as [Hs | Hb].
  - assert (H : 1 <= n <= 8) by lia. small_tables H; reflexivity.
  - unfold len. rewrite positionOrder_default by lia.
    rewrite !length_insert, length_replicate. lia.
Qed.

(** X5: [assignPositions] on a hand with pairwise distinct active
    seats.  With a blind missing, or a small blind that is not an
    active seat, the hand is returned as it is.  Otherwise the seat [k]
    places after the small blind in ascending cyclic seat order
    receives entry [k] of the position table, so the small-blind seat
    is labelled SB; records of other seats and all other fields of the
    hand stay as they are. *)
Theorem assignPositions_by_rotation (h : Hand) :
  NoDup (ActiveSeats h) ->
  let seats := sortInts (ActiveSeats h) in
  let n := len seats in
  let sb := indexOf (SBSeat h) seats in
  (SBSeat h < 0 \/ BBSeat h < 0 \/ SBSeat h ∉ ActiveSeats h ->
   assignPositions h = h)
  /\ (0 <= SBSeat h -> 0 <= BBSeat h -> SBSeat h ∈ ActiveSeats h ->
      (forall k, 0 <= k < n ->
         exists pos,
           positionOrder n !! Z.to_nat k = Some pos
           /\ let s := at_index seats (gomod (sb + k) n) in
              Players (assignPositions h) !! s
              = (fun pi => set_PPosition pi pos) <$> Players h !! s)
      /\ Players (assignPositions h) !! SBSeat h
         = (fun pi => set_PPosition pi PosSB) <$> Players h !! SBSeat h
      /\ (forall s, s ∉ ActiveSeats h ->
                    Players (assignPositions h) !! s = Players h !! s)
      /\ assignPositions h = set_Players h (Players (assignPositions h))).
Proof.
  intros Hnd seats n sb. split.
  - intros Hcase. unfold assignPositions.
    destruct (SBSeat h <? 0) eqn:E1; [done |].
    destruct (BBSeat h <? 0) eqn:E2; [done |]. simpl.
    destruct Hcase as [? | [? | Hnin]]; try lia.
    fold seats. fold sb.
    destruct (sb <? 0) eqn:E3; [done |].
    exfalso. apply Hnin. apply (sortInts_elem (ActiveSeats h)).
    apply (indexFrom_found 0); [done |]. apply Z.ltb_ge in E3. exact E3.
  - intros Hsb Hbb Hin.
    assert (Hin' : SBSeat h ∈ seats) by by apply sortInts_elem.
    destruct (indexOf_spec _ _ Hin') as [Hrange Hat].
    change (0 <= sb < Z.of_nat (length seats)) in Hrange.
    change (at_index seats sb = SBSeat h) in Hat.
    assert (Hn : n = Z.of_nat (length seats)) by reflexivity.
    assert (Hlen : (Z.to_nat sb < length seats)%nat) by lia.
    set (rotated := drop (Z.to_nat sb) seats ++ take (Z.to_nat sb) seats).
    assert (Hperm : rotated ≡ₚ seats).
    { unfold rotated. rewrite Permutation_app_comm. by rewrite take_drop. }
    assert (Hnd' : NoDup rotated).
    { rewrite Hperm. unfold seats. by rewrite sortInts_perm. }
    assert (Hrl : len rotated = n).
    { rewrite Hn. unfold len. f_equal. by apply Permutation_length. }
    assert (E : assignPositions h = assignLoop 0 rotated (positionOrder n) h).
    { unfold assignPositions.
      destruct (SBSeat h <? 0) eqn:E1; [lia |].
      destruct (BBSeat h <? 0) eqn:E2; [lia |]. simpl.
      fold seats. fold sb. destruct (sb <? 0) eqn:E3; [lia |].
      fold rotated. by rewrite Hrl. }
    destruct (assignLoop_lookup rotated (positionOrder n) Hnd' 0%nat h) as [Lin Lout].
    assert (Hn1 : 1 <= n) by lia.
    pose proof (positionOrder_len n Hn1) as Hpl.
    assert (Hk : forall k, 0 <= k < n ->
              exists pos,
                positionOrder n !! Z.to_nat k = Some pos
                /\ Players (assignPositions h) !! at_index seats (gomod (sb + k) n)
                   = (fun pi => set_PPosition pi pos)
                       <$> Players h !! at_index seats (gomod (sb + k) n)).
    { intros k Hk.
      destruct (positionOrder n !! Z.to_nat k) as [pos |] eqn:Ep.
      2: { apply lookup_ge_None in Ep. unfold len in Hpl. lia. }
      exists pos. split; [done |]. rewrite E.
      apply (Lin (Z.to_nat k)); [| done].
      unfold rotated. rewrite rotation_lookup by lia.
      do 3 f_equal. lia. }
    split; [exact Hk |]. split; [| split].
    + destruct (Hk 0 ltac:(lia)) as (pos & Ep & El).
      assert (pos = PosSB) as ->.
      { destruct (decide (n <= 8)) as [Hs | Hb].
        - assert (H : 1 <= n <= 8) by lia. revert Ep. generalize n H. clear.
          intros n H. small_tables H; by intros [= <-].
        - rewrite positionOrder_default_lookup in Ep by lia.
          repeat (destruct (decide _) in Ep; try lia). by injection Ep as <-. }
      rewrite Z.add_0_r, gomod_small, Hat in El by lia. exact El.
    + intros s Hs. rewrite E. apply Lout. rewrite Hperm.
      intros Hs'. apply Hs. by apply (sortInts_elem (ActiveSeats h)).
    + destruct (assignPositions_sameCore h) as (m & Em & _).
      rewrite Em. reflexivity.
Qed.

Lemma assignPositions_by_rotation_witness :
  Players (assignPositions (pfHand witnessState)) !! 2
  = (fun pi => set_PPosition pi PosSB) <$> Players (pfHand witnessState) !! 2.
Proof.
  assert (Hnd : NoDup (ActiveSeats (pfHand witnessState))).
  { apply NoDup_cons. split; [| apply NoDup_singleton].
    intros H. apply list_elem_of_singleton in H. discriminate H. }
  destruct (assignPositions_by_rotation (pfHand witnessState) Hnd) as [_ H].
  destruct H as (_ & H & _); [simpl; lia | simpl; lia | apply list_elem_of_here |].
  exact H.
Defined.

(** ** What blind inference never does *)

Lemma at_index_inj (l : list Z) (i j : Z) :
  StronglySorted Z.lt l -> 0 <= i < len l -> 0 <= j < len l ->
  at_index l i = at_index l j -> i = j.
Proof.
  intros Hs Hi Hj E. unfold at_index, len in *.
  destruct (Z.lt_trichotomy i j) as [Hlt | [-> | Hgt]]; [| done |].
  - pose proof (strict_nth l (Z.to_nat i) (Z.to_nat j) Hs ltac:(lia)). lia.
  - pose proof (strict_nth l (Z.to_nat j) (Z.to_nat i) Hs ltac:(lia)). lia.
Qed.

Lemma gomod_pred (i n : Z) :
  2 <= n -> 0 <= i < n ->
  gomod (i - 1 + n) n = (if i =? 0 then n - 1 else i - 1).
Proof.
  intros Hn Hi. destruct (i =? 0) eqn:E.
  - apply Z.eqb_eq in E as ->. replace (0 - 1 + n) with (n - 1) by lia.
    apply gomod_small. lia.
  - replace (i - 1 + n) with ((i - 1) + n) by lia. apply gomod_wrap. lia.
Qed.

Lemma gomod_pred2 (i n : Z) :
  2 <= n -> 0 <= i < n ->
  gomod (i - 2 + n) n = (if i <? 2 then i - 2 + n else i - 2).
Proof.
  intros Hn Hi. destruct (i <? 2) eqn:E.
  - apply gomod_small. lia.
  - replace (i - 2 + n) with ((i - 2) + n) by lia. apply gomod_wrap. lia.
Qed.

Lemma gomod_succ (i n : Z) :
  2 <= n -> 0 <= i < n ->
  gomod (i + 1) n = (if i + 1 =? n then 0 else i + 1).
Proof.
  intros Hn Hi. destruct (i + 1 =? n) eqn:E.
  - apply Z.eqb_eq in E. replace (i + 1) with (0 + n) by lia. apply gomod_wrap. lia.
  - apply gomod_small. lia.
Qed.

Lemma inferBlinds_safe_core (p : Parser) (h : Hand) :
  NoDup (ActiveSeats h) ->
  Forall (fun s => 0 <= s) (ActiveSeats h) ->
  (0 <= SBSeat h -> SBSeat h ∈ ActiveSeats h) ->
  (0 <= BBSeat h -> BBSeat h ∈ ActiveSeats h) ->
  exists h' changed,
    inferBlindsFromPreflop p (Some h) = (Some h', changed)
    /\ (changed = false -> h' = h)
    /\ (changed = true ->
        h' = set_SBSeat (set_BBSeat h (BBSeat h')) (SBSeat h')
        /\ (0 <= SBSeat h -> SBSeat h' = SBSeat h)
        /\ (0 <= BBSeat h -> BBSeat h' = BBSeat h)
        /\ SBSeat h' ∈ ActiveSeats h /\ BBSeat h' ∈ ActiveSeats h
        /\ SBSeat h' <> BBSeat h'
        /\ 0 <= SBSeat h' /\ 0 <= BBSeat h').
Proof.
  intros Hnd Hpos Hsb Hbb.
  pose proof (sortInts_strict _ Hnd) as Hs.
  assert (Hel : forall x, x ∈ sortInts (ActiveSeats h) <-> x ∈ ActiveSeats h)
    by (intros x; apply sortInts_elem).
  assert (Hnn : forall x, x ∈ ActiveSeats h -> 0 <= x).
  { intros x Hx. rewrite Forall_forall in Hpos. by apply Hpos. }
  unfold inferBlindsFromPreflop.
  set (seats := sortInts (ActiveSeats h)) in *.
  set (n := len seats).
  destruct ((SBSeat h >=? 0) && (BBSeat h >=? 0)) eqn:Eboth.
  { exists h, false. by repeat split. }
  destruct (n <? 2) eqn:En.
  { exists h, false. by repeat split. }
  assert (Hn : 2 <= n) by lia.
  destruct ((SBSeat h >=? 0) && (BBSeat h <? 0) && (indexOf (SBSeat h) seats >=? 0))
    eqn:Ecase1.
  { apply andb_prop in Ecase1 as [Ecase1 Ei]. apply andb_prop in Ecase1 as [Es Eb].
    assert (Hin : SBSeat h ∈ seats) by (apply Hel, Hsb; lia).
    destruct (indexOf_spec _ _ Hin) as [Hr Hat].
    set (i := indexOf (SBSeat h) seats) in *.
    assert (Hj : 0 <= gomod (i + 1) n < n) by (rewrite gomod_succ by done; case_match; lia).
    eexists _, true. split; [reflexivity |]. split; [done |]. intros _. simpl.
    pose proof (at_index_elem seats _ Hj) as Hbbin.
    split; [by destruct h |]. split; [done |]. split; [lia |].
    split; [apply Hsb; lia |]. split; [by apply Hel |]. split.
    - rewrite <- Hat. intros E. apply at_index_inj in E; try done.
      rewrite gomod_succ in E by done. case_match; lia.
    - simpl. split; [lia | apply Hnn; by apply Hel]. }
  destruct ((BBSeat h >=? 0) && (SBSeat h <? 0) && (indexOf (BBSeat h) seats >=? 0))
    eqn:Ecase2.
  { apply andb_prop in Ecase2 as [Ecase2 Ei]. apply andb_prop in Ecase2 as [Eb Es].
    assert (Hin : BBSeat h ∈ seats) by (apply Hel, Hbb; lia).
    destruct (indexOf_spec _ _ Hin) as [Hr Hat].
    set (i := indexOf (BBSeat h) seats) in *.
    assert (Hj : 0 <= gomod (i - 1 + n) n < n) by (rewrite gomod_pred by done; case_match; lia).
    eexists _, true. split; [reflexivity |]. split; [done |]. intros _. simpl.
    pose proof (at_index_elem seats _ Hj) as Hsbin.
    split; [by destruct h |]. split; [lia |]. split; [done |].
    split; [by apply Hel |]. split; [apply Hbb; lia |]. split.
    - rewrite <- Hat. intros E. apply at_index_inj in E; try done.
      rewrite gomod_pred in E by done. case_match; lia.
    - simpl. split; [apply Hnn; by apply Hel | lia]. }
  assert (Hnone : SBSeat h < 0 /\ BBSeat h < 0).
  { destruct (SBSeat h >=? 0) eqn:E1; destruct (BBSeat h >=? 0) eqn:E2;
      simpl in *; try done; try lia.
    - assert (Hin : SBSeat h ∈ seats) by (apply Hel, Hsb; lia).
      destruct (indexOf_spec _ _ Hin) as [Hr _].
      assert (Eb : (BBSeat h <? 0) = true) by lia. rewrite Eb in Ecase1.
      simpl in Ecase1. lia.
    - assert (Hin : BBSeat h ∈ seats) by (apply Hel, Hbb; lia).
      destruct (indexOf_spec _ _ Hin) as [Hr _].
      assert (Eb : (SBSeat h <? 0) = true) by lia. rewrite Eb in Ecase2.
      simpl in Ecase2. lia. }
  destruct Hnone as [Hs0 Hb0].
  set (fs := firstActor (pfActions p) (-1)).
  destruct (fs <? 0) eqn:Ef.
  { exists h, false. by repeat split. }
  rewrite orb_false_r.
  destruct (indexOf fs seats <? 0) eqn:Eidx.
  { exists h, false. by repeat split. }
  assert (Hin : fs ∈ seats).
  { apply (indexFrom_found 0); [done | ]. unfold indexOf in Eidx. lia. }
  destruct (indexOf_spec _ _ Hin) as [Hr Hat].
  set (i := indexOf fs seats) in *.
  assert (Hj1 : 0 <= gomod (i - 1 + n) n < n) by (rewrite gomod_pred by done; case_match; lia).
  assert (Hj2 : 0 <= gomod (i - 2 + n) n < n) by (rewrite gomod_pred2 by done; case_match; lia).
  eexists _, true. split; [reflexivity |]. split; [done |]. intros _. simpl.
  pose proof (at_index_elem seats _ Hj1) as Hbbin.
  pose proof (at_index_elem seats _ Hj2) as Hsbin.
  split; [reflexivity |]. split; [lia |]. split; [lia |].
  split; [by apply Hel |]. split; [by apply Hel |]. split.
  - intros E. apply at_index_inj in E; try done.
    rewrite gomod_pred, gomod_pred2 in E by done. repeat case_match; lia.
  - simpl. split; apply Hnn; by apply Hel.
Qed.

(** X6: what [inferBlindsFromPreflop] never does, on a hand whose
    active seats are pairwise distinct and non-negative and whose
    recorded blinds are active seats.  When it reports no change the
    hand is the one passed in.  When it reports a change, only the blind
    fields differ, a blind that was recorded keeps its seat, both blinds
    are active seats, the small blind and the big blind are different
    seats, and a second call changes nothing. *)
Theorem inferBlinds_safe (p : Parser) (h : Hand) :
  NoDup (ActiveSeats h) ->
  Forall (fun s => 0 <= s) (ActiveSeats h) ->
  (0 <= SBSeat h -> SBSeat h ∈ ActiveSeats h) ->
  (0 <= BBSeat h -> BBSeat h ∈ ActiveSeats h) ->
  exists h' changed,
    inferBlindsFromPreflop p (Some h) = (Some h', changed)
    /\ (changed = false -> h' = h)
    /\ (changed = true ->
        h' = set_SBSeat (set_BBSeat h (BBSeat h')) (SBSeat h')
        /\ (0 <= SBSeat h -> SBSeat h' = SBSeat h)
        /\ (0 <= BBSeat h -> BBSeat h' = BBSeat h)
        /\ SBSeat h' ∈ ActiveSeats h /\ BBSeat h' ∈ ActiveSeats h
        /\ SBSeat h' <> BBSeat h'
        /\ inferBlindsFromPreflop p (Some h') = (Some h', false)).
Proof.
  intros Hnd Hpos Hsb Hbb.
  destruct (inferBlinds_safe_core p h Hnd Hpos Hsb Hbb) as (h' & c & E & Hf & Ht).
  exists h', c. split; [exact E |]. split; [exact Hf |]. intros Hc.
  destruct (Ht Hc) as (H1 & H2 & H3 & H4 & H5 & H6 & H7 & H8).
  repeat (split; [assumption |]).
  unfold inferBlindsFromPreflop.
  destruct (SBSeat h' >=? 0) eqn:E1; [| lia].
  destruct (BBSeat h' >=? 0) eqn:E2; [| lia]. reflexivity.
Qed.

Lemma inferBlinds_safe_witness :
  let p := parseLines "wrld_0" NewParser scenarioS5 in
  exists h h',
    currentHand p = Some h
    /\ inferBlindsFromPreflop p (Some h) = (Some h', true)
    /\ SBSeat h' <> BBSeat h'
    /\ inferBlindsFromPreflop p (Some h') = (Some h', false).
Proof.
  intros p.
  destruct (currentHand p) as [h |] eqn:Eh; [| vm_compute in Eh; discriminate Eh].
  assert (Eseats : ActiveSeats h = [3; 4; 2]).
  { vm_compute in Eh. injection Eh as <-. reflexivity. }
  assert (Esb : SBSeat h = -1).
  { vm_compute in Eh. injection Eh as <-. reflexivity. }
  assert (Ebb : BBSeat h = -1).
  { vm_compute in Eh. injection Eh as <-. reflexivity. }
  assert (Einf : (inferBlindsFromPreflop p (Some h)).2 = true).
  { vm_compute in Eh. injection Eh as <-. vm_compute. reflexivity. }
  destruct (inferBlinds_safe p h) as (h' & c & E & _ & Ht).
  - rewrite Eseats.
    repeat (apply NoDup_cons; split;
            [rewrite ?elem_of_cons, elem_of_nil; lia |]).
    apply NoDup_nil_2.
  - rewrite Eseats. repeat constructor; lia.
  - rewrite Esb. lia.
  - rewrite Ebb. lia.
  - rewrite E in Einf. simpl in Einf. subst c.
    destruct (Ht eq_refl) as (_ & _ & _ & _ & _ & Hne & Hid).
    exists h, h'. by repeat split.
Defined.

(** ** Induction over a run of the parser *)

Lemma finalizeCurrentHand_kept p h :
  currentHand p = Some h ->
  let H := (finalizeHand p h).2 in
  Hands (result (finalizeCurrentHand p)) = Hands (result p)
  \/ (Hands (result (finalizeCurrentHand p)) = Hands (result p) ++ [H]
      /\ 0 <= LocalPlayerSeat H /\ is_Some (Players H !! LocalPlayerSeat H)).
Proof.
  intros Hh H. unfold finalizeCurrentHand. rewrite Hh.
  destruct (preAssign_parser p h) as (_ & _ & Eh & _).
  subst H. destruct (finalizeHand p h) as [p2 h2] eqn:E.
  rewrite finalizeHand_unfold in E. cbv zeta in E. injection E as Ep E2.
  rewrite Ep in Eh. cbn [fst snd].
  destruct (LocalPlayerSeat h2 >=? 0) eqn:E1; [| left; simpl; by rewrite Eh].
  destruct (Players h2 !! LocalPlayerSeat h2) eqn:E3; [| left; simpl; by rewrite Eh].
  right. split; [simpl; by rewrite Eh |]. split; [lia | done].
Qed.

Section Reach.
Variable world : string.
Variable C : Parser -> Hand -> Prop.
Variable F : Hand -> Prop.

Hypothesis C_ext : forall p p' h,
    pfActions p' = pfActions p -> foldedThisHand p' = foldedThisHand p ->
    pendingWinners p' = pendingWinners p -> C p h -> C p' h.
Hypothesis C_start : forall ts p h,
    currentHand (startNewHand ts p) = Some h -> C (startNewHand ts p) h.
Hypothesis C_event : forall ts msg p h h',
    Inv p -> SeatsOK p h -> currentHand p = Some h -> C p h ->
    currentHand (handleEvent ts msg p h) = Some h' ->
    C (handleEvent ts msg p h) h'.
Hypothesis C_final : forall p h,
    Inv p -> SeatsOK p h -> currentHand p = Some h -> C p h ->
    F (finalizeHand p h).2.

Lemma reach_finalize p : ReachInv C F p -> ReachInv C F (finalizeCurrentHand p).
Proof.
  intros (HI & HS & HF & HC).
  split; [by apply finalizeCurrentHand_Inv |].
  split; [unfold SeatsInv; by rewrite finalizeCurrentHand_current |].
  split; [| intros h Hh; by rewrite finalizeCurrentHand_current in Hh].
  destruct (currentHand p) as [h |] eqn:Hh.
  - destruct (finalizeCurrentHand_kept p h Hh) as [E | (E & H1 & H2)]; rewrite E;
      [done |].
    apply Forall_app. split; [done |]. constructor; [| done].
    split; [| by split]. apply C_final; try done.
    + unfold SeatsInv in HS. by rewrite Hh in HS.
    + by apply HC.
  - unfold finalizeCurrentHand. by rewrite Hh.
Qed.

Lemma reach_start ts p : ReachInv C F p -> ReachInv C F (startNewHand ts p).
Proof.
  intros (HI & HS & HF & HC).
  split; [apply startNewHand_Inv; by destruct HI |].
  split; [apply startNewHand_SeatsInv |].
  split; [exact HF |]. intros h Hh. by apply C_start.
Qed.

Lemma reach_event ts msg p : ReachInv C F p -> ReachInv C F (processPokerEvent ts msg p).
Proof.
  intros HR. pose proof HR as (HI & HS & HF & HC).
  split; [by apply processPokerEvent_Inv |].
  split; [by apply processPokerEvent_SeatsInv |].
  assert (Hnew : ReachInv C F (startNewHand ts (finalizeCurrentHand p)))
    by by apply reach_start, reach_finalize.
  destruct Hnew as (_ & _ & HF' & HC').
  unfold processPokerEvent.
  destruct (currentHand p) as [h |] eqn:Hh.
  - assert (Hok : SeatsOK p h) by (unfold SeatsInv in HS; by rewrite Hh in HS).
    assert (Hres : forall m, Hands (result (handleEvent ts m p h)) = Hands (result p)).
    { intros m. unfold handleEvent.
      destruct m; try rewrite parseCards_spec; try rewrite parseCard_spec;
        cbv beta iota zeta; unfold raiseStreetBet, assignLocalCards;
        repeat case_match; reflexivity. }
    destruct msg; try (split; [exact HF' | exact HC']);
      (split; [rewrite Hres; exact HF |]);
      intros h' Hh'; eapply C_event; eauto.
  - destruct msg; try (split; [exact HF' | exact HC']);
      (split; [exact HF |]); intros h' Hh'; by rewrite Hh in Hh'.
Qed.

Lemma reach_stamp p ts : ReachInv C F p -> ReachInv C F (set_lastTimestamp p ts).
Proof.
  intros (HI & HS & HF & HC).
  split; [exact HI |]. split; [exact HS |]. split; [exact HF |].
  intros h Hh. eapply C_ext; [| | | apply (HC h Hh)]; reflexivity.
Qed.

Lemma reach_line p line : ReachInv C F p -> ReachInv C F (ParseLine world p line).
Proof.
  intros HR. destruct line as [| ts msg]; [done |]. unfold ParseLine.
  apply (reach_stamp p ts) in HR.
  set (q := set_lastTimestamp p ts) in *.
  destruct msg; try (by apply reach_event).
  - destruct HR as (HI & HS & HF & HC).
    split; [exact HI |]. split; [exact HS |]. split; [exact HF |].
    intros h Hh. eapply C_ext; [| | | apply (HC h Hh)]; reflexivity.
  - assert (HR' : ReachInv C F (if inPokerWorld q then finalizeCurrentHand q else q)).
    { destruct (inPokerWorld q); [by apply reach_finalize | done]. }
    destruct HR' as (HI & HS & HF & HC).
    split; [exact HI |]. split; [exact HS |]. split; [exact HF |].
    intros h Hh. eapply C_ext; [| | | apply (HC h Hh)]; reflexivity.
Qed.

Lemma reach_run lines : ReachInv C F (parseLines world NewParser lines).
Proof.
  assert (H0 : ReachInv C F NewParser).
  { split; [apply NewParser_Inv |]. split; [done |]. split; [constructor | done]. }
  revert H0. generalize NewParser.
  induction lines as [| line rest IH]; intros p Hp; [done |].
  simpl. apply IH. by apply reach_line.
Qed.

Lemma reach_final lines :
  Forall (fun H => F H /\ 0 <= LocalPlayerSeat H
                   /\ is_Some (Players H !! LocalPlayerSeat H))
    (Hands (ParseReader world lines)).
Proof.
  unfold ParseReader.
  by destruct (reach_finalize _ (reach_run lines)) as (_ & _ & HF & _).
Qed.
End Reach.

(** ** Records of the hand in progress *)

Lemma PlayersOK_updPlayer Q seat f h :
  PlayersOK Q h ->
  (forall pi, Players h !! seat = Some pi -> Q seat pi -> Q seat (f pi)) ->
  PlayersOK Q (updPlayer seat f h).
Proof.
  intros Hh Hf s pi. rewrite updPlayer_lookup.
  destruct (decide (seat = s)) as [<- | Hne].
  - destruct (Players h !! seat) as [pi0 |] eqn:Hl; simpl; [| done].
    intros [= <-]. apply Hf; [done |]. by apply (Hh seat).
  - apply Hh.
Qed.

Lemma PlayersOK_ensurePlayer Q seat h :
  PlayersOK Q h -> Q seat (newPlayer seat) -> PlayersOK Q (ensurePlayer seat h).
Proof.
  intros Hh Hn s pi. rewrite ensurePlayer_lookup.
  destruct (decide (seat = s)) as [<- | Hne].
  - intros [= <-]. destruct (Players h !! seat) as [pi0 |] eqn:Hl; simpl.
    + by apply (Hh seat).
    + exact Hn.
  - apply Hh.
Qed.

Lemma ensurePlayer_active x h s :
  s ∈ ActiveSeats (ensurePlayer x h) -> s = x \/ s ∈ ActiveSeats h.
Proof.
  unfold ensurePlayer. destruct (Players h !! x); [by right |].
  destruct (existsb _ _); simpl; [by right |].
  rewrite elem_of_app, list_elem_of_singleton. tauto.
Qed.

Lemma recordedIn_updPlayer h seat f a :
  (forall pi x, x ∈ Actions pi -> x ∈ Actions (f pi)) ->
  recordedIn h a -> recordedIn (updPlayer seat f h) a.
Proof.
  intros Hf (pi & pa & Hl & Hin & Hrest). unfold recordedIn.
  rewrite updPlayer_lookup. destruct (decide (seat = seatID a)) as [E | _].
  - rewrite Hl. simpl. exists (f pi), pa. split; [done |]. split; [by apply Hf | done].
  - by exists pi, pa.
Qed.

Lemma recordedIn_ensurePlayer h seat a :
  recordedIn h a -> recordedIn (ensurePlayer seat h) a.
Proof.
  intros (pi & pa & Hl & Hrest). unfold recordedIn.
  rewrite ensurePlayer_lookup. destruct (decide (seat = seatID a)) as [E | _].
  - subst seat. rewrite Hl. simpl. by exists pi, pa.
  - by exists pi, pa.
Qed.

Lemma seatRecord_new folded seat : 0 <= seat -> seatRecord folded seat (newPlayer seat).
Proof.
  intros Hs. unfold seatRecord, newPlayer, noFlags, quietAfterFold. simpl.
  split; [done |]. split; [done |]. split; [constructor |]. split; [done |].
  split; [split; [done | by intros H%Exists_nil] |]. split.
  - intros [| ? ?] ? ? E; discriminate E.
  - by intros H%Exists_nil.
Qed.

Lemma RecordsOK_fields acts folded h h' :
  Players h' = Players h -> ActiveSeats h' = ActiveSeats h ->
  RecordsOK acts folded h -> RecordsOK acts folded h'.
Proof.
  intros Ep Ea (H1 & H2 & H3). unfold RecordsOK, PlayersOK, recordedIn in *.
  rewrite Ep, Ea. done.
Qed.

Lemma RecordsOK_ensure acts folded seat h :
  0 <= seat -> RecordsOK acts folded h -> RecordsOK acts folded (ensurePlayer seat h).
Proof.
  intros Hs (H1 & H2 & H3). split; [| split].
  - apply PlayersOK_ensurePlayer; [done | by apply seatRecord_new].
  - intros s Hin. rewrite ensurePlayer_lookup.
    destruct (decide (seat = s)); [done |].
    apply ensurePlayer_active in Hin as [-> | Hin]; [done | by apply H2].
  - eapply Forall_impl; [exact H3 |]. intros a. apply recordedIn_ensurePlayer.
Qed.

Lemma RecordsOK_quiet acts folded seat f h :
  quietEdit f -> RecordsOK acts folded h -> RecordsOK acts folded (updPlayer seat f h).
Proof.
  intros Hf (H1 & H2 & H3). split; [| split].
  - apply PlayersOK_updPlayer; [done |]. intros pi _.
    destruct (Hf pi) as (E1 & E2 & E3 & E4 & E5 & E6 & E7).
    unfold seatRecord, noFlags. by rewrite E1, E2, E3, E4, E5, E6, E7.
  - intros s Hin. rewrite updPlayer_lookup. specialize (H2 s Hin).
    destruct (decide (seat = s)); [| done]. by apply fmap_is_Some.
  - eapply Forall_impl; [exact H3 |]. intros a. apply recordedIn_updPlayer.
    intros pi x. by destruct (Hf pi) as (_ & -> & _).
Qed.

Lemma RecordsOK_folded acts folded folded' h :
  folded ⊆ folded' -> RecordsOK acts folded h -> RecordsOK acts folded' h.
Proof.
  intros Hsub (H1 & H2 & H3). split; [| by split].
  intros s pi Hl. destruct (H1 s pi Hl) as (A1 & A2 & A3 & A4 & A5 & A6 & A7).
  repeat (split; [assumption |]). intros Hex. apply Hsub. by apply A7.
Qed.

Lemma RecordsOK_buffer acts folded h a :
  recordedIn h a -> RecordsOK acts folded h -> RecordsOK (acts ++ [a]) folded h.
Proof.
  intros Ha (H1 & H2 & H3). split; [done |]. split; [done |].
  apply Forall_app. split; [done | by constructor].
Qed.

Lemma quietAfterFold_snoc l a :
  quietAfterFold l -> (Exists isFold l -> isPassive a) -> quietAfterFold (l ++ [a]).
Proof.
  intros Hq Ha l1 x l2 E Hx.
  destruct l2 as [| y l2 _] using rev_ind; [constructor |].
  rewrite app_comm_cons, app_assoc in E. apply app_inj_tail in E as [E ->].
  apply Forall_app. split.
  - by apply (Hq l1 x l2).
  - constructor; [| constructor]. apply Ha. rewrite E.
    apply Exists_app. right. by constructor.
Qed.

(** An action other than a fold is appended to the record of [seat]. *)
Lemma RecordsOK_append acts folded seat a h :
  actionOK seat a -> Action a <> ActionFold ->
  (seat ∈ folded -> isPassive a) ->
  RecordsOK acts folded h ->
  RecordsOK acts folded
    (updPlayer seat (fun pi => set_Actions pi (Actions pi ++ [a])) h).
Proof.
  intros Ha Hnf Hp (H1 & H2 & H3). split; [| split].
  - apply PlayersOK_updPlayer; [done |].
    intros pi _ (A1 & A2 & A3 & A4 & A5 & A6 & A7).
    unfold seatRecord, noFlags. simpl.
    split; [done |]. split; [done |].
    split; [apply Forall_app; split; [done | by constructor] |].
    split; [done |]. split; [| split].
    + rewrite A5, Exists_app. split; [by left |].
      intros [? | Hx]; [done |]. apply Exists_cons in Hx as [[Hx _] | Hx]; [done |].
      by apply Exists_nil in Hx.
    + apply quietAfterFold_snoc; [done |]. intros Hex. by apply Hp, A7.
    + rewrite Exists_app. intros [? | Hx]; [by apply A7 |].
      apply Exists_cons in Hx as [Hx | Hx]; [done | by apply Exists_nil in Hx].
  - intros s Hin. rewrite updPlayer_lookup. specialize (H2 s Hin).
    destruct (decide (seat = s)); [| done]. by apply fmap_is_Some.
  - eapply Forall_impl; [exact H3 |]. intros x. apply recordedIn_updPlayer.
    intros pi y Hy. simpl. apply elem_of_app. by left.
Qed.

(** A fold is appended to the record of [seat], which joins the folded
    seats; on the pre-flop street the record is marked. *)
Lemma RecordsOK_fold acts folded seat a h :
  actionOK seat a -> Action a = ActionFold ->
  RecordsOK acts folded h ->
  let h1 := updPlayer seat (fun pi => set_Actions pi (Actions pi ++ [a])) h in
  (OnStreet a <> StreetPreFlop -> RecordsOK acts ({[seat]} ∪ folded) h1)
  /\ (OnStreet a = StreetPreFlop ->
      RecordsOK acts ({[seat]} ∪ folded)
        (updPlayer seat (fun pi => set_FoldedPF pi true) h1)).
Proof.
  intros Ha Hf (H1 & H2 & H3) h1.
  assert (Hsome : forall s, s ∈ ActiveSeats h -> is_Some (Players h1 !! s)).
  { intros s Hin. unfold h1. rewrite updPlayer_lookup. specialize (H2 s Hin).
    destruct (decide (seat = s)); [| done]. by apply fmap_is_Some. }
  assert (Hrec : Forall (recordedIn h1) acts).
  { eapply Forall_impl; [exact H3 |]. intros x. apply recordedIn_updPlayer.
    intros pi y Hy. simpl. apply elem_of_app. by left. }
  assert (Hother : forall s pi, s <> seat -> Players h1 !! s = Some pi ->
                                seatRecord ({[seat]} ∪ folded) s pi).
  { intros s pi Hne. unfold h1. rewrite updPlayer_lookup.
    rewrite decide_False by done. intros Hl.
    destruct (H1 s pi Hl) as (A1 & A2 & A3 & A4 & A5 & A6 & A7).
    repeat (split; [assumption |]). intros Hex. apply elem_of_union. right. by apply A7. }
  assert (Hq : forall pi, quietAfterFold (Actions pi) ->
                          quietAfterFold (Actions pi ++ [a])).
  { intros pi Hq. apply quietAfterFold_snoc; [done |]. intros _. by left. }
  split.
  - intros Hst. split; [| split; [exact Hsome | exact Hrec]].
    intros s pi Hl. destruct (decide (s = seat)) as [-> | Hne]; [| by apply Hother].
    unfold h1 in Hl. rewrite updPlayer_lookup, decide_True in Hl by done.
    destruct (Players h !! seat) as [pi0 |] eqn:E0; [| done].
    simpl in Hl. injection Hl as <-.
    destruct (H1 seat pi0 E0) as (A1 & A2 & A3 & A4 & A5 & A6 & A7).
    unfold seatRecord, noFlags. simpl.
    split; [done |]. split; [done |].
    split; [apply Forall_app; split; [done | by constructor] |].
    split; [done |]. split; [| split].
    + rewrite A5, Exists_app. split; [by left |].
      intros [? | Hx]; [done |]. apply Exists_cons in Hx as [[_ Hx] | Hx]; [done |].
      by apply Exists_nil in Hx.
    + by apply Hq.
    + intros _. apply elem_of_union. left. by apply elem_of_singleton.
  - intros Hst. split; [| split].
    + intros s pi. rewrite updPlayer_lookup.
      destruct (decide (seat = s)) as [<- | Hne]; [| by apply Hother].
      unfold h1. rewrite updPlayer_lookup, decide_True by done.
      destruct (Players h !! seat) as [pi0 |] eqn:E0; [| done].
      simpl. intros [= <-].
      destruct (H1 seat pi0 E0) as (A1 & A2 & A3 & A4 & A5 & A6 & A7).
      unfold seatRecord, noFlags. simpl.
      split; [done |]. split; [done |].
      split; [apply Forall_app; split; [done | by constructor] |].
      split; [done |]. split; [| split].
      * split; [| done]. intros _. apply Exists_app. right. by constructor.
      * by apply Hq.
      * intros _. apply elem_of_union. left. by apply elem_of_singleton.
    + intros s Hin. rewrite updPlayer_lookup. specialize (Hsome s Hin).
      destruct (decide (seat = s)); [| done]. by apply fmap_is_Some.
    + eapply Forall_impl; [exact Hrec |]. intros x. by apply recordedIn_updPlayer.
Qed.

(** The action just appended to the record of [seat] is on record. *)
Lemma recordedIn_appended seat a h :
  is_Some (Players h !! seat) -> OnStreet a = StreetPreFlop ->
  recordedIn (updPlayer seat (fun pi => set_Actions pi (Actions pi ++ [a])) h)
    (mkPfAction seat (Action a) (Amount a)).
Proof.
  intros [pi Hl] Hst.
  exists (set_Actions pi (Actions pi ++ [a])), a.
  split; [| split; [| done]].
  - change (seatID (mkPfAction seat (Action a) (Amount a))) with seat.
    rewrite updPlayer_lookup, decide_True, Hl by done. reflexivity.
  - apply elem_of_app. right. apply list_elem_of_here.
Qed.

Lemma quietEdit_holeCards cards : quietEdit (fun pi => set_HoleCards pi cards).
Proof. intros pi. by repeat split. Qed.

Lemma quietEdit_showedDown : quietEdit (fun pi => set_ShowedDown pi true).
Proof. intros pi. by repeat split. Qed.

Lemma quietEdit_holeCards_if cards :
  quietEdit (fun pi => if len (HoleCards pi) =? 0 then set_HoleCards pi cards else pi).
Proof. intros pi. destruct (len (HoleCards pi) =? 0); by repeat split. Qed.

Lemma classifyAction_not_fold p seat a : classifyAction p seat a <> ActionFold.
Proof.
  rewrite classifyAction_spec.
  destruct (a =? 0); [done |]. destruct (streetBetAmount p =? 0); [done |].
  by destruct (a >? streetBetAmount p).
Qed.

Lemma actionOK_Atoi ts m1 st k m2 :
  actionOK (Atoi m1) (mkPlayerAction ts (Atoi m1) st k (Atoi m2)).
Proof.
  split; [done |]. simpl. split; [apply Atoi_nonneg | apply Atoi_le_maxInt].
Qed.

Lemma actionOK_zero ts s st k : actionOK s (mkPlayerAction ts s st k 0).
Proof. split; [done |]. simpl. unfold maxInt. lia. Qed.

Lemma handleEvent_RecordsOK ts msg p h h' :
  RecordsOK (pfActions p) (foldedThisHand p) h ->
  currentHand p = Some h ->
  currentHand (handleEvent ts msg p h) = Some h' ->
  RecordsOK (pfActions (handleEvent ts msg p h))
    (foldedThisHand (handleEvent ts msg p h)) h'.
Proof.
  intros Hok Hh. unfold handleEvent.
  destruct msg; try rewrite parseCards_spec; try rewrite parseCard_spec;
    cbv beta iota zeta; unfold raiseStreetBet, appendAction, assignLocalCards;
    repeat case_match; simpl; rewrite ?Hh; intros [= <-]; try exact Hok.
  all: repeat first
         [ exact Hok
         | apply RecordsOK_buffer;
             [ first
                 [ apply recordedIn_appended
                 | apply recordedIn_updPlayer; [done | apply recordedIn_appended] ];
               [ rewrite ensurePlayer_lookup_self; done
               | first [reflexivity | assumption] ] |]
         | match goal with
           | |- RecordsOK ?a ?f (set_LocalPlayerSeat ?x _) => change (RecordsOK a f x)
           end
         | apply RecordsOK_quiet;
             [ first [ apply quietEdit_holeCards | apply quietEdit_showedDown
                     | apply quietEdit_holeCards_if ] |]
         | apply RecordsOK_append;
             [ apply actionOK_Atoi
             | first [discriminate | apply classifyAction_not_fold]
             | first [ intros _; right; by left | intros _; right; by right
                     | intros ?; done ] |]
         | apply RecordsOK_ensure; [first [apply Atoi_nonneg | simpl in *; lia] |]
         | apply (proj2 (RecordsOK_fold _ _ _ _ _ (actionOK_zero _ _ _ _) eq_refl
                           ltac:(apply RecordsOK_ensure; [apply Atoi_nonneg | exact Hok])));
             assumption
         | apply (proj1 (RecordsOK_fold _ _ _ _ _ (actionOK_zero _ _ _ _) eq_refl
                           ltac:(apply RecordsOK_ensure; [apply Atoi_nonneg | exact Hok])));
             assumption ].
Qed.

(** ** The flags the pre-flop pass sets *)

Lemma vpipOf_updPlayer_mono seat f h s :
  (forall pi, VPIP pi = true -> VPIP (f pi) = true) ->
  vpipOf h s = true -> vpipOf (updPlayer seat f h) s = true.
Proof.
  intros Hf. unfold vpipOf. rewrite updPlayer_lookup.
  destruct (decide (seat = s)) as [<- | Hne]; [| done].
  destruct (Players h !! seat) as [pi |]; simpl; [apply Hf | done].
Qed.

Lemma vpipOf_updPlayer_set seat f h pi :
  Players h !! seat = Some pi -> VPIP (f pi) = true ->
  vpipOf (updPlayer seat f h) seat = true.
Proof.
  intros Hl Hf. unfold vpipOf. rewrite updPlayer_lookup, decide_True, Hl by done.
  exact Hf.
Qed.

Lemma vpipOf_true h s :
  vpipOf h s = true -> exists pi, Players h !! s = Some pi /\ VPIP pi = true.
Proof.
  unfold vpipOf. destruct (Players h !! s) as [pi |]; simpl; [| done].
  intros E. by exists pi.
Qed.

Lemma pfStep_passInv acts st act :
  act ∈ acts -> passInv acts st -> passInv acts (pfStep st act).
Proof.
  intros Hin [Hpl Hr]. unfold pfStep.
  destruct (Players (pfHand st) !! seatID act) as [pi0 |] eqn:El; [| by split].
  assert (Hex : forall (Q : pfAction -> Prop), Q act -> Exists Q acts).
  { intros Q HQ. apply Exists_exists. by exists act. }
  assert (Hmono : forall f,
             (forall pi, VPIP pi = true -> VPIP (f pi) = true) ->
             forall l s, raiserAtLevel st !! l = Some s ->
                         vpipOf (updPlayer (seatID act) f (pfHand st)) s = true
                         /\ Exists (raisedBy s) acts).
  { intros f Hf l s Hl. destruct (Hr l s Hl) as [Hv Hx].
    split; [by apply vpipOf_updPlayer_mono | done]. }
  assert (Hvpip : (action act = ActionCall \/ action act = ActionBet
                   \/ action act = ActionRaise) ->
                  passInv acts
                    (mkPfState (betLevel st) (raiserAtLevel st)
                       (updPlayer (seatID act) (fun pi => set_VPIP pi true)
                          (pfHand st)))).
  { intros Hk. split; [| by apply Hmono].
    apply PlayersOK_updPlayer; [done |]. intros pi _ (A1 & A2 & A3 & A4).
    unfold flagsFrom. simpl.
    split; [intros E; split; [done | by apply A1] |].
    split; [intros E; split; [done | by apply A2] |].
    split; [intros E; split; [done | by apply A3] |].
    intros _. by apply Hex. }
  assert (Hraise : (action act = ActionBet \/ action act = ActionRaise) ->
            forall lv f,
              (forall pi, VPIP (f pi) = true) ->
              (forall pi, FoldTo3Bet (f pi) = FoldTo3Bet pi) ->
              passInv acts
                (mkPfState lv (<[lv := seatID act]> (raiserAtLevel st))
                   (updPlayer (seatID act) f (pfHand st)))).
  { intros Hk lv f Hf1 Hf2.
    assert (Hrb : Exists (raisedBy (seatID act)) acts) by by apply Hex.
    split.
    - apply PlayersOK_updPlayer; [done |]. intros pi _ (A1 & A2 & A3 & A4).
      unfold flagsFrom. rewrite Hf1, Hf2.
      split; [done |]. split; [done |].
      split; [intros E; split; [done | by apply A3] |].
      intros _. apply Hex. split; [done |]. tauto.
    - simpl. intros l s. destruct (decide (l = lv)) as [-> | Hne].
      + rewrite lookup_insert_eq. intros [= <-].
        split; [by eapply vpipOf_updPlayer_set | done].
      + rewrite lookup_insert_ne by done. apply Hmono. intros pi _. apply Hf1. }
  assert (Hst : passInv acts st) by by split.
  destruct (action act) eqn:Ek.
  - exact Hst.
  - exact Hst.
  - destruct (betLevel st <? 2); exact Hst.
  - exact Hst.
  - destruct ((seatID act =? SBSeat (pfHand st)) && (amount act <=? bbAmount (pfHand st))).
    + destruct (betLevel st >? 2); [apply Hvpip; tauto | exact Hst].
    + destruct ((seatID act =? BBSeat (pfHand st)) && (betLevel st <=? 2));
        [exact Hst | apply Hvpip; tauto].
  - generalize (betLevel st + 1). intros lv.
    destruct lv as [| [[q | q |] | [q | q |] |] | q];
      (apply Hraise; [tauto | done | done]).
  - generalize (betLevel st + 1). intros lv.
    destruct lv as [| [[q | q |] | [q | q |] |] | q];
      (apply Hraise; [tauto | done | done]).
  - exact Hst.
  - destruct (betLevel st >=? 3); [| exact Hst].
    destruct (raiserAtLevel st !! (betLevel st - 1)) as [rs |] eqn:Er; [| exact Hst].
    destruct (rs =? seatID act) eqn:Es; [| exact Hst].
    apply Z.eqb_eq in Es. subst rs. destruct (Hr _ _ Er) as [Hv Hx].
    split; [| by apply Hmono].
    apply PlayersOK_updPlayer; [done |]. intros pi Hl (A1 & A2 & A3 & A4).
    unfold flagsFrom. simpl.
    split; [done |]. split; [done |]. split; [| done].
    intros _. unfold vpipOf in Hv. rewrite Hl in Hv. simpl in Hv.
    split; [done |]. split; [done |]. by apply Hex.
Qed.

Lemma fold_pfStep_passInv acts0 acts st :
  (forall a, a ∈ acts -> a ∈ acts0) -> passInv acts0 st ->
  passInv acts0 (fold_left pfStep acts st).
Proof.
  revert st. induction acts as [| a rest IH]; intros st Hsub Hst; [done |].
  simpl. apply IH.
  - intros x Hx. apply Hsub. by apply list_elem_of_further.
  - apply pfStep_passInv; [apply Hsub; apply list_elem_of_here | done].
Qed.

Lemma calculatePreflopStats_flags p h :
  PlayersOK (fun _ pi => noFlags pi) h ->
  PlayersOK (flagsFrom (pfActions p)) (calculatePreflopStats p h).
Proof.
  intros Hno.
  assert (H0 : PlayersOK (flagsFrom (pfActions p)) h).
  { intros s pi Hl. destruct (Hno s pi Hl) as (E1 & E2 & E3 & E4).
    unfold flagsFrom. rewrite E1, E2, E3, E4. by repeat split. }
  unfold calculatePreflopStats. destruct (len (pfActions p) =? 0); [done |].
  apply fold_pfStep_passInv; [done |]. split; [done |].
  intros l s Hl. simpl in Hl. by rewrite lookup_empty in Hl.
Qed.

(** ** Records of a finalized hand *)

Lemma quietEdit_position pos : quietEdit (fun pi => set_PPosition pi pos).
Proof. intros pi. by repeat split. Qed.

Lemma quietEdit_won : quietEdit (fun pi => set_Won pi true).
Proof. intros pi. by repeat split. Qed.

Lemma quietEdit_potWon (g : PlayerHandInfo -> Z) :
  quietEdit (fun pi => set_PotWon pi (g pi)).
Proof. intros pi. by repeat split. Qed.

Lemma assignLoop_RecordsOK acts folded i rotated positions h :
  RecordsOK acts folded h -> RecordsOK acts folded (assignLoop i rotated positions h).
Proof.
  revert i h. induction rotated as [| seat rest IH]; intros i h Hok; [done |].
  simpl. apply IH. destruct (Players h !! seat); [| done].
  destruct (positions !! i); [| done].
  apply RecordsOK_quiet; [apply quietEdit_position | done].
Qed.

Lemma assignPositions_RecordsOK acts folded h :
  RecordsOK acts folded h -> RecordsOK acts folded (assignPositions h).
Proof.
  intros Hok. unfold assignPositions.
  destruct (_ || _); [done |]. destruct (_ <? 0); [done |].
  by apply assignLoop_RecordsOK.
Qed.

Lemma preAssign_RecordsOK acts folded p h :
  RecordsOK acts folded h -> RecordsOK acts folded (preAssign p h).2.
Proof.
  intros Hok. unfold preAssign. destruct (pendingLocalCards p); [| done].
  destruct (ResLocalPlayerSeat (result p) >=? 0) eqn:E; [| done].
  unfold assignLocalCards. cbn [snd].
  match goal with
  | |- RecordsOK ?a ?f (set_LocalPlayerSeat ?x _) => change (RecordsOK a f x)
  end.
  apply RecordsOK_quiet; [apply quietEdit_holeCards |].
  apply RecordsOK_ensure; [lia | done].
Qed.

Lemma fold_applyWinner_RecordsOK acts folded pws t h :
  Forall (fun pw => 0 <= winSeatID pw) pws ->
  RecordsOK acts folded h ->
  RecordsOK acts folded (fold_left applyWinner pws (t, h)).2.
Proof.
  revert t h. induction pws as [| pw rest IH]; intros t h Hpw Hok; [done |].
  inversion Hpw as [| ? ? H0 Hrest]; subst. simpl. apply IH; [done |].
  match goal with
  | |- RecordsOK ?a ?f (set_WinnerSeat ?x _) => change (RecordsOK a f x)
  end.
  apply RecordsOK_quiet; [apply (quietEdit_potWon (fun pi => add64 (PotWon pi) (winAmount pw))) |].
  apply RecordsOK_quiet; [apply quietEdit_won |].
  by apply RecordsOK_ensure.
Qed.

Lemma sameCore_fields h h' :
  sameCore h h' ->
  ActiveSeats h' = ActiveSeats h /\ NumPlayers h' = NumPlayers h
  /\ SBSeat h' = SBSeat h /\ BBSeat h' = BBSeat h
  /\ forall s, option_Forall2 coreEq (Players h !! s) (Players h' !! s).
Proof. intros (m & -> & Hm). by repeat split. Qed.

Lemma recorded_exists (Q : pfAction -> Prop) (R : PlayerAction -> Prop) h acts s pi :
  Forall (recordedIn h) acts -> Players h !! s = Some pi ->
  (forall a pa, Q a -> Action pa = action a -> OnStreet pa = StreetPreFlop -> R pa) ->
  (forall a, Q a -> seatID a = s) ->
  Exists Q acts -> Exists R (Actions pi).
Proof.
  intros Hrec Hl HQR Hs Hex. apply Exists_exists in Hex as (a & Hin & Ha).
  rewrite Forall_forall in Hrec. destruct (Hrec a Hin) as (pi' & pa & Hl' & Hpa & E1 & E2 & _).
  rewrite (Hs a Ha), Hl in Hl'. injection Hl' as <-.
  apply Exists_exists. exists pa. split; [done |]. by apply (HQR a).
Qed.

(** The steps of finalization after the winners loop turn the records
    of a hand in progress into those of a finalized hand. *)
Lemma afterWinners_FinalRecords p folded t h :
  SeatsOK p h -> RecordsOK (pfActions p) folded h ->
  FinalRecords (afterWinners p t h).
Proof.
  intros (Hnd & Hdom & _ & Hsb & Hbb & _) Hok. unfold afterWinners.
  set (h1 := inferWinType (set_TotalPot h t)).
  assert (E1 : Players h1 = Players h /\ ActiveSeats h1 = ActiveSeats h
               /\ SBSeat h1 = SBSeat h /\ BBSeat h1 = BBSeat h).
  { unfold h1, inferWinType. repeat case_match; by repeat split. }
  destruct E1 as (Ep1 & Ea1 & Es1 & Eb1).
  set (h2 := set_NumPlayers h1 (len (ActiveSeats h1))).
  assert (Hok2 : RecordsOK (pfActions p) folded h2).
  { eapply (RecordsOK_fields _ _ h); [exact Ep1 | exact Ea1 | exact Hok]. }
  set (h3 := assignPositions h2).
  assert (Hok3 : RecordsOK (pfActions p) folded h3) by by apply assignPositions_RecordsOK.
  destruct (sameCore_fields _ _ (assignPositions_sameCore h2)) as (Ea3 & En3 & Es3 & Eb3 & Hl3).
  fold h3 in Ea3, En3, Es3, Eb3, Hl3.
  set (h4 := calculatePreflopStats p h3).
  destruct (sameCore_fields _ _ (calculatePreflopStats_sameCore p h3))
    as (Ea4 & En4 & Es4 & Eb4 & Hl4).
  fold h4 in Ea4, En4, Es4, Eb4, Hl4.
  assert (Hfl : PlayersOK (flagsFrom (pfActions p)) h4).
  { apply calculatePreflopStats_flags. intros s pi Hl.
    destruct Hok3 as (H1 & _). by destruct (H1 s pi Hl) as (_ & _ & _ & ? & _). }
  assert (Hkeys : forall s, is_Some (Players h4 !! s) <-> is_Some (Players h !! s)).
  { intros s. rewrite <- Ep1. change (Players h1) with (Players h2).
    specialize (Hl3 s). specialize (Hl4 s).
    destruct Hl3; inversion Hl4; subst; split; intros [? ?]; by eauto. }
  change (FinalRecords (set_IsComplete (set_EndTime h4 (lastTimestamp p))
                          ((len (pendingWinners p) >? 0)
                           || (len (CommunityCards (set_EndTime h4 (lastTimestamp p))) >? 0)))).
  unfold FinalRecords.
  change (PlayersOK finalRecord h4 /\ NoDup (ActiveSeats h4)
          /\ (forall s, s ∈ ActiveSeats h4 <-> is_Some (Players h4 !! s))
          /\ NumPlayers h4 = len (ActiveSeats h4)
          /\ (SBSeat h4 = -1 \/ is_Some (Players h4 !! SBSeat h4))
          /\ (BBSeat h4 = -1 \/ is_Some (Players h4 !! BBSeat h4))).
  assert (Eact : ActiveSeats h4 = ActiveSeats h).
  { rewrite Ea4, Ea3. exact Ea1. }
  destruct Hok as (Hrec & Hsome & Hbuf).
  split; [| split; [by rewrite Eact | split; [| split; [| split]]]].
  - intros s pi4 Hl. specialize (Hl4 s). rewrite Hl in Hl4.
    inversion Hl4 as [pi3 ? Hc34 E3 |]; subst. symmetry in E3.
    destruct Hok3 as (H3 & _ & Hbuf3).
    destruct (H3 s pi3 E3) as (A1 & A2 & A3 & _ & A5 & A6 & _).
    destruct Hc34 as (C1 & C2 & _ & C4 & _).
    destruct (Hfl s pi4 Hl) as (F1 & F2 & F3 & F4).
    unfold finalRecord. rewrite <- C1, <- C2, <- C4.
    assert (Hr : Exists (raisedBy s) (pfActions p) -> Exists raiseAction (Actions pi3)).
    { apply (recorded_exists _ _ h3 _ s pi3 Hbuf3 E3).
      - intros a pa (_ & Hk) Ek Est. split; [done |]. by rewrite Ek.
      - by intros a (? & _). }
    assert (Hp : Exists (paidBy s) (pfActions p) -> Exists paidAction (Actions pi3)).
    { apply (recorded_exists _ _ h3 _ s pi3 Hbuf3 E3).
      - intros a pa (_ & Hk) Ek Est. split; [done |]. by rewrite Ek.
      - by intros a (? & _). }
    assert (Hf : Exists (foldedBy s) (pfActions p) -> Exists foldOnPreflop (Actions pi3)).
    { apply (recorded_exists _ _ h3 _ s pi3 Hbuf3 E3).
      - intros a pa (_ & Hk) Ek Est. split; [| done]. by rewrite Ek.
      - by intros a (? & _). }
    repeat (split; [assumption |]).
    split; [intros E; destruct (F1 E); split; [done | by apply Hr] |].
    split; [intros E; destruct (F2 E); split; [done | by apply Hr] |].
    split; [| intros E; by apply Hp, F4].
    intros E. destruct (F3 E) as (? & ? & ?).
    split; [done |]. split; [apply A5; by apply Hf | by apply Hr].
  - intros s. rewrite Eact, Hkeys. split; [apply Hsome | apply Hdom].
  - rewrite En4, En3, Ea4, Ea3. reflexivity.
  - rewrite Es4, Es3. change (SBSeat h2) with (SBSeat h1). rewrite Es1.
    destruct Hsb as [? | [_ Hin]]; [by left | right]. by apply Hkeys, Hsome.
  - rewrite Eb4, Eb3. change (BBSeat h2) with (BBSeat h1). rewrite Eb1.
    destruct Hbb as [? | [_ Hin]]; [by left | right]. by apply Hkeys, Hsome.
Qed.

(** Finalization turns the records of a hand in progress into those of
    a finalized hand. *)
Lemma finalizeHand_FinalRecords p h :
  Forall (fun pw => 0 <= winSeatID pw) (pendingWinners p) ->
  SeatsOK p h -> RecordsOK (pfActions p) (foldedThisHand p) h ->
  FinalRecords (finalizeHand p h).2.
Proof.
  intros Hpw Hseats Hok. rewrite finalizeHand_unfold. cbv zeta. cbn [snd fst].
  destruct (preAssign_parser p h) as (Epw & Epf & _ & _).
  apply (afterWinners_FinalRecords _ (foldedThisHand p)).
  - apply fold_applyWinner_SeatsOK. by apply preAssign_SeatsOK.
  - rewrite Epf. apply fold_applyWinner_RecordsOK; [by rewrite Epw |].
    by apply preAssign_RecordsOK.
Qed.

(** The records of every hand a parse hands over. *)
Lemma reachable_FinalRecords world lines :
  Forall (fun H => FinalRecords H /\ 0 <= LocalPlayerSeat H
                   /\ is_Some (Players H !! LocalPlayerSeat H))
    (Hands (ParseReader world lines)).
Proof.
  apply (reach_final world
           (fun p h => RecordsOK (pfActions p) (foldedThisHand p) h) FinalRecords).
  - intros p p' h E1 E2 _. by rewrite E1, E2.
  - intros ts p h [= <-]. split; [| split].
    + apply map_Forall_empty.
    + intros s Hs. by apply elem_of_nil in Hs.
    + apply Forall_nil_2.
  - intros ts msg p h h' _ _ Hh Hok Hh'. by apply handleEvent_RecordsOK.
  - intros p h (_ & _ & Hpw & _) Hseats _ Hok. by apply finalizeHand_FinalRecords.
Qed.

(** ** Winners of a finalized hand *)

Lemma inferWinType_WinType h :
  WinType (inferWinType h) =
  if String.eqb (WinType h) EmptyString
  then if len (CommunityCards h) >=? 3 then "showdown"%string else "fold"%string
  else WinType h.
Proof. unfold inferWinType. by repeat case_match. Qed.

Lemma finalizeHand_winners p h :
  HandOK unpaid h -> WinnerSeat h = -1 ->
  let h' := (finalizeHand p h).2 in
  let pws := pendingWinners p in
  (forall s, wonOf h' s = bool_decide (s ∈ map winSeatID pws))
  /\ (forall s, potOf h' s = sum64 (amountsFor s pws))
  /\ WinnerSeat h' = default (-1) (last (map winSeatID pws))
  /\ TotalPot h' = sum64 (map winAmount pws)
  /\ CommunityCards h' = CommunityCards h
  /\ WinType h' = WinType (inferWinType h)
  /\ IsComplete h' = ((len pws >? 0) || (len (CommunityCards h) >? 0)).
Proof.
  intros Hok Hws h' pws.
  assert (Hun : HandOK unpaid (preAssign p h).2).
  { apply preAssign_HandOK; [done | exact unpaid_new | done]. }
  destruct (preAssign_parser p h) as (Epw & _).
  destruct (preAssign_fields p h) as (Ews & Ewt & Ecc).
  subst h'. rewrite finalizeHand_unfold. cbv zeta.
  change ((?a, ?b).2) with b.
  set (p1 := (preAssign p h).1) in *. set (h1 := (preAssign p h).2) in *.
  set (th := fold_left applyWinner (pendingWinners p1) (0, h1)).
  destruct (afterWinners_fields p1 th.1 th.2) as (Ft & Fws & Fcc & Fwt & Fpl).
  destruct (fold_applyWinner_fields (pendingWinners p1) 0 h1) as (Gwt & Gcc).
  fold th in Gwt, Gcc.
  set (h' := afterWinners p1 th.1 th.2) in *.
  split.
  { intros s. destruct (coreEq_potOf _ _ s (Fpl s)) as [_ ->].
    unfold th. rewrite fold_applyWinner_wonOf, Epw.
    by destruct (unpaid_potOf h1 s Hun) as [_ ->]. }
  split.
  { intros s. destruct (coreEq_potOf _ _ s (Fpl s)) as [-> _].
    unfold th. rewrite fold_applyWinner_potOf, Epw.
    by destruct (unpaid_potOf h1 s Hun) as [-> _]. }
  split. { rewrite Fws. unfold th. by rewrite fold_applyWinner_winner, Ews, Hws, Epw. }
  split. { rewrite Ft. unfold th. by rewrite fold_applyWinner_total, Epw. }
  split. { by rewrite Fcc, Gcc, Ecc. }
  split. { rewrite Fwt, !inferWinType_WinType. by rewrite Gwt, Gcc, Ewt, Ecc. }
  assert (Ecc' : CommunityCards
                   (calculatePreflopStats p1
                      (assignPositions
                         (set_NumPlayers (inferWinType (set_TotalPot th.2 th.1))
                            (len (ActiveSeats (inferWinType (set_TotalPot th.2 th.1)))))))
                 = CommunityCards h).
  { rewrite <- Ecc, <- Gcc, <- Fcc. reflexivity. }
  unfold h', afterWinners. cbn [IsComplete set_IsComplete].
  change (CommunityCards (set_EndTime ?x _)) with (CommunityCards x).
  by rewrite Ecc', Epw.
Qed.

Lemma amountsFor_absent s pws : s ∉ map winSeatID pws -> amountsFor s pws = [].
Proof.
  induction pws as [| pw rest IH]; [done |]. intros Hn.
  rewrite amountsFor_cons. simpl in Hn. apply not_elem_of_cons in Hn as [Hne Hn].
  rewrite decide_False by done. by apply IH.
Qed.

Lemma len_gtb {A} (l : list A) :
  (len l >? 0) = match l with [] => false | _ => true end.
Proof.
  destruct l as [| x l]; [done |]. apply Z.gtb_lt. unfold len. simpl length. lia.
Qed.

Lemma finalizeHand_FinalWin p h :
  Forall (fun pw => 0 <= winSeatID pw) (pendingWinners p) ->
  CurrentOK p h -> winTypeOK h -> FinalWin (finalizeHand p h).2.
Proof.
  intros Hpw (Hok & Hws & Hwt) Hty.
  assert (Hun : HandOK unpaid h).
  { eapply HandOK_weaken; [| exact Hok]. by intros pi [_ ?]. }
  destruct (finalizeHand_winners p h Hun Hws) as (Ewon & Epot & Ewin & Etot & Ecc & Ety & Eic).
  set (H := (finalizeHand p h).2) in *.
  assert (Hlast : pendingWinners p = [] /\ WinnerSeat H = -1
                  \/ pendingWinners p <> [] /\ 0 <= WinnerSeat H
                     /\ WinnerSeat H ∈ map winSeatID (pendingWinners p)).
  { rewrite Ewin. destruct (pendingWinners p) as [| pw0 rest _] using rev_ind.
    - by left.
    - right. split; [by destruct rest |].
      rewrite map_app. change (map winSeatID [pw0]) with [winSeatID pw0].
      rewrite last_snoc. simpl.
      apply Forall_app in Hpw as [_ Hl]. inversion Hl; subst.
      split; [done |]. apply elem_of_app. right. apply list_elem_of_here. }
  unfold FinalWin. split; [| split; [| split; [| split; [| split]]]].
  - rewrite Ety, inferWinType_WinType.
    destruct (String.eqb (WinType h) EmptyString) eqn:E.
    + destruct (len (CommunityCards h) >=? 3); [by left | by right].
    + apply String.eqb_neq in E. by destruct Hty as [? | [? | ?]]; [| left | right].
  - destruct Hlast as [[_ ?] | (_ & ? & _)]; [by left | by right].
  - rewrite Eic, Ecc, !len_gtb. destruct Hlast as [[E1 E2] | (E1 & E2 & _)].
    + rewrite E1, E2. simpl. destruct (CommunityCards h); simpl.
      * split; [done | intros [? | ?]; [lia | done]].
      * split; [intros _; by right | done].
    + destruct (pendingWinners p) as [| pw rest]; [done |]. simpl.
      split; [intros _; by left | done].
  - intros Em1. destruct Hlast as [[E1 _] | (_ & ? & _)]; [| lia].
    rewrite Etot, E1. split; [done |]. intros s. rewrite Ewon, Epot, E1.
    split; [| done]. apply bool_decide_eq_false. simpl. by intros ?%elem_of_nil.
  - intros Hge. destruct Hlast as [[_ ?] | (_ & _ & Hin)]; [lia |].
    rewrite Ewon. by apply bool_decide_eq_true.
  - intros s. rewrite Ewon, Epot. intros Hs%bool_decide_eq_false.
    by rewrite amountsFor_absent.
Qed.

Lemma handleEvent_winTypeOK ts msg p h h' :
  winTypeOK h -> currentHand p = Some h ->
  currentHand (handleEvent ts msg p h) = Some h' -> winTypeOK h'.
Proof.
  intros Hok Hh. unfold handleEvent.
  destruct msg; try rewrite parseCards_spec; try rewrite parseCard_spec;
    cbv beta iota zeta; unfold raiseStreetBet, appendAction, assignLocalCards;
    repeat case_match; simpl; rewrite ?Hh; intros [= <-]; try exact Hok;
    unfold winTypeOK; simpl; autorewrite with hand; simpl; first [exact Hok | tauto].
Qed.

(** The winner fields of every hand a parse hands over. *)
Lemma reachable_FinalWin world lines :
  Forall (fun H => FinalWin H /\ 0 <= LocalPlayerSeat H
                   /\ is_Some (Players H !! LocalPlayerSeat H))
    (Hands (ParseReader world lines)).
Proof.
  apply (reach_final world (fun _ h => winTypeOK h) FinalWin).
  - done.
  - intros ts p h [= <-]. by left.
  - intros ts msg p h h' _ _ Hh Hok Hh'. by eapply handleEvent_winTypeOK.
  - intros p h (_ & _ & Hpw & Hcur) _ Hh Hok. rewrite Hh in Hcur.
    by apply finalizeHand_FinalWin.
Qed.

(** ** What every hand of a parse satisfies *)

(** X7: the seats of every hand a parse hands over are well formed:
    the active seats are pairwise distinct and are exactly the seats
    with a record, [NumPlayers] is their number, every record sits
    under its own seat number, which is not negative, every recorded
    action names the seat of its record and carries an amount between 0
    and the largest [int], the local seat is an active seat, and a
    recorded blind seat is an active seat. *)
Theorem hands_seats_well_formed (world : string) (lines : list Line) :
  Forall
    (fun H =>
       NoDup (ActiveSeats H)
       /\ (forall s, s ∈ ActiveSeats H <-> is_Some (Players H !! s))
       /\ NumPlayers H = len (ActiveSeats H)
       /\ (forall s pi,
              Players H !! s = Some pi ->
              0 <= s /\ SeatID pi = s
              /\ Forall (fun a => PlayerID a = s /\ 0 <= Amount a <= maxInt)
                   (Actions pi))
       /\ 0 <= LocalPlayerSeat H /\ LocalPlayerSeat H ∈ ActiveSeats H
       /\ (SBSeat H = -1 \/ SBSeat H ∈ ActiveSeats H)
       /\ (BBSeat H = -1 \/ BBSeat H ∈ ActiveSeats H))
    (Hands (ParseReader world lines)).
Proof.
  eapply Forall_impl; [apply reachable_FinalRecords |].
  intros H ((Hrec & Hnd & Hkeys & Hnum & Hsb & Hbb) & Hl0 & Hl).
  split; [done |]. split; [done |]. split; [done |]. split.
  { intros s pi Hs. by destruct (Hrec s pi Hs) as (? & ? & ? & _). }
  split; [done |]. split; [by apply Hkeys |].
  split; [destruct Hsb as [? | ?]; [by left | right; by apply Hkeys]
         | destruct Hbb as [? | ?]; [by left | right; by apply Hkeys]].
Qed.

(** X8: the pre-flop flags of every hand a parse hands over are backed
    by recorded actions: a seat marked PFR or 3-bet is marked VPIP and
    has a pre-flop bet or raise on record, a seat marked fold-to-3-bet
    is marked VPIP and folded-pre-flop and has a pre-flop bet or raise
    on record, and a seat marked VPIP has a pre-flop call, bet or raise
    on record. *)
Theorem hands_flags_backed (world : string) (lines : list Line) :
  Forall
    (fun H =>
       forall s pi,
         Players H !! s = Some pi ->
         (PFR pi = true -> VPIP pi = true /\ Exists raiseAction (Actions pi))
         /\ (ThreeBet pi = true ->
             VPIP pi = true /\ Exists raiseAction (Actions pi))
         /\ (FoldTo3Bet pi = true ->
             VPIP pi = true /\ FoldedPF pi = true
             /\ Exists raiseAction (Actions pi))
         /\ (VPIP pi = true -> Exists paidAction (Actions pi)))
    (Hands (ParseReader world lines)).
Proof.
  eapply Forall_impl; [apply reachable_FinalRecords |].
  intros H ((Hrec & _) & _) s pi Hs.
  by destruct (Hrec s pi Hs) as (_ & _ & _ & _ & _ & ? & ? & ? & ?).
Qed.

(** X9: folds in every hand a parse hands over: a seat is marked as
    folded pre-flop exactly when a fold on the pre-flop street is on its
    record, and after a fold the record of a seat holds nothing but
    folds and blinds: no check, call, bet or raise. *)
Theorem hands_folds (world : string) (lines : list Line) :
  Forall
    (fun H =>
       forall s pi,
         Players H !! s = Some pi ->
         (FoldedPF pi = true <-> Exists foldOnPreflop (Actions pi))
         /\ (forall l1 a l2,
                Actions pi = l1 ++ a :: l2 -> Action a = ActionFold ->
                Forall isPassive l2))
    (Hands (ParseReader world lines)).
Proof.
  eapply Forall_impl; [apply reachable_FinalRecords |].
  intros H ((Hrec & _) & _) s pi Hs.
  by destruct (Hrec s pi Hs) as (_ & _ & _ & ? & ? & _).
Qed.

(** X10: the winner fields of every hand a parse hands over agree: the
    win type is showdown or fold; the winner seat is -1 or a seat; the
    hand is complete exactly when it has a winner or a community card;
    without a winner the pot is 0 and no seat has won or been credited;
    with a winner, the winner seat is marked as having won; and a seat
    that has not won has been credited nothing. *)
Theorem hands_winner_fields (world : string) (lines : list Line) :
  Forall
    (fun H =>
       (WinType H = "showdown"%string \/ WinType H = "fold"%string)
       /\ (WinnerSeat H = -1 \/ 0 <= WinnerSeat H)
       /\ (IsComplete H = true <-> 0 <= WinnerSeat H \/ CommunityCards H <> [])
       /\ (WinnerSeat H = -1 ->
           TotalPot H = 0 /\ forall s, wonOf H s = false /\ potOf H s = 0)
       /\ (0 <= WinnerSeat H -> wonOf H (WinnerSeat H) = true)
       /\ (forall s, wonOf H s = false -> potOf H s = 0))
    (Hands (ParseReader world lines)).
Proof.
  eapply Forall_impl; [apply reachable_FinalWin |]. by intros H [HF _].
Qed.

(** ** The list of hands of a parser *)

(** What the handlers leave alone: the counter, the hands handed over
    and the last timestamp; the hand in progress stays in progress with
    its identifier and its start time. *)
Lemma handleEvent_frame ts msg p h :
  currentHand p = Some h ->
  handIDCounter (handleEvent ts msg p h) = handIDCounter p
  /\ Hands (result (handleEvent ts msg p h)) = Hands (result p)
  /\ lastTimestamp (handleEvent ts msg p h) = lastTimestamp p
  /\ exists h', currentHand (handleEvent ts msg p h) = Some h'
                /\ ID h' = ID h /\ StartTime h' = StartTime h.
Proof.
  intros Hh. unfold handleEvent.
  destruct msg; try rewrite parseCards_spec; try rewrite parseCard_spec;
    cbv beta iota zeta; unfold raiseStreetBet, appendAction, assignLocalCards;
    repeat case_match; simpl; rewrite ?Hh;
    (split; [reflexivity |]); (split; [reflexivity |]); (split; [reflexivity |]);
    (eexists; split; [reflexivity |]); simpl; autorewrite with hand; by split.
Qed.

Lemma fold_applyWinner_frame pws t h :
  ID (fold_left applyWinner pws (t, h)).2 = ID h
  /\ StartTime (fold_left applyWinner pws (t, h)).2 = StartTime h.
Proof.
  revert t h. induction pws as [| pw rest IH]; intros t h; [done |].
  simpl. destruct (IH (add64 t (winAmount pw))
                     (set_WinnerSeat
                        (updPlayer (winSeatID pw)
                           (fun pi => set_PotWon pi (add64 (PotWon pi) (winAmount pw)))
                           (updPlayer (winSeatID pw) (fun pi => set_Won pi true)
                              (ensurePlayer (winSeatID pw) h)))
                        (winSeatID pw))) as [-> ->].
  simpl. autorewrite with hand. done.
Qed.

Lemma finalizeHand_frame p h :
  let q := (finalizeHand p h).1 in
  let H := (finalizeHand p h).2 in
  handIDCounter q = handIDCounter p /\ lastTimestamp q = lastTimestamp p
  /\ ID H = ID h /\ StartTime H = StartTime h /\ EndTime H = lastTimestamp p
  /\ forall s, option_Forall2 coreEq
                 (Players (fold_left applyWinner (pendingWinners (preAssign p h).1)
                             (0, (preAssign p h).2)).2 !! s)
                 (Players H !! s).
Proof.
  rewrite finalizeHand_unfold. cbv zeta. cbn [fst snd].
  set (p1 := (preAssign p h).1). set (h1 := (preAssign p h).2).
  set (th := fold_left applyWinner (pendingWinners p1) (0, h1)).
  assert (Ep : handIDCounter p1 = handIDCounter p /\ lastTimestamp p1 = lastTimestamp p
               /\ ID h1 = ID h /\ StartTime h1 = StartTime h).
  { unfold p1, h1, preAssign. destruct (pendingLocalCards p); [| done].
    destruct (_ >=? 0); [| done]. unfold assignLocalCards. simpl.
    autorewrite with hand. done. }
  destruct Ep as (E1 & E2 & E3 & E4).
  assert (Eth : ID th.2 = ID h1 /\ StartTime th.2 = StartTime h1).
  { apply fold_applyWinner_frame. }
  destruct Eth as (E5 & E6).
  destruct (afterWinners_fields p1 th.1 th.2) as (_ & _ & _ & _ & Fpl).
  split; [done |]. split; [done |].
  assert (G : ID (afterWinners p1 th.1 th.2) = ID h
              /\ StartTime (afterWinners p1 th.1 th.2) = StartTime h
              /\ EndTime (afterWinners p1 th.1 th.2) = lastTimestamp p).
  { unfold afterWinners. cbn [ID StartTime EndTime set_IsComplete set_EndTime].
    set (h2 := set_NumPlayers _ _).
    destruct (assignPositions_sameCore h2) as (m3 & Em3 & _).
    destruct (calculatePreflopStats_sameCore p1 (assignPositions h2)) as (m4 & Em4 & _).
    assert (E7 : ID h2 = ID th.2 /\ StartTime h2 = StartTime th.2).
    { unfold h2, inferWinType. by repeat case_match. }
    rewrite Em4, Em3. cbn [ID StartTime set_Players].
    destruct E7 as [-> ->]. by rewrite E5, E6, E3, E4, E2. }
  destruct G as (G1 & G2 & G3). by repeat split.
Qed.

Lemma finalizeCurrentHand_frame p :
  handIDCounter (finalizeCurrentHand p) = handIDCounter p
  /\ lastTimestamp (finalizeCurrentHand p) = lastTimestamp p.
Proof.
  unfold finalizeCurrentHand. destruct (currentHand p) as [h |]; [| done].
  destruct (finalizeHand_frame p h) as (E1 & E2 & _).
  destruct (finalizeHand p h) as [p2 h2]. simpl in E1, E2.
  destruct (LocalPlayerSeat h2 >=? 0); [destruct (Players h2 !! LocalPlayerSeat h2) |];
    by split.
Qed.

Lemma finalizeCurrentHand_grows p :
  Hands (result p) `prefix_of` Hands (result (finalizeCurrentHand p))
  /\ (handsInFlight (finalizeCurrentHand p) <= handsInFlight p)%nat.
Proof.
  unfold handsInFlight. rewrite finalizeCurrentHand_current.
  destruct (currentHand p) as [h |] eqn:Hh.
  - destruct (finalizeCurrentHand_hands p h Hh) as [-> | ->].
    + split; [done | lia].
    + split; [by apply prefix_app_r | rewrite length_app; simpl; lia].
  - unfold finalizeCurrentHand. rewrite Hh. split; [done | lia].
Qed.

Lemma processPokerEvent_grows ts msg p :
  Hands (result p) `prefix_of` Hands (result (processPokerEvent ts msg p))
  /\ (handsInFlight (processPokerEvent ts msg p)
      <= handsInFlight p + (if isNewGame (Stamped ts msg) then 1 else 0))%nat.
Proof.
  assert (Hnew : Hands (result p)
                 `prefix_of` Hands (result (startNewHand ts (finalizeCurrentHand p)))
                 /\ (handsInFlight (startNewHand ts (finalizeCurrentHand p))
                     <= handsInFlight p + 1)%nat).
  { destruct (finalizeCurrentHand_grows p) as [H1 H2]. split; [exact H1 |].
    unfold handsInFlight in *. rewrite finalizeCurrentHand_current in H2.
    simpl. lia. }
  unfold processPokerEvent.
  destruct (currentHand p) as [h |] eqn:Hh.
  - destruct msg; try exact Hnew;
      match goal with
      | |- context [handleEvent ?ts ?m p h] =>
          destruct (handleEvent_frame ts m p h Hh) as (_ & E & _ & h' & Eh' & _);
          unfold handsInFlight; rewrite E, Eh', Hh; split; [done | simpl; lia]
      end.
  - destruct msg; try exact Hnew; (split; [done | simpl; lia]).
Qed.

Lemma ParseLine_grows world p line :
  Hands (result p) `prefix_of` Hands (result (ParseLine world p line))
  /\ (handsInFlight (ParseLine world p line)
      <= handsInFlight p + (if isNewGame line then 1 else 0))%nat.
Proof.
  destruct line as [| ts msg]; [split; [done | simpl; lia] |].
  unfold ParseLine. set (q := set_lastTimestamp p ts).
  change (Hands (result p)) with (Hands (result q)).
  change (handsInFlight p) with (handsInFlight q).
  destruct msg; try apply processPokerEvent_grows.
  - split; [done | unfold handsInFlight; simpl; lia].
  - destruct (inPokerWorld q).
    + destruct (finalizeCurrentHand_grows q) as [H1 H2]. split; [exact H1 |].
      unfold handsInFlight in *. simpl in *. lia.
    + split; [done | unfold handsInFlight; simpl; lia].
Qed.

Lemma parseLines_grows world lines p :
  Hands (result p) `prefix_of` Hands (result (parseLines world p lines))
  /\ (handsInFlight (parseLines world p lines) <= handsInFlight p + newGames lines)%nat.
Proof.
  revert p. induction lines as [| line rest IH]; intros p.
  { split; [done | unfold newGames; simpl; lia]. }
  simpl. destruct (IH (ParseLine world p line)) as [H1 H2].
  destruct (ParseLine_grows world p line) as [G1 G2].
  split; [by etrans |].
  unfold newGames in *. simpl. destruct (isNewGame line); simpl; simpl in G2; lia.
Qed.

(** X11: the list of hands only grows.  Whatever lines follow, the
    hands a parser has handed over stay an initial segment of its list
    of hands, finalization included, and a parse hands over no more
    hands than there are new-game lines. *)
Theorem hands_append_only (world : string) :
  (forall p lines, GetHands p `prefix_of` GetHands (parseLines world p lines))
  /\ (forall p, GetHands p `prefix_of` GetHands (finalizeCurrentHand p))
  /\ (forall lines,
         (length (Hands (ParseReader world lines)) <= newGames lines)%nat).
Proof.
  split; [intros p lines; apply parseLines_grows |].
  split; [intros p; apply finalizeCurrentHand_grows |].
  intros lines. unfold ParseReader.
  destruct (parseLines_grows world lines NewParser) as [_ H].
  destruct (finalizeCurrentHand_grows (parseLines world NewParser lines)) as [_ G].
  unfold handsInFlight in *. rewrite finalizeCurrentHand_current in G.
  simpl in H. lia.
Qed.

(** ** Hand identifiers *)

Lemma StronglySorted_snoc (l : list Z) (x : Z) :
  StronglySorted Z.lt l -> Forall (fun y => y < x) l -> StronglySorted Z.lt (l ++ [x]).
Proof.
  induction 1 as [| y l Hs IH Hy]; intros Hx; simpl.
  - repeat constructor.
  - inversion Hx; subst. constructor; [by apply IH |].
    apply Forall_app. split; [done | by repeat constructor].
Qed.

Lemma finalizeCurrentHand_IdInv n p : IdInv n p -> IdInv n (finalizeCurrentHand p).
Proof.
  intros (Hc & Hs & Hr & Hcur).
  destruct (finalizeCurrentHand_frame p) as (Ec & _).
  split; [by rewrite Ec |].
  assert (G : StronglySorted Z.lt (map ID (Hands (result (finalizeCurrentHand p))))
              /\ Forall (fun H => 1 <= ID H <= Z.of_nat n)
                   (Hands (result (finalizeCurrentHand p)))).
  { destruct (currentHand p) as [h |] eqn:Hh.
    - destruct (Hcur h eq_refl) as (Eid & Hn & Hlt).
      destruct (finalizeHand_frame p h) as (_ & _ & EID & _).
      cbv zeta in EID.
      destruct (finalizeCurrentHand_hands p h Hh) as [-> | ->]; [done |].
      rewrite map_app. change (map ID [?x]) with [ID x]. rewrite EID, Eid. split.
      + apply StronglySorted_snoc; [done |]. by rewrite Forall_map.
      + apply Forall_app. split; [done |]. constructor; [| constructor].
        rewrite EID, Eid. lia.
    - unfold finalizeCurrentHand. by rewrite Hh. }
  destruct G as [G1 G2]. split; [done |]. split; [done |].
  intros h Hh. by rewrite finalizeCurrentHand_current in Hh.
Qed.

Lemma startNewHand_IdInv n ts p :
  Z.of_nat (S n) <= maxInt -> currentHand p = None ->
  IdInv n p -> IdInv (S n) (startNewHand ts p).
Proof.
  intros Hb Hnone (Hc & Hs & Hr & _).
  assert (E : add64 (handIDCounter p) 1 = Z.of_nat (S n)).
  { rewrite Hc. unfold add64. rewrite wrap64_small; [lia |]. unfold minInt. lia. }
  unfold IdInv, startNewHand. cbn [handIDCounter result currentHand set_handIDCounter].
  rewrite E. split; [done |]. split; [done |]. split.
  - eapply Forall_impl; [exact Hr |]. intros H ?. simpl in *. lia.
  - intros h [= <-]. cbn [ID]. split; [done |]. split; [lia |].
    eapply Forall_impl; [exact Hr |]. intros H ?. simpl in *. lia.
Qed.

Lemma processPokerEvent_IdInv n ts msg p :
  Z.of_nat (n + (if isNewGame (Stamped ts msg) then 1 else 0)) <= maxInt ->
  IdInv n p ->
  IdInv (n + (if isNewGame (Stamped ts msg) then 1 else 0)) (processPokerEvent ts msg p).
Proof.
  intros Hb HI.
  assert (Hnew : Z.of_nat (S n) <= maxInt ->
                 IdInv (n + 1) (startNewHand ts (finalizeCurrentHand p))).
  { intros Hb'. rewrite Nat.add_1_r. apply startNewHand_IdInv; [done | |].
    - apply finalizeCurrentHand_current.
    - by apply finalizeCurrentHand_IdInv. }
  unfold processPokerEvent.
  destruct (currentHand p) as [h |] eqn:Hh.
  - destruct msg; try (apply Hnew; simpl in Hb; lia);
      simpl isNewGame; cbv iota; rewrite Nat.add_0_r;
      match goal with
      | |- context [handleEvent ?ts ?m p h] =>
          destruct (handleEvent_frame ts m p h Hh) as (E1 & E2 & _ & h' & Eh' & E3 & _)
      end;
      destruct HI as (Hc & Hs & Hr & Hcur);
      (split; [by rewrite E1 |]); rewrite E2; (split; [done |]); (split; [done |]);
      intros h0; rewrite Eh'; intros [= <-]; rewrite E3; by apply Hcur.
  - destruct msg; try (apply Hnew; simpl in Hb; lia);
      simpl isNewGame; cbv iota; rewrite Nat.add_0_r; exact HI.
Qed.

Lemma ParseLine_IdInv world n p line :
  Z.of_nat (n + (if isNewGame line then 1 else 0)) <= maxInt ->
  IdInv n p -> IdInv (n + (if isNewGame line then 1 else 0)) (ParseLine world p line).
Proof.
  intros Hb HI. destruct line as [| ts msg].
  { simpl. by rewrite Nat.add_0_r. }
  unfold ParseLine. set (q := set_lastTimestamp p ts).
  assert (HI' : IdInv n q) by exact HI.
  destruct msg; try (by apply processPokerEvent_IdInv).
  - simpl isNewGame. cbv iota. rewrite Nat.add_0_r. exact HI'.
  - simpl isNewGame. cbv iota. rewrite Nat.add_0_r.
    assert (HI2 : IdInv n (if inPokerWorld q then finalizeCurrentHand q else q)).
    { destruct (inPokerWorld q); [by apply finalizeCurrentHand_IdInv | done]. }
    exact HI2.
Qed.

Lemma parseLines_IdInv world lines n p :
  Z.of_nat (n + newGames lines) <= maxInt ->
  IdInv n p -> IdInv (n + newGames lines) (parseLines world p lines).
Proof.
  revert n p. induction lines as [| line rest IH]; intros n p Hb HI.
  { unfold newGames. simpl. by rewrite Nat.add_0_r. }
  assert (E : (n + newGames (line :: rest)
               = n + (if isNewGame line then 1 else 0) + newGames rest)%nat).
  { unfold newGames. simpl. destruct (isNewGame line); simpl; lia. }
  rewrite E in Hb |- *. simpl. apply IH; [done |].
  apply ParseLine_IdInv; [lia | done].
Qed.

(** X12: hand identifiers.  As long as the number of new-game lines
    fits an [int], the hands of a parse carry strictly increasing
    identifiers, each between 1 and the number of new-game lines. *)
Theorem hands_ids_increase (world : string) (lines : list Line) :
  Z.of_nat (newGames lines) <= maxInt ->
  StronglySorted Z.lt (map ID (Hands (ParseReader world lines)))
  /\ Forall (fun H => 1 <= ID H <= Z.of_nat (newGames lines))
       (Hands (ParseReader world lines)).
Proof.
  intros Hb.
  assert (H0 : IdInv 0 NewParser).
  { split; [done |]. split; [constructor |]. split; [constructor | done]. }
  pose proof (parseLines_IdInv world lines 0 NewParser Hb H0) as HI.
  apply finalizeCurrentHand_IdInv in HI. destruct HI as (_ & Hs & Hr & _).
  by split.
Qed.

Lemma hands_ids_increase_witness :
  StronglySorted Z.lt (map ID (Hands (ParseReader "wrld_0" (scenarioS2 ++ scenarioS6)))).
Proof.
  apply (hands_ids_increase "wrld_0" (scenarioS2 ++ scenarioS6)).
  vm_compute. discriminate.
Defined.

(** ** Times *)

Lemma within_weaken lo hi hi' h : hi <= hi' -> within lo hi h -> within lo hi' h.
Proof.
  intros Hle. apply HandOK_weaken. intros pi Hf.
  eapply Forall_impl; [exact Hf |]. intros a ?. simpl in *. lia.
Qed.

Lemma handleEvent_within lo ts msg p h h' :
  within lo ts h -> lo <= ts -> currentHand p = Some h ->
  currentHand (handleEvent ts msg p h) = Some h' -> within lo ts h'.
Proof.
  intros Hok Hts Hh. unfold handleEvent.
  destruct msg; try rewrite parseCards_spec; try rewrite parseCard_spec;
    cbv beta iota zeta; unfold raiseStreetBet, appendAction, assignLocalCards;
    repeat case_match; simpl; rewrite ?Hh; intros [= <-]; try exact Hok.
  all: unfold within;
    repeat first
      [ exact Hok
      | match goal with
        | |- HandOK ?Q (set_LocalPlayerSeat ?x _) => change (HandOK Q x)
        | |- HandOK ?Q (set_SBSeat ?x _) => change (HandOK Q x)
        | |- HandOK ?Q (set_BBSeat ?x _) => change (HandOK Q x)
        end
      | apply HandOK_ensurePlayer; [| by constructor]
      | apply HandOK_updPlayer;
          [| intros pi Hpi; try case_match; simpl;
             first [ exact Hpi
                   | apply Forall_app; split; [exact Hpi |];
                     constructor; [simpl; lia | constructor] ] ] ].
Qed.

Lemma finalizeHand_within lo hi p h :
  within lo hi h -> within lo hi (finalizeHand p h).2.
Proof.
  intros Hok. destruct (finalizeHand_frame p h) as (_ & _ & _ & _ & _ & Hl).
  cbv zeta in Hl. unfold within in *.
  eapply HandOK_lookups; [exact Hl | |].
  - intros a b (_ & E & _). by rewrite E.
  - apply fold_applyWinner_HandOK; [| by constructor | done | done].
    apply preAssign_HandOK; [done | by constructor | done].
Qed.

Lemma StronglySorted_snoc_rel {A} (R : A -> A -> Prop) (l : list A) (x : A) :
  StronglySorted R l -> Forall (fun y => R y x) l -> StronglySorted R (l ++ [x]).
Proof.
  induction 1 as [| y l Hs IH Hy]; intros Hx; simpl.
  - repeat constructor.
  - inversion Hx; subst. constructor; [by apply IH |].
    apply Forall_app. split; [done | by repeat constructor].
Qed.

Lemma finalizeCurrentHand_Chron lo p : Chron lo p -> Chron lo (finalizeCurrentHand p).
Proof.
  intros (Hf & Hs & Hcur).
  assert (G : Forall (fun H => handTimes H /\ EndTime H <= lo)
                (Hands (result (finalizeCurrentHand p)))
              /\ StronglySorted (fun H1 H2 => EndTime H1 <= StartTime H2)
                   (Hands (result (finalizeCurrentHand p)))).
  { destruct (currentHand p) as [h |] eqn:Hh.
    - destruct (Hcur h eq_refl) as (H1 & H2 & H3 & H4).
      destruct (finalizeHand_frame p h) as (_ & _ & _ & Est & Eend & _).
      cbv zeta in Est, Eend.
      destruct (finalizeCurrentHand_hands p h Hh) as [-> | ->]; [done |].
      split.
      + apply Forall_app. split; [done |]. constructor; [| constructor].
        unfold handTimes. rewrite Est, Eend. split; [| done].
        split; [done |]. by apply finalizeHand_within.
      + apply StronglySorted_snoc_rel; [done |]. by rewrite Est.
    - unfold finalizeCurrentHand. by rewrite Hh. }
  destruct G as [G1 G2]. split; [done |]. split; [done |].
  intros h Hh. by rewrite finalizeCurrentHand_current in Hh.
Qed.

Lemma ParseLine_Chron world lo p ts msg :
  lo <= ts -> Chron lo p -> Chron ts (ParseLine world p (Stamped ts msg)).
Proof.
  intros Hle (Hf & Hs & Hcur).
  set (q := set_lastTimestamp p ts).
  assert (Hq : Chron ts q).
  { split; [| split; [exact Hs |]].
    - eapply Forall_impl; [exact Hf |]. intros H [? ?]. split; [done | lia].
    - intros h Hh. destruct (Hcur h Hh) as (H1 & H2 & H3 & H4).
      cbn [lastTimestamp q set_lastTimestamp].
      split; [lia |]. split; [lia |]. split; [| done].
      eapply within_weaken; [| exact H3]. lia. }
  assert (Hfin : Chron ts (finalizeCurrentHand q)) by by apply finalizeCurrentHand_Chron.
  assert (Hnew : Chron ts (startNewHand ts (finalizeCurrentHand q))).
  { destruct (finalizeCurrentHand_frame q) as (_ & Et).
    destruct Hfin as (Hf' & Hs' & _). split; [exact Hf' |]. split; [exact Hs' |].
    intros h [= <-].
    change (ts <= lastTimestamp (finalizeCurrentHand q)
            /\ lastTimestamp (finalizeCurrentHand q) <= ts
            /\ within ts (lastTimestamp (finalizeCurrentHand q))
                 (mkHand (add64 (handIDCounter (finalizeCurrentHand q)) 1) ts 0
                    (ResLocalPlayerSeat (result (finalizeCurrentHand q)))
                    (-1) (-1) (-1) EmptyString 0 [] [] ∅ 0 false)
            /\ Forall (fun H => EndTime H <= ts)
                 (Hands (result (finalizeCurrentHand q)))).
    rewrite Et. change (lastTimestamp q) with ts.
    split; [lia |]. split; [lia |]. split.
    - apply map_Forall_empty.
    - eapply Forall_impl; [exact Hf' |]. by intros H [_ ?]. }
  assert (Hev : forall m h, currentHand q = Some h -> Chron ts (handleEvent ts m q h)).
  { intros m h Hh. destruct Hq as (Hf' & Hs' & Hcur').
    destruct (handleEvent_frame ts m q h Hh) as (_ & E2 & E3 & h' & Eh' & _ & E5).
    split; [by rewrite E2 |]. split; [by rewrite E2 |].
    intros h0. rewrite Eh'. intros [= <-]. rewrite E2, E3, E5.
    destruct (Hcur' h Hh) as (H1 & H2 & H3 & H4).
    split; [done |]. split; [done |]. split; [| done].
    cbn [lastTimestamp q set_lastTimestamp] in *.
    eapply handleEvent_within; [exact H3 | exact H1 | exact Hh | exact Eh']. }
  unfold ParseLine. fold q.
  destruct msg; unfold processPokerEvent;
    try exact Hnew; try exact Hq;
    try (destruct (currentHand q) as [h |] eqn:Hh; [by apply Hev | exact Hq]).
  - destruct (inPokerWorld q); [exact Hfin | exact Hq].
Qed.

Lemma parseLines_Chron world lines lo p :
  Chron lo p -> Forall (fun ts => lo <= ts) (stamps lines) ->
  StronglySorted Z.le (stamps lines) ->
  exists lo', Chron lo' (parseLines world p lines).
Proof.
  revert lo p. induction lines as [| line rest IH]; intros lo p HC Hlo Hs.
  { by exists lo. }
  destruct line as [| ts msg]; simpl.
  - by apply (IH lo).
  - unfold stamps in Hlo, Hs. simpl in Hlo, Hs.
    inversion Hlo as [| ? ? Hts Hlo']; subst. inversion Hs as [| ? ? Hs' Hall]; subst.
    apply (IH ts); [by apply (ParseLine_Chron world lo) | done | done].
Qed.

(** X13: times.  When the timestamps of the lines never decrease,
    every hand of a parse ends no earlier than it starts, all of its
    recorded actions are stamped between its start and its end, and the
    hands follow each other in time: a hand ends before the next one
    starts. *)
Theorem hands_chronological (world : string) (lines : list Line) :
  StronglySorted Z.le (stamps lines) ->
  Forall
    (fun H =>
       StartTime H <= EndTime H
       /\ forall s pi a,
            Players H !! s = Some pi -> a ∈ Actions pi ->
            StartTime H <= Timestamp a <= EndTime H)
    (Hands (ParseReader world lines))
  /\ StronglySorted (fun H1 H2 => EndTime H1 <= StartTime H2)
       (Hands (ParseReader world lines)).
Proof.
  intros Hs.
  set (lo := default 0 (head (stamps lines))).
  assert (H0 : Chron lo NewParser).
  { split; [constructor |]. split; [constructor | done]. }
  assert (Hlo : Forall (fun ts => lo <= ts) (stamps lines)).
  { unfold lo. destruct (stamps lines) as [| t0 rest]; [constructor |].
    inversion Hs; subst. simpl. constructor; [lia | done]. }
  destruct (parseLines_Chron world lines lo NewParser H0 Hlo Hs) as (lo' & HC).
  apply finalizeCurrentHand_Chron in HC. destruct HC as (Hf & Hsorted & _).
  split; [| exact Hsorted].
  eapply Forall_impl; [exact Hf |]. intros H [[H1 H2] _]. split; [done |].
  intros s pi a Hl Ha. specialize (H2 s pi Hl). simpl in H2.
  rewrite Forall_forall in H2. by apply H2.
Qed.

Lemma hands_chronological_witness :
  StronglySorted (fun H1 H2 => EndTime H1 <= StartTime H2)
    (Hands (ParseReader "wrld_0" scenarioS2)).
Proof.
  apply (hands_chronological "wrld_0" scenarioS2).
  unfold stamps. simpl. repeat (constructor; [| repeat constructor; lia]). constructor.
Defined.

(** ** The pre-flop action sequence of the analyzer *)

Lemma seqLess_key x y :
  Stats.seqLess x y = true <->
  (seqKey x).1 < (seqKey y).1
  \/ ((seqKey x).1 = (seqKey y).1 /\ (seqKey x).2 < (seqKey y).2).
Proof. unfold Stats.seqLess, seqKey. simpl. lia. Qed.

Lemma seqLess_total x y :
  Stats.seqLess x y = false -> Stats.seqLess y x = false -> seqKey x = seqKey y.
Proof.
  intros H1 H2.
  assert (G1 : ~ ((seqKey x).1 < (seqKey y).1
                  \/ ((seqKey x).1 = (seqKey y).1 /\ (seqKey x).2 < (seqKey y).2))).
  { rewrite <- seqLess_key. by rewrite H1. }
  assert (G2 : ~ ((seqKey y).1 < (seqKey x).1
                  \/ ((seqKey y).1 = (seqKey x).1 /\ (seqKey y).2 < (seqKey x).2))).
  { rewrite <- seqLess_key. by rewrite H2. }
  destruct (seqKey x) as [a b], (seqKey y) as [c d]. simpl in *.
  f_equal; lia.
Qed.

Lemma seqLess_same_key x y : seqKey x = seqKey y -> Stats.seqLess x y = false.
Proof.
  intros E. apply not_true_is_false. rewrite seqLess_key, E. lia.
Qed.

Lemma seqLess_trans x y z :
  Stats.seqLess y x = false -> Stats.seqLess z y = false -> Stats.seqLess z x = false.
Proof.
  intros H1 H2. apply not_true_is_false. intros H3.
  apply seqLess_key in H3.
  assert (G1 : ~ ((seqKey y).1 < (seqKey x).1
                  \/ ((seqKey y).1 = (seqKey x).1 /\ (seqKey y).2 < (seqKey x).2))).
  { rewrite <- seqLess_key. by rewrite H1. }
  assert (G2 : ~ ((seqKey z).1 < (seqKey y).1
                  \/ ((seqKey z).1 = (seqKey y).1 /\ (seqKey z).2 < (seqKey y).2))).
  { rewrite <- seqLess_key. by rewrite H2. }
  lia.
Qed.

Lemma seqLess_asym x y : Stats.seqLess x y = true -> Stats.seqLess y x = false.
Proof.
  intros H. apply not_true_is_false. intros H'.
  apply seqLess_key in H, H'. lia.
Qed.

(** *** The insertion sort *)

Lemma sinkLeft_perm x l : Stats.sinkLeft x l ≡ₚ x :: l.
Proof.
  induction l as [| y t IH]; simpl; [done |].
  destruct (Stats.seqLess x y); [| done]. rewrite IH. apply Permutation_swap.
Qed.

(** In the reversed prefix every element is followed by elements that
    are not greater. *)
Lemma sinkLeft_sorted x l :
  StronglySorted (fun a b => Stats.seqLess a b = false) l ->
  StronglySorted (fun a b => Stats.seqLess a b = false) (Stats.sinkLeft x l).
Proof.
  induction 1 as [| y t Hs IH Hy]; simpl; [repeat constructor |].
  destruct (Stats.seqLess x y) eqn:E.
  - constructor; [exact IH |]. rewrite sinkLeft_perm. constructor; [| done].
    by apply seqLess_asym.
  - constructor; [by constructor |]. constructor; [done |].
    eapply Forall_impl; [exact Hy |]. intros z Hz. simpl in Hz.
    by apply (seqLess_trans z y x).
Qed.

(** The sort is stable: among the elements of one key, [x] comes
    last. *)
Lemma sinkLeft_filter k x l :
  filter (fun y => seqKey y = k) (Stats.sinkLeft x l)
  = filter (fun y => seqKey y = k) [x] ++ filter (fun y => seqKey y = k) l.
Proof.
  induction l as [| y t IH]; [simpl; by rewrite app_nil_r |]. simpl.
  destruct (Stats.seqLess x y) eqn:E; [| apply (filter_app _ [x] (y :: t))].
  rewrite filter_cons, IH.
  destruct (decide (seqKey y = k)) as [Ey | Ey].
  - rewrite (filter_cons _ y t), decide_True by done.
    assert (Hx : seqKey x <> k).
    { intros Ex. rewrite seqLess_same_key in E; [done | congruence]. }
    rewrite filter_cons, decide_False by done. done.
  - rewrite (filter_cons _ y t), decide_False by done. done.
Qed.

Lemma sortSeq_fold acc l :
  StronglySorted (fun a b => Stats.seqLess a b = false) acc ->
  let r := fold_left (fun revPre x => Stats.sinkLeft x revPre) l acc in
  StronglySorted (fun a b => Stats.seqLess a b = false) r
  /\ r ≡ₚ l ++ acc
  /\ forall k, filter (fun y => seqKey y = k) r
               = rev (filter (fun y => seqKey y = k) l)
                 ++ filter (fun y => seqKey y = k) acc.
Proof.
  revert acc. induction l as [| x l IH]; intros acc Hacc; simpl.
  { by repeat split. }
  destruct (IH (Stats.sinkLeft x acc) (sinkLeft_sorted x acc Hacc)) as (H1 & H2 & H3).
  split; [exact H1 |]. split.
  - rewrite H2, sinkLeft_perm. by rewrite Permutation_middle.
  - intros k. rewrite H3, sinkLeft_filter, (filter_cons _ x l), (filter_cons _ x []).
    destruct (decide (seqKey x = k)); simpl; [| done].
    by rewrite <- app_assoc.
Qed.

Lemma StronglySorted_rev {A} (R : A -> A -> Prop) (l : list A) :
  StronglySorted R l -> StronglySorted (fun a b => R b a) (rev l).
Proof.
  induction 1 as [| y t Hs IH Hy]; simpl; [constructor |].
  apply StronglySorted_snoc_rel; [done |]. by apply Forall_rev.
Qed.

Lemma filter_rev_key k (l : list Stats.seqAction) :
  filter (fun y => seqKey y = k) (rev l) = rev (filter (fun y => seqKey y = k) l).
Proof.
  induction l as [| x l IH]; [done |]. simpl.
  rewrite filter_app, IH, (filter_cons _ x l), (filter_cons _ x []).
  destruct (decide (seqKey x = k)); simpl; [done | by rewrite app_nil_r].
Qed.

Lemma sortSeq_spec l :
  seqSorted (Stats.sortSeq l)
  /\ Stats.sortSeq l ≡ₚ l
  /\ forall k, filter (fun y => seqKey y = k) (Stats.sortSeq l)
               = filter (fun y => seqKey y = k) l.
Proof.
  destruct (sortSeq_fold [] l (SSorted_nil _)) as (H1 & H2 & H3).
  unfold Stats.sortSeq, seqSorted. split; [| split].
  - by apply StronglySorted_rev in H1.
  - rewrite <- Permutation_rev. rewrite H2. by rewrite app_nil_r.
  - intros k. rewrite filter_rev_key, H3, app_nil_r. by rewrite rev_involutive.
Qed.

(** A sorted list is determined by the order of the elements of each
    key. *)
Lemma seqSorted_unique l1 l2 :
  seqSorted l1 -> seqSorted l2 ->
  (forall k, filter (fun y => seqKey y = k) l1 = filter (fun y => seqKey y = k) l2) ->
  l1 = l2.
Proof.
  intros Hs1. revert l2. induction Hs1 as [| x l1 Hs1 IH Hx]; intros l2 Hs2 Hf.
  - destruct l2 as [| y l2]; [done |]. specialize (Hf (seqKey y)).
    rewrite filter_cons, decide_True in Hf by done. discriminate Hf.
  - destruct l2 as [| y l2].
    { specialize (Hf (seqKey x)). rewrite filter_cons, decide_True in Hf by done.
      discriminate Hf. }
    inversion Hs2 as [| ? ? Hs2' Hy]; subst.
    assert (Hxin : x ∈ y :: l2).
    { assert (H : x ∈ filter (fun z => seqKey z = seqKey x) (y :: l2)).
      { rewrite <- Hf, filter_cons, decide_True by done. apply list_elem_of_here. }
      by apply list_elem_of_filter in H as [_ H]. }
    assert (Hyin : y ∈ x :: l1).
    { assert (H : y ∈ filter (fun z => seqKey z = seqKey y) (x :: l1)).
      { rewrite Hf, filter_cons, decide_True by done. apply list_elem_of_here. }
      by apply list_elem_of_filter in H as [_ H]. }
    assert (Ek : seqKey x = seqKey y).
    { apply elem_of_cons in Hxin as [-> | Hxin]; [done |].
      apply elem_of_cons in Hyin as [-> | Hyin]; [done |].
      rewrite Forall_forall in Hx, Hy.
      apply seqLess_total; [by apply Hy | by apply Hx]. }
    assert (Exy : x = y).
    { specialize (Hf (seqKey x)).
      rewrite (filter_cons _ x), (filter_cons _ y), decide_True, decide_True in Hf
        by done.
      by injection Hf. }
    subst y. f_equal. apply IH; [done |]. intros k. specialize (Hf k).
    rewrite (filter_cons _ x l1), (filter_cons _ x l2) in Hf.
    destruct (decide (seqKey x = k)); [by injection Hf | done].
Qed.

(** *** Collecting the actions *)

Lemma collectActions_spec s acts out :
  Stats.collectActions s acts out
  = out ++ map (Stats.mkSeqAction s) (filter keptAction acts).
Proof.
  revert out. induction acts as [| a rest IH]; intros out; simpl.
  { by rewrite app_nil_r. }
  rewrite filter_cons. unfold keptAction at 2.
  destruct (decide (OnStreet a = StreetPreFlop)) as [Es | Es].
  - rewrite bool_decide_eq_true_2 by done. simpl.
    destruct (decide (Action a = ActionBlindSB)) as [E1 | E1].
    { rewrite (bool_decide_eq_true_2 _ E1). simpl. rewrite IH.
      by rewrite decide_False by tauto. }
    rewrite (bool_decide_eq_false_2 _ E1). simpl.
    destruct (decide (Action a = ActionBlindBB)) as [E2 | E2].
    { rewrite (bool_decide_eq_true_2 _ E2). rewrite IH.
      by rewrite decide_False by tauto. }
    rewrite (bool_decide_eq_false_2 _ E2). rewrite IH.
    rewrite decide_True by done. simpl. by rewrite <- app_assoc.
  - rewrite bool_decide_eq_false_2 by done. simpl. rewrite IH.
    by rewrite decide_False by tauto.
Qed.

Lemma collectPlayers_spec order out :
  Stats.collectPlayers order out = out ++ flat_map seatBlock order.
Proof.
  revert out. induction order as [| [s p] rest IH]; intros out; simpl.
  { by rewrite app_nil_r. }
  rewrite IH, collectActions_spec. by rewrite <- app_assoc.
Qed.

Lemma seatBlock_filter_other k sp :
  sp.1 <> k.2 -> filter (fun y => seqKey y = k) (seatBlock sp) = [].
Proof.
  intros Hne. unfold seatBlock.
  induction (filter keptAction (Actions sp.2)) as [| a l IH]; [done |].
  simpl. rewrite filter_cons, decide_False; [exact IH |].
  unfold seqKey. simpl. intros <-. by apply Hne.
Qed.

(** With pairwise distinct seats, the elements of one key come from
    one block, whatever the order of the blocks. *)
Lemma flat_map_filter_key k order :
  NoDup order.*1 ->
  filter (fun y => seqKey y = k) (flat_map seatBlock order)
  = match list_find (fun sp => sp.1 = k.2) order with
    | Some (_, sp) => filter (fun y => seqKey y = k) (seatBlock sp)
    | None => []
    end.
Proof.
  induction order as [| sp rest IH]; intros Hnd; [done |].
  simpl in Hnd. apply NoDup_cons in Hnd as [Hnin Hnd].
  simpl. rewrite filter_app, (IH Hnd).
  destruct (decide (sp.1 = k.2)) as [E | E]; simpl.
  - destruct (list_find (fun sp0 => sp0.1 = k.2) rest) as [[i sp'] |] eqn:Ef.
    + apply list_find_Some in Ef as (Hl & E' & _).
      exfalso. apply Hnin. rewrite E, <- E'.
      apply list_elem_of_fmap_2. by eapply list_elem_of_lookup_2.
    + by rewrite app_nil_r.
  - rewrite seatBlock_filter_other by done. simpl.
    by destruct (list_find _ rest) as [[i sp'] |].
Qed.

Lemma NoDup_fst_functional {A B} (l : list (A * B)) x y1 y2 :
  NoDup l.*1 -> (x, y1) ∈ l -> (x, y2) ∈ l -> y1 = y2.
Proof.
  induction l as [| [a b] l IH]; intros Hnd H1 H2.
  { by apply elem_of_nil in H1. }
  simpl in Hnd. apply NoDup_cons in Hnd as [Hnin Hnd].
  apply elem_of_cons in H1 as [E1 | H1];
    apply elem_of_cons in H2 as [E2 | H2]; simplify_eq.
  - done.
  - exfalso. apply Hnin. by apply (list_elem_of_fmap_2 fst) in H2.
  - exfalso. apply Hnin. by apply (list_elem_of_fmap_2 fst) in H1.
  - by apply IH.
Qed.

Lemma flat_map_filter_perm k order order' :
  NoDup order.*1 -> order ≡ₚ order' ->
  filter (fun y => seqKey y = k) (flat_map seatBlock order)
  = filter (fun y => seqKey y = k) (flat_map seatBlock order').
Proof.
  intros Hnd Hp.
  assert (Hnd' : NoDup order'.*1) by by rewrite <- Hp.
  rewrite !flat_map_filter_key by done.
  destruct (list_find (fun sp => sp.1 = k.2) order) as [[i sp] |] eqn:E1;
    destruct (list_find (fun sp => sp.1 = k.2) order') as [[j sp'] |] eqn:E2.
  - apply list_find_Some in E1 as (H1 & Ek1 & _).
    apply list_find_Some in E2 as (H2 & Ek2 & _).
    assert (Hin : sp ∈ order') by (rewrite <- Hp; by eapply list_elem_of_lookup_2).
    assert (Hin' : sp' ∈ order') by by eapply list_elem_of_lookup_2.
    assert (sp = sp') as ->; [| done].
    destruct sp as [s p], sp' as [s' p']. simpl in *.
    assert (s = s') as <- by congruence. f_equal.
    by eapply (NoDup_fst_functional order').
  - apply list_find_Some in E1 as (H1 & Ek1 & _).
    apply list_find_None in E2. rewrite Forall_forall in E2.
    exfalso. apply (E2 sp); [| done]. rewrite <- Hp. by eapply list_elem_of_lookup_2.
  - apply list_find_Some in E2 as (H2 & Ek2 & _).
    apply list_find_None in E1. rewrite Forall_forall in E1.
    exfalso. apply (E1 sp'); [| done]. rewrite Hp. by eapply list_elem_of_lookup_2.
  - done.
Qed.

Lemma preflopActionSequenceIn_spec order :
  seqSorted (Stats.preflopActionSequenceIn order)
  /\ Stats.preflopActionSequenceIn order ≡ₚ flat_map seatBlock order
  /\ forall k, filter (fun y => seqKey y = k) (Stats.preflopActionSequenceIn order)
               = filter (fun y => seqKey y = k) (flat_map seatBlock order).
Proof.
  unfold Stats.preflopActionSequenceIn. rewrite collectPlayers_spec. simpl.
  apply sortSeq_spec.
Qed.

Lemma seatBlock_elem sa sp :
  sa ∈ seatBlock sp <->
  Stats.seat sa = sp.1 /\ Stats.act sa ∈ Actions sp.2 /\ keptAction (Stats.act sa).
Proof.
  unfold seatBlock. rewrite list_elem_of_fmap. split.
  - intros (a & -> & Ha). apply list_elem_of_filter in Ha as [Hk Ha].
    split; [reflexivity |]. split; [exact Ha | exact Hk].
  - intros (Es & Ha & Hk). exists (Stats.act sa). split.
    + destruct sa as [s a]. simpl in *. by subst.
    + by apply list_elem_of_filter.
Qed.

(** X14: the pre-flop action sequence of the analyzer does not depend
    on the order in which Go visits the player map: every order of
    visit gives the same sequence.  The sequence is sorted by timestamp
    and then by seat, and it holds exactly the recorded pre-flop actions
    that are not blinds, each with the seat of its record. *)
Theorem preflopActionSequence_order_independent (h : Hand) :
  (forall order,
      order ≡ₚ map_to_list (Players h) ->
      Stats.preflopActionSequenceIn order = Stats.preflopActionSequence h)
  /\ StronglySorted (fun x y => Stats.seqLess y x = false)
       (Stats.preflopActionSequence h)
  /\ (forall sa,
         sa ∈ Stats.preflopActionSequence h <->
         exists pi,
           Players h !! Stats.seat sa = Some pi
           /\ Stats.act sa ∈ Actions pi
           /\ OnStreet (Stats.act sa) = StreetPreFlop
           /\ Action (Stats.act sa) <> ActionBlindSB
           /\ Action (Stats.act sa) <> ActionBlindBB).
Proof.
  split; [| split].
  - intros order Hp. unfold Stats.preflopActionSequence.
    destruct (preflopActionSequenceIn_spec order) as (S1 & _ & F1).
    destruct (preflopActionSequenceIn_spec (map_to_list (Players h))) as (S2 & _ & F2).
    apply seqSorted_unique; [done | done |].
    intros k. rewrite F1, F2. apply flat_map_filter_perm; [| done].
    rewrite Hp. apply NoDup_fst_map_to_list.
  - apply preflopActionSequenceIn_spec.
  - intros sa. unfold Stats.preflopActionSequence.
    destruct (preflopActionSequenceIn_spec (map_to_list (Players h))) as (_ & P & _).
    rewrite P. rewrite list_elem_of_In, in_flat_map. split.
    + intros ([s pi] & Hin & Hsa). apply list_elem_of_In, elem_of_map_to_list in Hin.
      apply list_elem_of_In, seatBlock_elem in Hsa as (Es & Ha & Hk). simpl in *.
      exists pi. rewrite Es. destruct Hk as (? & ? & ?). by repeat split.
    + intros (pi & Hl & Ha & Hk). exists (Stats.seat sa, pi). split.
      * by apply list_elem_of_In, elem_of_map_to_list.
      * apply list_elem_of_In, seatBlock_elem. simpl.
        destruct Hk as (? & ? & ?). by repeat split.
Qed.

(** ** Steal opportunities *)

Lemma threeBetOppLoop_afterOpen o s seq b :
  Stats.threeBetOppLoop o s seq b = true -> Stats.afterOpenLoop o s seq b = true.
Proof.
  revert b. induction seq as [| sa rest IH]; intros b; simpl; [done |].
  destruct ((Stats.seat sa =? o) && isAggressivePreflop (Action (Stats.act sa)));
    [apply IH |].
  destruct (negb b); [apply IH |].
  destruct (Stats.seat sa =? s); [done |].
  destruct (isAggressivePreflop (Action (Stats.act sa))); [done | apply IH].
Qed.

Lemma didThreeBetLoop_opp o s seq b :
  Stats.didThreeBetLoop o s seq b = true ->
  Stats.threeBetOppLoop o s seq b = true
  /\ Exists (fun sa => Stats.seat sa = s
                       /\ isAggressivePreflop (Action (Stats.act sa)) = true) seq.
Proof.
  revert b. induction seq as [| sa rest IH]; intros b; simpl; [done |].
  destruct ((Stats.seat sa =? o) && isAggressivePreflop (Action (Stats.act sa))).
  { intros H. destruct (IH _ H). split; [done | by apply Exists_cons_tl]. }
  destruct (negb b).
  { intros H. destruct (IH _ H). split; [done | by apply Exists_cons_tl]. }
  destruct (Stats.seat sa =? s) eqn:Es.
  { intros H. split; [done |]. apply Exists_cons_hd. split; [lia | done]. }
  destruct (isAggressivePreflop (Action (Stats.act sa))); [done |].
  intros H. destruct (IH _ H). split; [done | by apply Exists_cons_tl].
Qed.

Lemma stealOpenLoop_spec h seq s :
  (Stats.stealOpenLoop h seq = (s, true) <->
   exists sa pi, opensAt seq sa /\ Stats.seat sa = s
                 /\ Players h !! s = Some pi /\ inStealPosition pi)
  /\ (forall ok, Stats.stealOpenLoop h seq = (s, ok) -> ok = false -> s = -1).
Proof.
  induction seq as [| sa rest IH]; simpl.
  { split; [split; [done |] | by intros ok [= <- <-]].
    intros (sa & pi & (pre & post & E & _) & _). by destruct pre. }
  destruct IH as [IH1 IH2].
  assert (Hhead : forall sa0 pre post,
             sa :: rest = pre ++ sa0 :: post ->
             Forall (fun x => Action (Stats.act x) <> ActionCall
                              /\ isAggressivePreflop (Action (Stats.act x)) = false) pre ->
             (pre = [] /\ sa0 = sa /\ post = rest)
             \/ (exists pre', pre = sa :: pre' /\ rest = pre' ++ sa0 :: post
                              /\ Action (Stats.act sa) <> ActionCall
                              /\ isAggressivePreflop (Action (Stats.act sa)) = false)).
  { intros sa0 pre post E Hpre. destruct pre as [| x pre'].
    - left. by injection E as -> ->.
    - right. injection E as -> ->. inversion Hpre as [| ? ? [? ?] ?]; subst.
      by exists pre'. }
  destruct (decide (Action (Stats.act sa) = ActionCall)) as [Ec | Ec].
  { rewrite bool_decide_eq_true_2 by done. split; [split; [done |] | by intros ok [= <- <-]].
    intros (sa0 & pi & (pre & post & E & Hpre & Hnc & Hag) & _).
    destruct (Hhead _ _ _ E Hpre) as [(-> & -> & ->) | (pre' & -> & _ & ? & _)]; done. }
  rewrite bool_decide_eq_false_2 by done.
  destruct (isAggressivePreflop (Action (Stats.act sa))) eqn:Eag.
  - destruct (Players h !! Stats.seat sa) as [pi |] eqn:El.
    + destruct (decide (inStealPosition pi)) as [Hp | Hp].
      * assert (Eb : bool_decide (PPosition pi = PosCO)
                     || bool_decide (PPosition pi = PosBTN)
                     || bool_decide (PPosition pi = PosSB) = true).
        { destruct Hp as [E | [E | E]]; rewrite E; reflexivity. }
        rewrite Eb. split; [| by intros ok [= <- <-]]. split.
        -- intros [= <-]. exists sa, pi. split; [| done].
           exists [], rest. by repeat split.
        -- intros (sa0 & pi0 & (pre & post & E & Hpre & Hnc & Hag) & Es & _).
           destruct (Hhead _ _ _ E Hpre) as [(-> & -> & ->) | (pre' & -> & _ & _ & ?)];
             [by rewrite Es | congruence].
      * assert (Eb : bool_decide (PPosition pi = PosCO)
                     || bool_decide (PPosition pi = PosBTN)
                     || bool_decide (PPosition pi = PosSB) = false).
        { unfold inStealPosition in Hp.
          rewrite !bool_decide_eq_false_2; [done | tauto | tauto | tauto]. }
        rewrite Eb. split; [split; [done |] | by intros ok [= <- <-]].
        intros (sa0 & pi0 & (pre & post & E & Hpre & Hnc & Hag) & Es & Hl & Hpos).
        destruct (Hhead _ _ _ E Hpre) as [(-> & -> & ->) | (pre' & -> & _ & _ & ?)];
          [| congruence].
        rewrite <- Es, El in Hl. injection Hl as <-. done.
    + split; [split; [done |] | by intros ok [= <- <-]].
      intros (sa0 & pi0 & (pre & post & E & Hpre & Hnc & Hag) & Es & Hl & Hpos).
      destruct (Hhead _ _ _ E Hpre) as [(-> & -> & ->) | (pre' & -> & _ & _ & ?)];
        [| congruence].
      rewrite <- Es, El in Hl. done.
  - split; [| exact IH2]. rewrite IH1. split.
    + intros (sa0 & pi & (pre & post & -> & Hpre & Hnc & Hag) & Hrest).
      exists sa0, pi. split; [| done]. exists (sa :: pre), post.
      split; [done |]. split; [by constructor | done].
    + intros (sa0 & pi & (pre & post & E & Hpre & Hnc & Hag) & Hrest).
      destruct (Hhead _ _ _ E Hpre) as [(-> & -> & ->) | (pre' & -> & -> & _ & _)];
        [congruence |].
      exists sa0, pi. split; [| done]. exists pre', post.
      inversion Hpre; subst. by repeat split.
Qed.

(** X15: [detectStealOpenSeat] reports an opener exactly when the first
    action of the sequence that is a call or aggressive is aggressive
    and is by a seat whose record sits in the cut-off, on the button or
    in the small blind; it then returns that seat.  Otherwise it
    returns -1. *)
Theorem detectStealOpenSeat_sound (h : Hand) (s : Z) :
  (Stats.detectStealOpenSeat h = (s, true) <->
   exists sa pi,
     opensAt (Stats.preflopActionSequence h) sa /\ Stats.seat sa = s
     /\ Players h !! s = Some pi /\ inStealPosition pi)
  /\ ((Stats.detectStealOpenSeat h).2 = false ->
      (Stats.detectStealOpenSeat h).1 = -1).
Proof.
  unfold Stats.detectStealOpenSeat. split.
  - apply stealOpenLoop_spec.
  - destruct (Stats.stealOpenLoop h (Stats.preflopActionSequence h)) as [s0 ok] eqn:E.
    simpl. intros ->. by apply (stealOpenLoop_spec h _ s0) in E.
Qed.

Lemma afterOpenLoop_acts o s seq b :
  Stats.afterOpenLoop o s seq b = true -> Exists (fun sa => Stats.seat sa = s) seq.
Proof.
  revert b. induction seq as [| sa rest IH]; intros b; simpl; [done |].
  destruct ((Stats.seat sa =? o) && isAggressivePreflop (Action (Stats.act sa))).
  { intros H. apply Exists_cons_tl. by eapply IH. }
  destruct (negb b).
  { intros H. apply Exists_cons_tl. by eapply IH. }
  destruct (Stats.seat sa =? s) eqn:Es.
  { intros _. apply Exists_cons_hd. lia. }
  intros H. apply Exists_cons_tl. by eapply IH.
Qed.

Lemma didRFILoop_stealAttempt acts :
  Stats.didRFILoop acts = Stats.isStealAttemptLoop acts.
Proof.
  induction acts as [| a rest IH]; simpl; [done |]. rewrite IH. reflexivity.
Qed.

(** X16: the steal statistics are nested, so that no attempt is counted
    without its opportunity.  A 3-bet against a steal is counted only
    on a 3-bet-versus-steal opportunity and only for a seat with an
    aggressive action in the sequence; every such opportunity is a
    fold-to-steal opportunity; a fold-to-steal opportunity needs a
    record in a blind position, an opener other than the seat, and an
    action of the seat in the sequence; a steal opportunity needs a
    steal position and an opportunity to raise first in; and raising
    first in is an opportunity to raise first in together with a steal
    attempt. *)
Theorem steal_statistics_nested (pi : PlayerHandInfo) (h : Hand) :
  (Stats.didThreeBetVsSteal pi h = true ->
   Stats.isThreeBetVsStealOpportunity pi h = true
   /\ Exists (fun sa => Stats.seat sa = SeatID pi
                        /\ isAggressivePreflop (Action (Stats.act sa)) = true)
        (Stats.preflopActionSequence h))
  /\ (Stats.isThreeBetVsStealOpportunity pi h = true ->
      Stats.isFoldToStealOpportunity pi h = true)
  /\ (Stats.isFoldToStealOpportunity pi h = true ->
      (PPosition pi = PosSB \/ PPosition pi = PosBB)
      /\ (exists opener,
             Stats.detectStealOpenSeat h = (opener, true)
             /\ opener <> SeatID pi)
      /\ Exists (fun sa => Stats.seat sa = SeatID pi)
           (Stats.preflopActionSequence h))
  /\ (Stats.isStealOpportunity pi h = true ->
      inStealPosition pi /\ Stats.hasRFIOpportunityApprox pi h = true)
  /\ Stats.didRFIApprox pi h
     = Stats.hasRFIOpportunityApprox pi h && Stats.isStealAttempt pi.
Proof.
  split; [| split; [| split; [| split]]].
  - unfold Stats.didThreeBetVsSteal.
    destruct (Stats.isThreeBetVsStealOpportunity pi h); [| done]. simpl.
    destruct (Stats.detectStealOpenSeat h) as [o ok]. destruct ok; [| done]. simpl.
    intros H. split; [done |]. by apply didThreeBetLoop_opp in H as [_ H].
  - unfold Stats.isThreeBetVsStealOpportunity, Stats.isFoldToStealOpportunity,
      Stats.isFoldToStealOpportunityByPosition.
    destruct (negb (bool_decide (PPosition pi = PosSB))
              && negb (bool_decide (PPosition pi = PosBB))); [done |].
    rewrite bool_decide_eq_true_2 by done. simpl.
    destruct (Stats.detectStealOpenSeat h) as [o ok].
    destruct (negb ok || (o =? SeatID pi)); [done |].
    apply threeBetOppLoop_afterOpen.
  - unfold Stats.isFoldToStealOpportunity, Stats.isFoldToStealOpportunityByPosition.
    destruct (decide (PPosition pi = PosSB)) as [E1 | E1];
      destruct (decide (PPosition pi = PosBB)) as [E2 | E2];
      rewrite ?(bool_decide_eq_true_2 _ E1), ?(bool_decide_eq_false_2 _ E1),
        ?(bool_decide_eq_true_2 _ E2), ?(bool_decide_eq_false_2 _ E2); simpl;
      try done;
      rewrite bool_decide_eq_true_2 by done; simpl;
      destruct (Stats.detectStealOpenSeat h) as [o ok]; destruct ok; simpl; try done;
      destruct (o =? SeatID pi) eqn:Eo; try done;
      intros H; (split; [tauto |]);
      (split; [exists o; split; [done | lia] | by eapply afterOpenLoop_acts]).
  - unfold Stats.isStealOpportunity, inStealPosition.
    destruct (decide (PPosition pi = PosCO)) as [E1 | E1];
      destruct (decide (PPosition pi = PosBTN)) as [E2 | E2];
      destruct (decide (PPosition pi = PosSB)) as [E3 | E3];
      rewrite ?(bool_decide_eq_true_2 _ E1), ?(bool_decide_eq_false_2 _ E1),
        ?(bool_decide_eq_true_2 _ E2), ?(bool_decide_eq_false_2 _ E2),
        ?(bool_decide_eq_true_2 _ E3), ?(bool_decide_eq_false_2 _ E3); simpl;
      try done; intros H; (split; [tauto | done]).
  - unfold Stats.didRFIApprox, Stats.isStealAttempt.
    rewrite didRFILoop_stealAttempt.
    by destruct (Stats.hasRFIOpportunityApprox pi h).
Qed.

(** ** Raising first in, and aggression levels *)

Lemma rfiLoop_spec s seq : Stats.rfiLoop s seq = true <-> firstInAt s seq.
Proof.
  induction seq as [| sa rest IH]; simpl.
  { split; [done |]. intros (pre & sa & post & E & _). by destruct pre. }
  destruct (Stats.seat sa =? s) eqn:Es.
  { split; [| done]. intros _. exists [], sa, rest. split; [done |].
    split; [lia | constructor]. }
  assert (Hne : Stats.seat sa <> s) by lia.
  destruct (decide (Action (Stats.act sa) = ActionCall)) as [Ec | Ec].
  { rewrite bool_decide_eq_true_2 by done. simpl. split; [done |].
    intros (pre & sa0 & post & E & Es0 & Hpre). destruct pre as [| x pre].
    - injection E as -> ->. done.
    - injection E as -> ->. inversion Hpre as [| ? ? (_ & ? & _) _]. done. }
  rewrite bool_decide_eq_false_2 by done. simpl.
  destruct (isAggressivePreflop (Action (Stats.act sa))) eqn:Eag.
  { split; [done |].
    intros (pre & sa0 & post & E & Es0 & Hpre). destruct pre as [| x pre].
    - injection E as -> ->. done.
    - injection E as -> ->. inversion Hpre as [| ? ? (_ & _ & ?) _]. congruence. }
  rewrite IH. split.
  - intros (pre & sa0 & post & -> & Es0 & Hpre). exists (sa :: pre), sa0, post.
    split; [done |]. split; [done |]. by constructor.
  - intros (pre & sa0 & post & E & Es0 & Hpre). destruct pre as [| x pre].
    + injection E as -> ->. done.
    + injection E as -> ->. inversion Hpre; subst. by exists pre, sa0, post.
Qed.

Lemma didRFILoop_aggressive acts :
  Stats.didRFILoop acts = true ->
  Exists (fun a => OnStreet a = StreetPreFlop
                   /\ isAggressivePreflop (Action a) = true) acts.
Proof.
  induction acts as [| a rest IH]; simpl; [done |].
  destruct (decide (OnStreet a = StreetPreFlop)) as [Es | Es].
  - rewrite bool_decide_eq_true_2 by done. simpl.
    destruct (isAggressivePreflop (Action a)) eqn:Eag.
    + intros _. by apply Exists_cons_hd.
    + destruct (_ || _); [done |]. intros H. apply Exists_cons_tl. by apply IH.
  - rewrite bool_decide_eq_false_2 by done. simpl.
    intros H. apply Exists_cons_tl. by apply IH.
Qed.

(** X17: a seat has an opportunity to raise first in exactly when it
    acts in the pre-flop sequence and no action before its first one is
    a call, a bet, a raise or an all-in; it is counted as having raised
    first in only with such an opportunity and an aggressive pre-flop
    action on its record. *)
Theorem raise_first_in (pi : PlayerHandInfo) (h : Hand) :
  (Stats.hasRFIOpportunityApprox pi h = true <->
   exists pre sa post,
     Stats.preflopActionSequence h = pre ++ sa :: post
     /\ Stats.seat sa = SeatID pi
     /\ Forall (fun x => Stats.seat x <> SeatID pi
                         /\ Action (Stats.act x) <> ActionCall
                         /\ isAggressivePreflop (Action (Stats.act x)) = false) pre)
  /\ (Stats.didRFIApprox pi h = true ->
      Stats.hasRFIOpportunityApprox pi h = true
      /\ Exists (fun a => OnStreet a = StreetPreFlop
                          /\ isAggressivePreflop (Action a) = true) (Actions pi)).
Proof.
  split; [apply rfiLoop_spec |].
  unfold Stats.didRFIApprox.
  destruct (Stats.hasRFIOpportunityApprox pi h); [| done]. simpl.
  intros H. split; [done | by apply didRFILoop_aggressive].
Qed.

Lemma aggressionLoop_spec s seq lvl :
  match Stats.aggressionLoop s seq lvl with
  | (l, true) =>
      exists pre sa post,
        seq = pre ++ sa :: post /\ Stats.seat sa = s
        /\ isAggressivePreflop (Action (Stats.act sa)) = true
        /\ Forall (fun x => Stats.seat x <> s) (aggressiveOnes pre)
        /\ l = lvl + 1 + len (aggressiveOnes pre)
  | (l, false) =>
      l = 0 /\ Forall (fun x => Stats.seat x <> s) (aggressiveOnes seq)
  end.
Proof.
  revert lvl. induction seq as [| sa rest IH]; intros lvl; simpl.
  { split; [done | constructor]. }
  unfold aggressiveOnes. 
  destruct (isAggressivePreflop (Action (Stats.act sa))) eqn:Eag; simpl.
  - destruct (Stats.seat sa =? s) eqn:Es.
    + exists [], sa, rest. split; [done |]. split; [lia |]. split; [done |].
      split; [constructor |]. unfold len. simpl. lia.
    + specialize (IH (lvl + 1)).
      destruct (Stats.aggressionLoop s rest (lvl + 1)) as [l [|]].
      * destruct IH as (pre & sa0 & post & -> & E1 & E2 & E3 & E4).
        exists (sa :: pre), sa0, post. split; [done |]. split; [done |].
        split; [done |]. rewrite filter_cons, decide_True by done.
        split; [constructor; [lia | done] |].
        unfold len, aggressiveOnes in *. simpl. lia.
      * destruct IH as [-> IH]. split; [done |].
        rewrite filter_cons, decide_True by done. constructor; [lia | done].
  - specialize (IH lvl).
    destruct (Stats.aggressionLoop s rest lvl) as [l [|]].
    + destruct IH as (pre & sa0 & post & -> & E1 & E2 & E3 & E4).
      exists (sa :: pre), sa0, post. split; [done |]. split; [done |].
      split; [done |]. rewrite filter_cons, decide_False by congruence.
      by split.
    + destruct IH as [-> IH]. split; [done |].
      by rewrite filter_cons, decide_False by congruence.
Qed.

(** X18: [firstPreflopAggressionLevel] finds the first aggressive action
    of the seat in the sequence and returns one more than the number of
    aggressive actions before it, all of which are by other seats; when
    the seat has no aggressive action it returns level 0 and false.  A
    4-bet is counted only for a seat with a fold-to-3-bet opportunity
    whose first aggressive action comes after two or more aggressive
    actions of other seats. *)
Theorem aggression_level (h : Hand) (pi : PlayerHandInfo) (s : Z) :
  match Stats.firstPreflopAggressionLevel h s with
  | (l, true) =>
      exists pre sa post,
        Stats.preflopActionSequence h = pre ++ sa :: post
        /\ Stats.seat sa = s
        /\ isAggressivePreflop (Action (Stats.act sa)) = true
        /\ Forall (fun x => Stats.seat x <> s) (aggressiveOnes pre)
        /\ l = 1 + len (aggressiveOnes pre)
  | (l, false) =>
      l = 0
      /\ Forall (fun x => Stats.seat x <> s)
           (aggressiveOnes (Stats.preflopActionSequence h))
  end
  /\ (Stats.didFourBetApprox pi h = true ->
      Stats.hasFoldToThreeBetOpportunityApprox pi h = true
      /\ exists pre sa post,
           Stats.preflopActionSequence h = pre ++ sa :: post
           /\ Stats.seat sa = SeatID pi
           /\ isAggressivePreflop (Action (Stats.act sa)) = true
           /\ Forall (fun x => Stats.seat x <> SeatID pi) (aggressiveOnes pre)
           /\ 2 <= len (aggressiveOnes pre)).
Proof.
  split.
  - unfold Stats.firstPreflopAggressionLevel.
    pose proof (aggressionLoop_spec s (Stats.preflopActionSequence h) 0) as H.
    destruct (Stats.aggressionLoop s (Stats.preflopActionSequence h) 0) as [l [|]];
      [| done].
    destruct H as (pre & sa & post & E1 & E2 & E3 & E4 & E5).
    exists pre, sa, post. repeat (split; [done |]). lia.
  - unfold Stats.didFourBetApprox, Stats.hasFourBetOpportunityApprox,
      Stats.firstPreflopAggressionLevel.
    destruct (Stats.hasFoldToThreeBetOpportunityApprox pi h); [| done]. simpl.
    pose proof (aggressionLoop_spec (SeatID pi) (Stats.preflopActionSequence h) 0) as H.
    destruct (Stats.aggressionLoop (SeatID pi) (Stats.preflopActionSequence h) 0)
      as [l [|]]; [| done].
    simpl. intros Hl. split; [done |].
    destruct H as (pre & sa & post & E1 & E2 & E3 & E4 & E5).
    exists pre, sa, post. repeat (split; [done |]). lia.
Qed.

(** ** Amounts read by the calculator *)

Lemma fold_amounts acts x :
  fold_left (fun total a => add64 total (Amount a)) acts x
  = fold_left add64 (map Amount acts) x.
Proof. revert x. induction acts as [| a rest IH]; intros x; [done |]. apply IH. Qed.

Lemma firstPositiveBB_nonneg acts : 0 <= Stats.firstPositiveBB acts.
Proof.
  induction acts as [| a rest IH]; simpl; [done |].
  destruct (bool_decide (Action a = ActionBlindBB) && (Amount a >? 0)) eqn:E; [| done].
  apply andb_prop in E as [_ E]. lia.
Qed.

Lemma firstPositiveBB_first acts :
  0 < default 0 (firstBlindBB acts) ->
  Stats.firstPositiveBB acts = default 0 (firstBlindBB acts).
Proof.
  induction acts as [| a rest IH]; simpl; [lia |].
  destruct (decide (Action a = ActionBlindBB)) as [E | E].
  - rewrite bool_decide_eq_true_2 by done. simpl. intros Hpos.
    by replace (Amount a >? 0) with true by lia.
  - rewrite bool_decide_eq_false_2 by done. simpl. exact IH.
Qed.

Lemma firstBlindBB_elem acts x :
  firstBlindBB acts = Some x -> exists a, a ∈ acts /\ Amount a = x.
Proof.
  induction acts as [| a rest IH]; simpl; [done |].
  destruct (decide (Action a = ActionBlindBB)).
  - intros [= <-]. exists a. split; [apply list_elem_of_here | done].
  - intros H. destruct (IH H) as (b & Hb & Eb). exists b.
    split; [by apply list_elem_of_further | done].
Qed.

Lemma zsum_nonneg l : Forall (fun x => 0 <= x) l -> 0 <= zsum l.
Proof. induction 1; simpl; [done |]. unfold zsum in *. simpl. lia. Qed.

Lemma zsum_elem_le l x : Forall (fun y => 0 <= y) l -> x ∈ l -> x <= zsum l.
Proof.
  induction 1 as [| y l Hy Hl IH]; intros Hin; [by apply elem_of_nil in Hin |].
  pose proof (zsum_nonneg l Hl) as Hn. unfold zsum in *. simpl.
  apply elem_of_cons in Hin as [-> | Hin]; [lia |]. specialize (IH Hin). lia.
Qed.

(** X19: the amounts the calculator reads.  Its big-blind estimate is
    never negative and agrees with the parser's whenever the parser's is
    positive.  On every hand a parse hands over the parser's estimate is
    not above the calculator's, and, as long as the recorded amounts of
    a seat add up to an [int], [investedAmount] is their exact sum, is
    not negative and is not below any single recorded amount. *)
Theorem invested_and_big_blind (world : string) (lines : list Line) :
  (forall h,
      0 <= Stats.bbAmountFromHand h
      /\ (0 < bbAmount h -> Stats.bbAmountFromHand h = bbAmount h))
  /\ Forall
       (fun H =>
          0 <= bbAmount H <= Stats.bbAmountFromHand H
          /\ forall s pi,
               Players H !! s = Some pi ->
               zsum (map Amount (Actions pi)) <= maxInt ->
               Stats.investedAmount H s = zsum (map Amount (Actions pi))
               /\ 0 <= Stats.investedAmount H s
               /\ Forall (fun a => Amount a <= Stats.investedAmount H s)
                    (Actions pi))
       (Hands (ParseReader world lines)).
Proof.
  assert (Hgen : forall h,
             0 <= Stats.bbAmountFromHand h
             /\ (0 < bbAmount h -> Stats.bbAmountFromHand h = bbAmount h)).
  { intros h. unfold Stats.bbAmountFromHand, bbAmount.
    destruct (BBSeat h <? 0) eqn:E.
    - replace (BBSeat h >=? 0) with false by lia. split; [done | lia].
    - replace (BBSeat h >=? 0) with true by lia.
      destruct (Players h !! BBSeat h) as [bb |]; [| split; [done | lia]].
      split; [apply firstPositiveBB_nonneg | apply firstPositiveBB_first]. }
  split; [exact Hgen |].
  eapply Forall_impl; [apply reachable_FinalRecords |].
  intros H ((Hrec & _) & _).
  assert (Hamt : forall s pi, Players H !! s = Some pi ->
                              Forall (fun x => 0 <= x) (map Amount (Actions pi))).
  { intros s pi Hl. destruct (Hrec s pi Hl) as (_ & _ & Hact & _).
    apply Forall_map. eapply Forall_impl; [exact Hact |]. by intros a [_ [? _]]. }
  split.
  - assert (Hbb : 0 <= bbAmount H).
    { unfold bbAmount. destruct (BBSeat H >=? 0); [| done].
      destruct (Players H !! BBSeat H) as [pi |] eqn:El; [| done].
      destruct (firstBlindBB (Actions pi)) as [x |] eqn:Ef; [| done]. simpl.
      destruct (firstBlindBB_elem _ _ Ef) as (a & Ha & <-).
      specialize (Hamt _ _ El). rewrite Forall_map, Forall_forall in Hamt.
      by apply Hamt. }
    split; [done |]. destruct (Hgen H) as [Hn Heq].
    destruct (decide (0 < bbAmount H)) as [Hp | Hp]; [rewrite Heq by done |]; lia.
  - intros s pi Hl Hfit. specialize (Hamt s pi Hl).
    pose proof (zsum_nonneg _ Hamt) as Hn.
    assert (E : Stats.investedAmount H s = zsum (map Amount (Actions pi))).
    { unfold Stats.investedAmount. rewrite Hl, fold_amounts.
      change (fold_left add64 (map Amount (Actions pi)) 0)
        with (sum64 (map Amount (Actions pi))).
      rewrite sum64_zsum. apply wrap64_small. unfold minInt. lia. }
    rewrite E. split; [done |]. split; [done |].
    apply Forall_forall. intros a Ha. apply zsum_elem_le; [done |].
    by apply list_elem_of_fmap_2.
Qed.

(** ** Fold-to-3-bet and squeeze opportunities *)

Lemma otherThreeBet_spec s order :
  Stats.otherThreeBet s order = true <->
  exists s' p, (s', p) ∈ order /\ s' <> s /\ ThreeBet p = true.
Proof.
  induction order as [| [s0 p0] rest IH]; simpl.
  { split; [done |]. intros (s' & p & H & _). by apply elem_of_nil in H. }
  destruct (s0 =? s) eqn:Es.
  - rewrite IH. split.
    + intros (s' & p & H & Hr). exists s', p. split; [by apply list_elem_of_further | done].
    + intros (s' & p & H & Hne & Ht). apply elem_of_cons in H as [[= -> ->] | H]; [lia |].
      by exists s', p.
  - destruct (ThreeBet p0) eqn:Et.
    + split; [| done]. intros _. exists s0, p0.
      split; [apply list_elem_of_here |]. split; [lia | done].
    + rewrite IH. split.
      * intros (s' & p & H & Hr). exists s', p.
        split; [by apply list_elem_of_further | done].
      * intros (s' & p & H & Hne & Ht).
        apply elem_of_cons in H as [[= -> ->] | H]; [congruence |]. by exists s', p.
Qed.

(** X20: a seat has a fold-to-3-bet opportunity, and likewise a 4-bet
    opportunity, exactly when its record is marked fold-to-3-bet, or is
    marked PFR while the record of another seat is marked 3-bet; the
    order in which the player map is visited does not matter. *)
Theorem fold_to_three_bet_opportunity (pi : PlayerHandInfo) (h : Hand) :
  (Stats.hasFoldToThreeBetOpportunityApprox pi h = true <->
   FoldTo3Bet pi = true
   \/ (PFR pi = true
       /\ exists s p, Players h !! s = Some p /\ s <> SeatID pi
                      /\ ThreeBet p = true))
  /\ Stats.hasFourBetOpportunityApprox pi h
     = Stats.hasFoldToThreeBetOpportunityApprox pi h
  /\ (forall order,
         order ≡ₚ map_to_list (Players h) ->
         Stats.otherThreeBet (SeatID pi) order
         = Stats.otherThreeBet (SeatID pi) (map_to_list (Players h))).
Proof.
  split; [| split; [done |]].
  - unfold Stats.hasFoldToThreeBetOpportunityApprox.
    destruct (FoldTo3Bet pi); [split; [by left | done] |].
    destruct (PFR pi); simpl.
    + rewrite otherThreeBet_spec. split.
      * intros (s & p & Hin & Hr). right. split; [done |]. exists s, p.
        split; [by apply elem_of_map_to_list | done].
      * intros [? | (_ & s & p & Hl & Hr)]; [done |]. exists s, p.
        split; [by apply elem_of_map_to_list | done].
    + split; [done |]. by intros [? | [? _]].
  - intros order Hp. apply eq_true_iff_eq. rewrite !otherThreeBet_spec.
    split; intros (s & p & Hin & Hr); exists s, p; (split; [| done]).
    + by rewrite <- Hp.
    + by rewrite Hp.
Qed.

Lemma aggressiveOnes_cons x l :
  aggressiveOnes (x :: l)
  = if isAggressivePreflop (Action (Stats.act x)) then x :: aggressiveOnes l
    else aggressiveOnes l.
Proof.
  unfold aggressiveOnes. rewrite filter_cons.
  destruct (isAggressivePreflop (Action (Stats.act x))) eqn:E.
  - by rewrite decide_True.
  - by rewrite decide_False by congruence.
Qed.

(** After the open: the seat acts before any other aggressive action,
    and a call has been counted or is met on the way. *)
Lemma squeezeLoop_after s seq c :
  0 <= c ->
  Stats.squeezeLoop s seq true c 1 = true <->
  exists after sa post,
    seq = after ++ sa :: post /\ Stats.seat sa = s
    /\ Forall (fun x => Stats.seat x <> s) after
    /\ aggressiveOnes after = []
    /\ (0 < c \/ Exists (fun x => Action (Stats.act x) = ActionCall) after).
Proof.
  revert c. induction seq as [| x rest IH]; intros c Hc0; simpl.
  { split; [done |]. intros (after & sa & post & E & _). by destruct after. }
  assert (Hsplit : forall after sa post,
             x :: rest = after ++ sa :: post ->
             (after = [] /\ sa = x /\ post = rest)
             \/ exists after', after = x :: after' /\ rest = after' ++ sa :: post).
  { intros after sa post E. destruct after as [| y after'].
    - left. by injection E as -> ->.
    - right. injection E as -> ->. by exists after'. }
  destruct (Stats.seat x =? s) eqn:Es.
  { rewrite ?andb_true_r. simpl. split.
    - intros Hc. exists [], x, rest. split; [done |]. split; [lia |].
      split; [constructor |]. split; [done |]. left. lia.
    - intros (after & sa & post & E & Esa & Hne & Hag & Hc).
      destruct (Hsplit _ _ _ E) as [(-> & -> & ->) | (after' & -> & _)].
      + destruct Hc as [? | Hex]; [lia | by apply Exists_nil in Hex].
      + inversion Hne; subst. lia. }
  assert (Hx : Stats.seat x <> s) by lia.
  destruct (isAggressivePreflop (Action (Stats.act x))) eqn:Eag; simpl.
  { split; [done |].
    intros (after & sa & post & E & Esa & Hne & Hag & Hc).
    destruct (Hsplit _ _ _ E) as [(-> & -> & ->) | (after' & -> & _)]; [done |].
    rewrite aggressiveOnes_cons, Eag in Hag. done. }
  destruct (decide (Action (Stats.act x) = ActionCall)) as [Ec | Ec].
  - rewrite bool_decide_eq_true_2 by done. rewrite IH by lia. split.
    + intros (after & sa & post & -> & Esa & Hne & Hag & Hc).
      exists (x :: after), sa, post. split; [done |]. split; [done |].
      split; [by constructor |]. rewrite aggressiveOnes_cons, Eag.
      split; [done |]. right. by apply Exists_cons_hd.
    + intros (after & sa & post & E & Esa & Hne & Hag & Hc).
      destruct (Hsplit _ _ _ E) as [(-> & -> & ->) | (after' & -> & ->)]; [done |].
      inversion Hne; subst. rewrite aggressiveOnes_cons, Eag in Hag.
      exists after', sa, post. repeat (split; [done |]). left. lia.
  - rewrite bool_decide_eq_false_2 by done. rewrite IH by done. split.
    + intros (after & sa & post & -> & Esa & Hne & Hag & Hc).
      exists (x :: after), sa, post. split; [done |]. split; [done |].
      split; [by constructor |]. rewrite aggressiveOnes_cons, Eag.
      split; [done |]. destruct Hc as [? | Hex]; [by left |].
      right. by apply Exists_cons_tl.
    + intros (after & sa & post & E & Esa & Hne & Hag & Hc).
      destruct (Hsplit _ _ _ E) as [(-> & -> & ->) | (after' & -> & ->)]; [done |].
      inversion Hne; subst. rewrite aggressiveOnes_cons, Eag in Hag.
      exists after', sa, post. repeat (split; [done |]).
      destruct Hc as [? | Hex]; [by left |].
      apply Exists_cons in Hex as [? | ?]; [done | by right].
Qed.

(** Up to the open: no action of the seat and no aggressive action
    before the first aggressive action, which is by another seat. *)
Lemma squeezeLoop_before s seq c :
  Stats.squeezeLoop s seq false c 0 = true <->
  exists before opener rest,
    seq = before ++ opener :: rest
    /\ Forall (fun x => Stats.seat x <> s) before
    /\ aggressiveOnes before = []
    /\ Stats.seat opener <> s
    /\ isAggressivePreflop (Action (Stats.act opener)) = true
    /\ Stats.squeezeLoop s rest true c 1 = true.
Proof.
  induction seq as [| x rest IH]; simpl.
  { split; [done |]. intros (before & o & r & E & _). by destruct before. }
  assert (Hsplit : forall before o r,
             x :: rest = before ++ o :: r ->
             (before = [] /\ o = x /\ r = rest)
             \/ exists before', before = x :: before' /\ rest = before' ++ o :: r).
  { intros before o r E. destruct before as [| y before'].
    - left. by injection E as -> ->.
    - right. injection E as -> ->. by exists before'. }
  destruct (Stats.seat x =? s) eqn:Es.
  { simpl. split; [done |].
    intros (before & o & r & E & Hne & Hag & Ho & _).
    destruct (Hsplit _ _ _ E) as [(-> & -> & ->) | (before' & -> & _)]; [lia |].
    inversion Hne; subst. lia. }
  assert (Hx : Stats.seat x <> s) by lia.
  destruct (isAggressivePreflop (Action (Stats.act x))) eqn:Eag; simpl.
  - split.
    + intros H. exists [], x, rest. by repeat split.
    + intros (before & o & r & E & Hne & Hag & Ho & Hoa & H).
      destruct (Hsplit _ _ _ E) as [(-> & -> & ->) | (before' & -> & _)]; [done |].
      rewrite aggressiveOnes_cons, Eag in Hag. done.
  - rewrite IH. split.
    + intros (before & o & r & -> & Hne & Hag & Ho & Hoa & H).
      exists (x :: before), o, r. split; [done |]. split; [by constructor |].
      rewrite aggressiveOnes_cons, Eag. by repeat split.
    + intros (before & o & r & E & Hne & Hag & Ho & Hoa & H).
      destruct (Hsplit _ _ _ E) as [(-> & -> & ->) | (before' & -> & ->)];
        [congruence |].
      inversion Hne; subst. rewrite aggressiveOnes_cons, Eag in Hag.
      by exists before', o, r.
Qed.

Lemma didSqueezeLoop_aggressive acts :
  Stats.didSqueezeLoop acts = true ->
  Exists (fun a => OnStreet a = StreetPreFlop
                   /\ isAggressivePreflop (Action a) = true) acts.
Proof.
  induction acts as [| a rest IH]; simpl; [done |].
  destruct (decide (OnStreet a = StreetPreFlop)) as [Es | Es].
  - rewrite bool_decide_eq_true_2 by done. simpl.
    destruct (_ || _).
    + intros H. apply Exists_cons_tl. by apply IH.
    + intros H. by apply Exists_cons_hd.
  - rewrite bool_decide_eq_false_2 by done. simpl.
    intros H. apply Exists_cons_tl. by apply IH.
Qed.

(** X21: a seat has a squeeze opportunity exactly when, before its
    first action in the pre-flop sequence, there is one aggressive
    action and no more, by another seat, and a call after it; a squeeze
    is counted only with such an opportunity and an aggressive pre-flop
    action on the record of the seat. *)
Theorem squeeze_opportunity (pi : PlayerHandInfo) (h : Hand) :
  (Stats.hasSqueezeOpportunityApprox pi h = true <->
   exists pre sa post,
     Stats.preflopActionSequence h = pre ++ sa :: post
     /\ Stats.seat sa = SeatID pi
     /\ Forall (fun x => Stats.seat x <> SeatID pi) pre
     /\ exists before opener after,
          pre = before ++ opener :: after
          /\ isAggressivePreflop (Action (Stats.act opener)) = true
          /\ aggressiveOnes before = [] /\ aggressiveOnes after = []
          /\ Exists (fun x => Action (Stats.act x) = ActionCall) after)
  /\ (Stats.didSqueezeApprox pi h = true ->
      Stats.hasSqueezeOpportunityApprox pi h = true
      /\ Exists (fun a => OnStreet a = StreetPreFlop
                          /\ isAggressivePreflop (Action a) = true) (Actions pi)).
Proof.
  split.
  - unfold Stats.hasSqueezeOpportunityApprox. rewrite squeezeLoop_before. split.
    + intros (before & o & r & E & Hne & Hag & Ho & Hoa & H).
      apply squeezeLoop_after in H as (after & sa & post & -> & Esa & Hne' & Hag' & Hc);
        [| done].
      exists (before ++ o :: after), sa, post.
      split; [by rewrite E, <- app_assoc |]. split; [done |].
      split; [apply Forall_app; split; [done | by constructor] |].
      exists before, o, after. repeat (split; [done |]).
      destruct Hc as [? | ?]; [lia | done].
    + intros (pre & sa & post & E & Esa & Hne & before & o & after & -> & Hoa & Hb & Ha & Hc).
      apply Forall_app in Hne as [Hne1 Hne2]. inversion Hne2; subst.
      exists before, o, (after ++ sa :: post).
      split; [by rewrite E, <- app_assoc |]. repeat (split; [done |]).
      apply squeezeLoop_after; [done |].
      exists after, sa, post. repeat (split; [done |]). by right.
  - unfold Stats.didSqueezeApprox.
    destruct (Stats.hasSqueezeOpportunityApprox pi h); [| done]. simpl.
    intros H. split; [done | by apply didSqueezeLoop_aggressive].
Qed.

(** ** Logs without local hole cards, and the world flag *)

Lemma fold_applyWinner_local pws t h :
  LocalPlayerSeat (fold_left applyWinner pws (t, h)).2 = LocalPlayerSeat h.
Proof.
  revert t h. induction pws as [| pw rest IH]; intros t h; [done |].
  simpl. rewrite IH. simpl. by autorewrite with hand.
Qed.

Lemma finalizeHand_local p h :
  pendingLocalCards p = None ->
  LocalPlayerSeat (finalizeHand p h).2 = LocalPlayerSeat h
  /\ pendingLocalCards (finalizeHand p h).1 = None
  /\ ResLocalPlayerSeat (result (finalizeHand p h).1) = ResLocalPlayerSeat (result p)
  /\ Hands (result (finalizeHand p h).1) = Hands (result p).
Proof.
  intros Hnone. rewrite finalizeHand_unfold. cbv zeta. cbn [fst snd].
  assert (E : preAssign p h = (p, h)) by (unfold preAssign; by rewrite Hnone).
  rewrite E. cbn [fst snd]. split; [| by repeat split].
  unfold afterWinners.
  set (th := fold_left applyWinner (pendingWinners p) (0, h)).
  set (h2 := set_NumPlayers _ _).
  destruct (assignPositions_sameCore h2) as (m3 & Em3 & _).
  destruct (calculatePreflopStats_sameCore p (assignPositions h2)) as (m4 & Em4 & _).
  cbn [LocalPlayerSeat set_IsComplete set_EndTime]. rewrite Em4, Em3.
  cbn [LocalPlayerSeat set_Players].
  assert (E2 : LocalPlayerSeat h2 = LocalPlayerSeat th.2).
  { unfold h2, inferWinType. by repeat case_match. }
  rewrite E2. apply fold_applyWinner_local.
Qed.

Lemma finalizeCurrentHand_NoLocal p : NoLocal p -> NoLocal (finalizeCurrentHand p).
Proof.
  intros (H1 & H2 & H3 & H4). unfold finalizeCurrentHand.
  destruct (currentHand p) as [h |] eqn:Hh.
  2: { repeat (split; [done |]). intros h0 E0. rewrite Hh in E0. discriminate E0. }
  destruct (finalizeHand_local p h H1) as (E1 & E2 & E3 & E4).
  destruct (finalizeHand p h) as [p2 h2]. cbn [fst snd] in *.
  rewrite E1, (H4 h eq_refl).
  replace (-1 >=? 0) with false by lia.
  split; [done |]. split; [simpl; congruence |]. split; [simpl; congruence | done].
Qed.

Lemma handleEvent_NoLocal ts msg p h :
  isDrawLocal (Stamped ts msg) = false ->
  NoLocal p -> currentHand p = Some h -> NoLocal (handleEvent ts msg p h).
Proof.
  intros Hmsg (H1 & H2 & H3 & H4) Hh. specialize (H4 h Hh).
  unfold handleEvent.
  destruct msg; try discriminate Hmsg;
    try rewrite parseCards_spec; try rewrite parseCard_spec;
    cbv beta iota zeta; unfold raiseStreetBet, appendAction, assignLocalCards;
    rewrite ?H1;
    repeat case_match;
    try (exfalso;
         match goal with
         | H : pendingLocalCards _ = Some _ |- _ => simpl in H; congruence
         end);
    unfold NoLocal; simpl; rewrite ?Hh;
    (split; [assumption |]); (split; [assumption |]); (split; [assumption |]);
    intros h0 [= <-]; simpl; autorewrite with hand; exact H4.
Qed.

Lemma ParseLine_NoLocal world p line :
  isDrawLocal line = false -> NoLocal p -> NoLocal (ParseLine world p line).
Proof.
  intros Hl HN. destruct line as [| ts msg]; [done |]. unfold ParseLine.
  set (q := set_lastTimestamp p ts).
  assert (HQ : NoLocal q) by exact HN.
  assert (Hnew : NoLocal (startNewHand ts (finalizeCurrentHand q))).
  { destruct (finalizeCurrentHand_NoLocal q HQ) as (F1 & F2 & F3 & _).
    split; [done |]. split; [exact F2 |]. split; [exact F3 |].
    intros h [= <-]. exact F2. }
  destruct msg; unfold processPokerEvent; try discriminate Hl;
    try exact Hnew; try exact HQ;
    try (destruct (currentHand q) as [h |] eqn:Hh;
         [by apply handleEvent_NoLocal | exact HQ]).
  destruct (inPokerWorld q); [| exact HQ].
  exact (finalizeCurrentHand_NoLocal q HQ).
Qed.

(** X22: no local hole cards, no hands.  A parse of lines none of which
    announces the local hole cards hands over no hand and knows no
    local seat. *)
Theorem no_local_cards_no_hands (world : string) (lines : list Line) :
  Forall (fun line => isDrawLocal line = false) lines ->
  Hands (ParseReader world lines) = []
  /\ ResLocalPlayerSeat (ParseReader world lines) = -1
  /\ GetLocalSeat (parseLines world NewParser lines) = -1.
Proof.
  intros Hl.
  assert (HN : NoLocal (parseLines world NewParser lines)).
  { assert (H0 : NoLocal NewParser) by by repeat split.
    revert H0. generalize NewParser.
    induction Hl as [| line rest Hline Hrest IH]; intros p Hp; [done |].
    simpl. apply IH. by apply ParseLine_NoLocal. }
  pose proof (finalizeCurrentHand_NoLocal _ HN) as (_ & F2 & F3 & _).
  destruct HN as (_ & N2 & _). by repeat split.
Qed.

Lemma no_local_cards_no_hands_witness :
  Hands (ParseReader "wrld_0"
           [Stamped 1 NewGame; Stamped 2 (SBBet 2 10); Stamped 3 (BBBet 3 20);
            Stamped 4 (PlayerEndTurn 4 60); Stamped 5 (PotWinner 4 90)]) = [].
Proof.
  apply (no_local_cards_no_hands "wrld_0"). repeat constructor.
Defined.

Lemma handleEvent_world ts msg p h b :
  WorldIs b p -> WorldIs b (handleEvent ts msg p h).
Proof.
  intros HW. unfold handleEvent.
  destruct msg; try rewrite parseCards_spec; try rewrite parseCard_spec;
    cbv beta iota zeta; unfold raiseStreetBet, appendAction, assignLocalCards;
    repeat case_match; exact HW.
Qed.

Lemma finalizeCurrentHand_world p b :
  WorldIs b p -> WorldIs b (finalizeCurrentHand p).
Proof.
  intros HW. unfold finalizeCurrentHand.
  destruct (currentHand p) as [h |]; [| exact HW].
  assert (E : WorldIs b (finalizeHand p h).1).
  { rewrite finalizeHand_unfold. cbv zeta. cbn [fst]. unfold preAssign.
    destruct (pendingLocalCards p); [| exact HW].
    destruct (_ >=? 0); exact HW. }
  destruct (finalizeHand p h) as [p2 h2]. cbn [fst] in E.
  destruct (LocalPlayerSeat h2 >=? 0); [destruct (Players h2 !! LocalPlayerSeat h2) |];
    exact E.
Qed.

Lemma ParseLine_world world p line b :
  WorldIs b p -> WorldIs (default b (worldLine world line)) (ParseLine world p line).
Proof.
  intros HW. destruct line as [| ts msg]; [exact HW |]. unfold ParseLine.
  set (q := set_lastTimestamp p ts).
  assert (HQ : WorldIs b q) by exact HW.
  destruct msg; unfold processPokerEvent; simpl worldLine; cbn [default];
    try exact HQ;
    try (destruct (currentHand q) as [h |]; [by apply handleEvent_world | exact HQ]).
  - by split.
  - by split.
  - exact (finalizeCurrentHand_world q b HQ).
Qed.

Lemma default_last_cons (b v : bool) (l : list bool) :
  default b (last (v :: l)) = default v (last l).
Proof. rewrite last_cons. by destruct (last l). Qed.

Lemma parseLines_world world lines p b :
  WorldIs b p ->
  WorldIs (default b (last (omap (worldLine world) lines))) (parseLines world p lines).
Proof.
  revert p b. induction lines as [| line rest IH]; intros p b HW; [exact HW |].
  simpl parseLines. apply (ParseLine_world world p line) in HW. apply IH in HW.
  simpl omap. destruct (worldLine world line) as [v |]; [| exact HW].
  rewrite default_last_cons. exact HW.
Qed.

(** X23: the world flag follows the world lines and nothing else.  The
    flag a parse reports is what the last world line of the log set: a
    line joining a world sets it to whether that world is the poker
    world, a line leaving a world clears it; it is false when the log
    has no world line; poker lines, new hands and finalization never
    change it, and the parser's own flag always agrees with the
    reported one. *)
Theorem world_flag_follows_world_lines (world : string) (lines : list Line) :
  InPokerWorld (ParseReader world lines)
  = default false (last (omap (worldLine world) lines))
  /\ inPokerWorld (parseLines world NewParser lines)
     = InPokerWorld (result (parseLines world NewParser lines)).
Proof.
  assert (H0 : WorldIs false NewParser) by by split.
  pose proof (parseLines_world world lines NewParser false H0) as HW.
  pose proof (finalizeCurrentHand_world _ _ HW) as [_ HF].
  destruct HW as [W1 W2]. split; [exact HF | by rewrite W1, W2].
Qed.

(** ** Finalization, end to end *)

(** The end of a parse appends the finalized hand to the list, or drops
    it. *)
Lemma ParseReader_hands world lines h :
  let p := parseLines world NewParser lines in
  currentHand p = Some h ->
  Hands (ParseReader world lines)
  = Hands (result p)
    ++ (if keepsHand (finalizeHand p h).2 then [(finalizeHand p h).2] else []).
Proof.
  intros p Hh. unfold ParseReader. fold p. unfold finalizeCurrentHand, keepsHand.
  rewrite Hh.
  destruct (preAssign_parser p h) as (_ & _ & Eh & _).
  destruct (finalizeHand p h) as [p2 h2] eqn:E.
  rewrite finalizeHand_unfold in E. cbv zeta in E. injection E as Ep E2.
  rewrite Ep in Eh. cbn [fst snd].
  destruct (LocalPlayerSeat h2 >=? 0);
    [destruct (Players h2 !! LocalPlayerSeat h2) |];
    simpl; rewrite ?Eh, ?app_nil_r; reflexivity.
Qed.

Lemma winners_total (pws : list pendingWin) (H : Hand) (D : list Z) :
  NoDup D -> (forall pw, pw ∈ pws -> winSeatID pw ∈ D) ->
  (forall s, potOf H s = sum64 (amountsFor s pws)) ->
  sum64 (map winAmount pws) = sum64 (map (potOf H) D).
Proof.
  intros Hnd Hin Hpot. rewrite !sum64_zsum.
  rewrite (map_ext _ (fun s => wrap64 (zsum (amountsFor s pws)))).
  2: { intros s. by rewrite Hpot, sum64_zsum. }
  by rewrite zsum_map_wrap64, zsum_by_seat.
Qed.

Lemma finalizeHand_potSum p h :
  HandOK unpaid h -> WinnerSeat h = -1 ->
  FinalRecords (finalizeHand p h).2 ->
  TotalPot (finalizeHand p h).2
  = sum64 (map (potOf (finalizeHand p h).2) (winnersOf (finalizeHand p h).2)).
Proof.
  intros Hun Hws (_ & Hnd & Hseats & _).
  destruct (finalizeHand_winners p h Hun Hws) as (Hwon & Hpot & _ & Htot & _).
  rewrite Htot. apply winners_total; [| | exact Hpot].
  - unfold winnersOf. by apply NoDup_filter.
  - intros pw Hpw. unfold winnersOf. apply list_elem_of_filter.
    assert (Hw : wonOf (finalizeHand p h).2 (winSeatID pw) = true).
    { rewrite Hwon. apply bool_decide_eq_true.
      by apply (list_elem_of_fmap_2 winSeatID) in Hpw. }
    split; [exact Hw |]. apply Hseats. unfold wonOf in Hw.
    by destruct (Players _ !! winSeatID pw).
Qed.

(** The total pot of every hand a parse hands over. *)
Lemma reachable_potSum world lines :
  Forall (fun H => TotalPot H = sum64 (map (potOf H) (winnersOf H)))
    (Hands (ParseReader world lines)).
Proof.
  pose proof (reach_final world
           (fun p h => RecordsOK (pfActions p) (foldedThisHand p) h)
           (fun H => TotalPot H = sum64 (map (potOf H) (winnersOf H)))) as HR.
  eapply Forall_impl; [apply HR | by intros H [? _]].
  - intros p p' h E1 E2 _. by rewrite E1, E2.
  - intros ts p h [= <-]. split; [| split].
    + apply map_Forall_empty.
    + intros s Hs. by apply elem_of_nil in Hs.
    + apply Forall_nil_2.
  - intros ts msg p h h' _ _ Hh Hok Hh'. by apply handleEvent_RecordsOK.
  - intros p h HI Hseats Hh Hok.
    pose proof HI as (_ & _ & Hpw & Hcur). rewrite Hh in Hcur.
    destruct Hcur as (Hhok & Hws & _).
    apply finalizeHand_potSum; [| exact Hws | by apply finalizeHand_FinalRecords].
    eapply HandOK_weaken; [| exact Hhok]. by intros pi [_ ?].
Qed.

(** C8: on finalization every pending winner's seat has its won flag
    set, the pot won by a seat is the sum of the amounts of the pending
    winners naming it, the winner seat is the seat of the last pending
    winner, and the total pot is the sum of all pending amounts, which
    is the sum of the pots won over the recorded winners.  The sums are
    Go [int] sums.  The hand so finalized is the one the parse appends
    to its list when the local seat has a record in it, and in every
    hand of the list the total pot is the sum of the pots won over the
    seats marked as winners. *)
Theorem C8_winner_resolution (world : string) (lines : list Line) (h : Hand) :
  let p := parseLines world NewParser lines in
  currentHand p = Some h ->
  let h' := (finalizeHand p h).2 in
  let pws := pendingWinners p in
  (forall s, wonOf h' s = bool_decide (s ∈ map winSeatID pws))
  /\ (forall s, potOf h' s = sum64 (amountsFor s pws))
  /\ WinnerSeat h' = default (-1) (last (map winSeatID pws))
  /\ TotalPot h' = sum64 (map winAmount pws)
  /\ TotalPot h' = sum64 (map (potOf h') (remove_dups (map winSeatID pws)))
  /\ (minInt <= zsum (map winAmount pws) <= maxInt ->
      TotalPot h' = zsum (map winAmount pws))
  /\ Hands (ParseReader world lines)
     = Hands (result p) ++ (if keepsHand h' then [h'] else [])
  /\ Forall (fun H => TotalPot H = sum64 (map (potOf H) (winnersOf H)))
       (Hands (ParseReader world lines)).
Proof.
  intros p Hh h' pws.
  pose proof (reachable_Inv world lines) as (_ & _ & _ & Hcur).
  fold p in Hcur. rewrite Hh in Hcur. destruct Hcur as (Hok & Hws & _).
  assert (Hun : HandOK unpaid h).
  { eapply HandOK_weaken; [| exact Hok]. by intros pi [_ ?]. }
  destruct (finalizeHand_winners p h Hun Hws) as (Hwon & Hpot & Hlast & Htot & _).
  fold h' in Hwon, Hpot, Hlast, Htot. fold pws in Hwon, Hpot, Hlast, Htot.
  split; [exact Hwon |]. split; [exact Hpot |]. split; [exact Hlast |].
  split; [exact Htot |].
  split.
  { rewrite Htot. apply winners_total; [apply NoDup_remove_dups | | exact Hpot].
    intros pw Hpw. apply elem_of_remove_dups.
    by apply (list_elem_of_fmap_2 winSeatID) in Hpw. }
  split.
  { intros Hfit. rewrite Htot, sum64_zsum. by apply wrap64_small. }
  split; [exact (ParseReader_hands world lines h Hh) |].
  apply reachable_potSum.
Qed.

(** C8 at the split pot: the parse hands over one hand, with total pot
    65, winner seat 2, and 35 won by seat 2. *)
Lemma C8_witness :
  exists h H,
    currentHand (parseLines "wrld_0" NewParser splitPot) = Some h
    /\ Hands (ParseReader "wrld_0" splitPot) = [H]
    /\ TotalPot H = 65 /\ WinnerSeat H = 2 /\ potOf H 2 = 35
    /\ winnersOf H = [2; 3].
Proof.
  eexists. eexists. split; [vm_compute; reflexivity |].
  destruct (C8_winner_resolution "wrld_0" splitPot _ eq_refl)
    as (_ & Hpot & Hws & Ht & _ & _ & Hl & _).
  split; [exact Hl |].
  split; [exact Ht |]. split; [exact Hws |]. split; [exact (Hpot 2) |].
  vm_compute. reflexivity.
Defined.

(** ** The call rule of the pass on the hands of a parse *)

Lemma calculatePreflopStats_passAt p h :
  calculatePreflopStats p h = pfHand (passAt h (pfActions p)).
Proof.
  unfold calculatePreflopStats, passAt.
  destruct (pfActions p) as [| a rest]; [reflexivity |].
  replace (len (a :: rest) =? 0) with false
    by (symmetry; apply Z.eqb_neq; unfold len; simpl length; lia).
  by destruct (_ || _).
Qed.

Lemma passAt_app h pre act post :
  passAt h (pre ++ act :: post)
  = fold_left pfStep post (pfStep (passAt h pre) act).
Proof. unfold passAt. by rewrite fold_left_app. Qed.

Lemma vpipOf_updPlayer seat f h s :
  vpipOf (updPlayer seat f h) s
  = if decide (seat = s)
    then default false (VPIP <$> (f <$> Players h !! s))
    else vpipOf h s.
Proof. unfold vpipOf. rewrite updPlayer_lookup. by destruct (decide (seat = s)). Qed.

(** The two exclusions: the iteration changes nothing. *)
Lemma pfStep_excluded st act :
  sbCompletes st act \/ bbCloses st act -> pfStep st act = st.
Proof.
  unfold sbCompletes, bbCloses, pfStep.
  destruct (Players (pfHand st) !! seatID act); [| done].
  intros [(Ha & Hs & Hm & Hl) | ([Ha | Ha] & Hs & Hl)]; rewrite Ha; [| | reflexivity].
  - replace (seatID act =? SBSeat (pfHand st)) with true by (symmetry; lia).
    replace (amount act <=? bbAmount (pfHand st)) with true by (symmetry; lia).
    replace (betLevel st >? 2) with false by (symmetry; lia). reflexivity.
  - replace (seatID act =? BBSeat (pfHand st)) with true by (symmetry; lia).
    replace (betLevel st <=? 2) with true by (symmetry; lia).
    replace (betLevel st >? 2) with false by (symmetry; lia).
    destruct ((seatID act =? SBSeat (pfHand st)) && _); reflexivity.
Qed.

(** A counted action sets the flag of its seat. *)
Lemma pfStep_counts st act :
  is_Some (Players (pfHand st) !! seatID act) -> countsVPIP st act ->
  vpipOf (pfHand (pfStep st act)) (seatID act) = true.
Proof.
  intros [pi Hpi] Hc. unfold pfStep. rewrite Hpi.
  assert (Hv : forall l r f,
    (forall x, VPIP (f x) = true) ->
    vpipOf (pfHand (mkPfState l r (updPlayer (seatID act) f (pfHand st))))
           (seatID act) = true).
  { intros l r f Hf. cbn [pfHand]. by apply (vpipOf_updPlayer_set _ _ _ pi). }
  destruct Hc as [Ha | [Ha | (Ha & Hsb & Hbb)]]; rewrite Ha.
  - generalize (betLevel st + 1). intros lv.
    destruct lv as [| [[q | q |] | [q | q |] |] | q]; by apply Hv.
  - generalize (betLevel st + 1). intros lv.
    destruct lv as [| [[q | q |] | [q | q |] |] | q]; by apply Hv.
  - destruct ((seatID act =? SBSeat (pfHand st))
              && (amount act <=? bbAmount (pfHand st))) eqn:E1.
    + apply andb_prop in E1 as [E1 E2].
      destruct (betLevel st >? 2) eqn:E3; [by apply Hv |].
      exfalso. apply Hsb. split; [done | repeat split; lia].
    + destruct ((seatID act =? BBSeat (pfHand st)) && (betLevel st <=? 2)) eqn:E2;
        [| by apply Hv].
      apply andb_prop in E2 as [E2 E3].
      exfalso. apply Hbb. split; [by left | split; lia].
Qed.

(** The pass never clears the flag. *)
Lemma pfStep_vpip_mono st act s :
  vpipOf (pfHand st) s = true -> vpipOf (pfHand (pfStep st act)) s = true.
Proof.
  intros Hv. unfold pfStep.
  destruct (Players (pfHand st) !! seatID act); [| done].
  assert (Hm : forall l r f,
    (forall x, VPIP x = true -> VPIP (f x) = true) ->
    vpipOf (pfHand (mkPfState l r (updPlayer (seatID act) f (pfHand st)))) s = true).
  { intros l r f Hf. cbn [pfHand]. by apply vpipOf_updPlayer_mono. }
  destruct (action act); try done.
  - by destruct (betLevel st <? 2).
  - destruct (_ && _); [destruct (_ >? 2) |]; [by apply Hm | done |].
    destruct (_ && _); [done | by apply Hm].
  - generalize (betLevel st + 1). intros lv.
    destruct lv as [| [[q | q |] | [q | q |] |] | q]; by apply Hm.
  - generalize (betLevel st + 1). intros lv.
    destruct lv as [| [[q | q |] | [q | q |] |] | q]; by apply Hm.
  - destruct (_ >=? 3); [| done].
    destruct (raiserAtLevel st !! _); [| done].
    destruct (_ =? _); [by apply Hm | done].
Qed.

Lemma fold_pfStep_vpip_mono acts st s :
  vpipOf (pfHand st) s = true ->
  vpipOf (pfHand (fold_left pfStep acts st)) s = true.
Proof.
  revert st. induction acts as [| a rest IH]; intros st Hv; [done |].
  simpl. apply IH. by apply pfStep_vpip_mono.
Qed.

(** The flag is set by counted actions of the seat only. *)
Lemma pfStep_vpip_inv st act s :
  vpipOf (pfHand (pfStep st act)) s = true ->
  vpipOf (pfHand st) s = true \/ (seatID act = s /\ countsVPIP st act).
Proof.
  unfold pfStep.
  destruct (Players (pfHand st) !! seatID act) as [pi |] eqn:Hpi; [| by left].
  assert (Hu : forall l r f,
    (forall x, VPIP (f x) = VPIP x) ->
    vpipOf (pfHand (mkPfState l r (updPlayer (seatID act) f (pfHand st)))) s = true ->
    vpipOf (pfHand st) s = true).
  { intros l r f Hf. cbn [pfHand]. rewrite vpipOf_updPlayer.
    destruct (decide (seatID act = s)) as [<- | Hne]; [| done].
    unfold vpipOf. rewrite Hpi. simpl. by rewrite Hf. }
  assert (Hc : forall l r f,
    countsVPIP st act ->
    vpipOf (pfHand (mkPfState l r (updPlayer (seatID act) f (pfHand st)))) s = true ->
    vpipOf (pfHand st) s = true \/ (seatID act = s /\ countsVPIP st act)).
  { intros l r f Hcount. cbn [pfHand]. rewrite vpipOf_updPlayer.
    destruct (decide (seatID act = s)) as [<- | Hne]; [by right | by left]. }
  destruct (action act) eqn:Ha; try (by left).
  - destruct (betLevel st <? 2); by left.
  - destruct ((seatID act =? SBSeat (pfHand st))
              && (amount act <=? bbAmount (pfHand st))) eqn:E1.
    + destruct (betLevel st >? 2) eqn:E3; [| by left].
      apply Hc. right. right. split; [done |]. split.
      * intros (_ & _ & _ & Hl). lia.
      * intros (_ & _ & Hl). lia.
    + destruct ((seatID act =? BBSeat (pfHand st)) && (betLevel st <=? 2)) eqn:E2;
        [by left |].
      apply Hc. right. right. split; [done |]. split.
      * intros (_ & Hs & Hm & _).
        apply andb_false_iff in E1 as [E1 | E1]; lia.
      * intros (_ & Hs & Hl).
        apply andb_false_iff in E2 as [E2 | E2]; lia.
  - generalize (betLevel st + 1). intros lv.
    destruct lv as [| [[q | q |] | [q | q |] |] | q]; apply Hc; by left.
  - generalize (betLevel st + 1). intros lv.
    destruct lv as [| [[q | q |] | [q | q |] |] | q]; apply Hc; right; by left.
  - destruct (_ >=? 3); [| by left].
    destruct (raiserAtLevel st !! _); [| by left].
    destruct (_ =? _); [| by left]. intros Hv. left. by apply Hu in Hv.
Qed.

Lemma sameCore_is_Some h h' s :
  sameCore h h' -> (is_Some (Players h' !! s) <-> is_Some (Players h !! s)).
Proof.
  intros (m & -> & Hm). specialize (Hm s). simpl.
  destruct Hm; split; intros [? ?]; by eauto.
Qed.

Lemma passAt_is_Some h pre s :
  is_Some (Players (pfHand (passAt h pre)) !! s) <-> is_Some (Players h !! s).
Proof.
  apply sameCore_is_Some.
  apply (fold_pfStep_sameCore pre (mkPfState 1 ∅ h)).
Qed.

(** After the pass the flag of a seat is set exactly when it was set
    before or the buffer holds a counted action of the seat. *)
Lemma fold_pfStep_vpip acts st s :
  (forall a, a ∈ acts -> is_Some (Players (pfHand st) !! seatID a)) ->
  vpipOf (pfHand (fold_left pfStep acts st)) s = true <->
  vpipOf (pfHand st) s = true
  \/ exists pre act post,
       acts = pre ++ act :: post /\ seatID act = s
       /\ countsVPIP (fold_left pfStep pre st) act.
Proof.
  revert st. induction acts as [| a rest IH]; intros st Hrec.
  - simpl. split; [by left |]. intros [Hv | (pre & act & post & E & _)]; [done |].
    by destruct pre.
  - assert (Hrec' : forall x, x ∈ rest ->
                      is_Some (Players (pfHand (pfStep st a)) !! seatID x)).
    { intros x Hx. apply (sameCore_is_Some (pfHand st)); [apply pfStep_sameCore |].
      apply Hrec. by apply list_elem_of_further. }
    simpl. rewrite (IH _ Hrec'). split.
    + intros [Hv | (pre & act & post & E & Hs & Hc)].
      * apply pfStep_vpip_inv in Hv as [Hv | [Hs Hc]]; [by left |].
        right. by exists [], a, rest.
      * right. exists (a :: pre), act, post. rewrite E. by repeat split.
    + intros [Hv | (pre & act & post & E & Hs & Hc)].
      * left. by apply pfStep_vpip_mono.
      * destruct pre as [| a' pre]; simpl in E; injection E as -> ->.
        -- left. subst s. apply pfStep_counts; [| done].
           apply Hrec. apply list_elem_of_here.
        -- right. by exists pre, act, post.
Qed.

Lemma calculatePreflopStats_buffer p p' h :
  pfActions p' = pfActions p ->
  calculatePreflopStats p' h = calculatePreflopStats p h.
Proof. intros E. unfold calculatePreflopStats. by rewrite E. Qed.

(** The finalized hand is the result of the pass up to its end time and
    its completeness mark. *)
Lemma finalizeHand_pass p h :
  (finalizeHand p h).2
  = set_IsComplete
      (set_EndTime (calculatePreflopStats p (passInput p h)) (lastTimestamp p))
      ((len (pendingWinners p) >? 0)
       || (len (CommunityCards (calculatePreflopStats p (passInput p h))) >? 0)).
Proof.
  rewrite finalizeHand_unfold. cbv zeta. cbn [snd fst].
  destruct (preAssign_parser p h) as (Epw & Epf & _ & Ets).
  unfold afterWinners, passInput, beforePositions. cbv zeta.
  rewrite (calculatePreflopStats_buffer p _ _ Epf), Ets, Epw. reflexivity.
Qed.

Lemma finalizeHand_vpipOf p h s :
  vpipOf (finalizeHand p h).2 s
  = vpipOf (pfHand (passAt (passInput p h) (pfActions p))) s.
Proof. by rewrite finalizeHand_pass, calculatePreflopStats_passAt. Qed.

(** The records of the hand in progress of a parse. *)
Lemma reachable_RecordsOK world lines h :
  let p := parseLines world NewParser lines in
  currentHand p = Some h ->
  Inv p /\ SeatsOK p h /\ RecordsOK (pfActions p) (foldedThisHand p) h.
Proof.
  intros p Hh.
  destruct (reach_run world
              (fun p h => RecordsOK (pfActions p) (foldedThisHand p) h) FinalRecords)
    with (lines := lines) as (HI & HS & _ & HC).
  - intros q q' g E1 E2 _. by rewrite E1, E2.
  - intros ts q g [= <-]. split; [| split].
    + apply map_Forall_empty.
    + intros s Hs. by apply elem_of_nil in Hs.
    + apply Forall_nil_2.
  - intros ts msg q g g' _ _ Hg Hok Hg'. by apply handleEvent_RecordsOK.
  - intros q g (_ & _ & Hpw & _) Hseats _ Hok. by apply finalizeHand_FinalRecords.
  - fold p in HI, HS, HC. split; [exact HI |]. split; [| by apply HC].
    unfold SeatsInv in HS. by rewrite Hh in HS.
Qed.

(** The hand the pass receives still has the records of the hand in
    progress: no flag is set, and every action of the buffer has the
    record of its seat. *)
Lemma passInput_RecordsOK p h folded :
  Forall (fun pw => 0 <= winSeatID pw) (pendingWinners p) ->
  RecordsOK (pfActions p) folded h ->
  RecordsOK (pfActions p) folded (passInput p h).
Proof.
  intros Hpw Hok. unfold passInput, beforePositions. cbv zeta.
  destruct (preAssign_parser p h) as (Epw & _).
  apply assignPositions_RecordsOK.
  set (hw := (fold_left applyWinner _ _).2).
  assert (Hw : RecordsOK (pfActions p) folded hw).
  { apply fold_applyWinner_RecordsOK; [by rewrite Epw |].
    by apply preAssign_RecordsOK. }
  eapply (RecordsOK_fields _ _ hw); [| | exact Hw];
    unfold inferWinType; repeat case_match; reflexivity.
Qed.

(** Scenario S6 evaluated. *)
Lemma scenarioS6_vpip world :
  exists H6 pi2,
    Hands (ParseReader world scenarioS6) = [H6]
    /\ SBSeat H6 = 2 /\ Players H6 !! 2 = Some pi2 /\ VPIP pi2 = false.
Proof. eexists _, _. vm_compute. repeat split. Qed.

(** C2: in the pre-flop pass that finalization runs on the hand of a
    parse, a call by the SB seat of at most the BB amount met at bet
    level at most 2 changes nothing, and so does a call or a check by
    the BB seat met at bet level at most 2; every other call of the
    buffer leaves its seat with VPIP set in the finalized hand.  A seat
    of the finalized hand has VPIP set exactly when the buffer holds a
    bet, a raise or a call of that seat that no exclusion covers.  The
    finalized hand is the one the parse appends to its list when it is
    kept.  In scenario S6 the SB seat ends the hand with VPIP =
    false. *)
Theorem C2_vpip_exclusions (world : string) (lines : list Line) (h : Hand)
  (pre : list pfAction) (act : pfAction) (post : list pfAction) :
  let p := parseLines world NewParser lines in
  currentHand p = Some h ->
  pfActions p = pre ++ act :: post ->
  let st := passAt (passInput p h) pre in
  let H := (finalizeHand p h).2 in
  (sbCompletes st act -> pfStep st act = st)
  /\ (bbCloses st act -> pfStep st act = st)
  /\ (action act = ActionCall -> ~ sbCompletes st act -> ~ bbCloses st act ->
      vpipOf H (seatID act) = true)
  /\ (forall s,
        vpipOf H s = true <->
        exists pre' a post',
          pfActions p = pre' ++ a :: post' /\ seatID a = s
          /\ countsVPIP (passAt (passInput p h) pre') a)
  /\ Hands (ParseReader world lines)
     = Hands (result p) ++ (if keepsHand H then [H] else [])
  /\ (forall world', exists H6 pi2,
         Hands (ParseReader world' scenarioS6) = [H6]
         /\ SBSeat H6 = 2 /\ Players H6 !! 2 = Some pi2 /\ VPIP pi2 = false).
Proof.
  intros p Hh Ebuf st H.
  destruct (reachable_RecordsOK world lines h Hh) as ((_ & _ & Hpw & _) & _ & Hok).
  fold p in Hpw, Hok.
  destruct (passInput_RecordsOK p h _ Hpw Hok) as (Hrec & _ & Hbuf).
  set (g := passInput p h) in *.
  assert (Hsome : forall a, a ∈ pfActions p ->
                    is_Some (Players (pfHand (mkPfState 1 ∅ g)) !! seatID a)).
  { intros a Ha. rewrite Forall_forall in Hbuf.
    destruct (Hbuf a Ha) as (pi & _ & Hl & _). by exists pi. }
  assert (Hno : forall s, vpipOf (pfHand (mkPfState 1 ∅ g)) s = false).
  { intros s. cbn [pfHand]. unfold vpipOf.
    destruct (Players g !! s) as [pi |] eqn:Hl; [| done].
    by destruct (Hrec s pi Hl) as (_ & _ & _ & (Hv & _) & _). }
  assert (Hiff : forall s,
             vpipOf H s = true <->
             exists pre' a post',
               pfActions p = pre' ++ a :: post' /\ seatID a = s
               /\ countsVPIP (passAt g pre') a).
  { intros s. unfold H. rewrite finalizeHand_vpipOf. fold g. unfold passAt.
    rewrite (fold_pfStep_vpip _ _ s Hsome). rewrite Hno. split.
    - by intros [? | ?].
    - by right. }
  split; [intros Hx; apply pfStep_excluded; by left |].
  split; [intros Hx; apply pfStep_excluded; by right |].
  split.
  { intros Ha Hsb Hbb. apply Hiff. exists pre, act, post.
    split; [done |]. split; [done |]. right. right. done. }
  split; [exact Hiff |].
  split; [exact (ParseReader_hands world lines h Hh) |].
  exact scenarioS6_vpip.
Qed.

(** C2 at scenario S6 with a raise first: the call of 60 by the SB seat
    is met at level 3, and seat 2 ends the hand with VPIP set. *)
Lemma C2_witness :
  exists h H,
    currentHand (parseLines "wrld_0" NewParser scenarioS6raise) = Some h
    /\ pfActions (parseLines "wrld_0" NewParser scenarioS6raise)
       = [mkPfAction 2 ActionBlindSB 10; mkPfAction 3 ActionBlindBB 20;
          mkPfAction 4 ActionRaise 60] ++ mkPfAction 2 ActionCall 60 :: []
    /\ Hands (ParseReader "wrld_0" scenarioS6raise) = [H]
    /\ vpipOf H 2 = true.
Proof.
  pose (p := parseLines "wrld_0" NewParser scenarioS6raise).
  pose (h := default (pfHand witnessState) (currentHand p)).
  assert (Hh : currentHand p = Some h) by (vm_compute; reflexivity).
  assert (E : pfActions p
              = [mkPfAction 2 ActionBlindSB 10; mkPfAction 3 ActionBlindBB 20;
                 mkPfAction 4 ActionRaise 60] ++ mkPfAction 2 ActionCall 60 :: [])
    by (vm_compute; reflexivity).
  exists h, (finalizeHand p h).2.
  split; [exact Hh |]. split; [exact E |].
  destruct (C2_vpip_exclusions "wrld_0" scenarioS6raise h _ _ _ Hh E)
    as (_ & _ & Hcall & _ & Hl & _).
  split; [rewrite Hl; vm_compute; reflexivity |].
  apply Hcall.
  - reflexivity.
  - intros (_ & _ & Hm & _). vm_compute in Hm. apply Hm. reflexivity.
  - intros (_ & Hs & _). vm_compute in Hs. discriminate Hs.
Defined.

(** ** Blind inference and the hands of a parse *)








